(** * The interactive diagram engine of nokia-bkg

    A shallow embedding of the viewport, filter, scenario-animation,
    position-edit and edge-geometry code of

      - [src/components/main.jsx]  (component [NokiaBusinessKnowledgeGraph]),
        module [Main] below;
      - [src/components/frontend_template/kg_frontend_template.jsx]
        (component [SchemaGraph]), module [Template] below.

    Conventions of the embedding.

    - A React component is a set of [useState] cells and handlers that
      replace them.  The cells a handler reads or writes are the fields of a
      record [State]; a handler is a function [State -> State] (or
      [State -> option State] when the JavaScript can throw a [TypeError],
      [None] standing for the exception).  A [useMemo] value is a function of
      its dependencies.
    - JavaScript numbers are IEEE-754 binary64.  Code that only moves numbers
      around or combines them is written once, over a type [num] with the
      operations of the class [JSNum], and is instantiated at [float] (Rocq's
      primitive binary64, the program's own arithmetic) and at [Q] (the same
      expressions without rounding, infinities or NaN).  Facts that need no
      arithmetic law are proved for every [num]; facts that need field or
      order laws are proved in [Q]; facts about NaN, and the clamping of
      the scale under rounding, are proved in [float] from the IEEE-754
      specification of its operations.
    - Objects used as dictionaries whose enumeration order is never observed
      ([positions]) are finite maps of their own properties; the [nodes]
      object, which is enumerated with [Object.values] / [Object.keys], is
      the list of its own properties in enumeration order.  A read [o[k]]
      also finds the properties every plain object inherits from
      [Object.prototype] ([obj_read] below).
    - A position is an object with numbers [x] and [y].  A coordinate that
      is [undefined] (the [x] of a value inherited from [Object.prototype],
      or of the copy [{ ...pos }] of one) is kept as NaN, which is what
      arithmetic makes of it.
    - Strings are sequences of code units below 256 (Latin-1); strings
      with other code units are outside the model.  [toLowerCase] and
      [trim] are those of JavaScript on that range. *)

From Stdlib Require Import ZArith QArith Qminmax Lqa Floats String Ascii.
From stdpp Require Import base option list gmap strings.

Local Open Scope Z_scope.

(** ** Numbers *)

Class JSNum (num : Type) := {
  lit : Q -> num;                   (* a decimal literal of the source *)
  num_add : num -> num -> num;
  num_sub : num -> num -> num;
  num_mul : num -> num -> num;
  num_div : num -> num -> num;
  num_neg : num -> num;             (* unary minus *)
  num_gt : num -> num -> bool;      (* a > b *)
  Math_max : num -> num -> num;
  Math_min : num -> num -> num
}.

Arguments lit {num _} q%_Q.

Declare Scope js_scope.
Delimit Scope js_scope with js.
Infix "+" := num_add : js_scope.
Infix "-" := num_sub : js_scope.
Infix "*" := num_mul : js_scope.
Infix "/" := num_div : js_scope.
Notation "- x" := (num_neg x) : js_scope.
Infix ">?" := num_gt : js_scope.

(** Exact arithmetic. *)
Definition Q_gt (a b : Q) : bool := if Qlt_le_dec b a then true else false.
Definition Q_max (a b : Q) : Q := if Qlt_le_dec a b then b else a.
Definition Q_min (a b : Q) : Q := if Qlt_le_dec b a then b else a.

#[export] Instance Q_JSNum : JSNum Q := {|
  lit := fun q => q;
  num_add := Qplus; num_sub := Qminus; num_mul := Qmult; num_div := Qdiv;
  num_neg := Qopp; num_gt := Q_gt;
  Math_max := Q_max; Math_min := Q_min
|}.

(** Binary64 arithmetic.  [Math.max] and [Math.min] return NaN as soon as
    one argument is NaN and order [-0] below [+0]. *)
Fixpoint float_of_pos (p : positive) : float :=
  match p with
  | xH => 1%float
  | xO p => (2 * float_of_pos p)%float
  | xI p => (2 * float_of_pos p + 1)%float
  end.

Definition float_of_Z (z : Z) : float :=
  match z with
  | Z0 => 0%float
  | Zpos p => float_of_pos p
  | Zneg p => (- float_of_pos p)%float
  end.

(** The double nearest to [n/d]: both are exact below [2^53] and the
    division rounds correctly. *)
Definition float_lit (q : Q) : float :=
  (float_of_Z (Qnum q) / float_of_pos (Qden q))%float.

Definition float_max (a b : float) : float :=
  if PrimFloat.is_nan a || PrimFloat.is_nan b then nan
  else if (a <? b)%float then b
  else if (b <? a)%float then a
  else if PrimFloat.get_sign a then b else a.

Definition float_min (a b : float) : float :=
  if PrimFloat.is_nan a || PrimFloat.is_nan b then nan
  else if (a <? b)%float then a
  else if (b <? a)%float then b
  else if PrimFloat.get_sign a then a else b.

#[export] Instance float_JSNum : JSNum float := {|
  lit := float_lit;
  num_add := PrimFloat.add; num_sub := PrimFloat.sub;
  num_mul := PrimFloat.mul; num_div := PrimFloat.div;
  num_neg := PrimFloat.opp; num_gt := fun a b => PrimFloat.ltb b a;
  Math_max := float_max; Math_min := float_min
|}.

(** ** Strings

    A string of the model is a JavaScript string all of whose code units
    are below 256 (the Latin-1 range), one character for each code unit.
    On such strings the functions below are those of [String.prototype]:
    the result of each is again such a string. *)

(** [toLowerCase] of a code unit below 256: [A]-[Z] and the capital
    letters U+00C0-U+00DE (all but the multiplication sign U+00D7) move up
    by 32; every other character of the range is its own lower case. *)
Definition lower_ascii (c : ascii) : ascii :=
  let n := nat_of_ascii c in
  if ((65 <=? n) && (n <=? 90)
      || (192 <=? n) && (n <=? 222) && negb (n =? 215))%nat
  then ascii_of_nat (n + 32) else c.

Fixpoint toLowerCase (s : string) : string :=
  match s with
  | EmptyString => EmptyString
  | String c s' => String (lower_ascii c) (toLowerCase s')
  end.

(** [s.includes(t)] *)
Fixpoint includes (s t : string) : bool :=
  String.prefix t s ||
  match s with
  | EmptyString => false
  | String _ s' => includes s' t
  end.

(** Truthiness of a value that is a string, [undefined] or [null]. *)
Definition truthy_string (s : string) : bool := negb (String.eqb s "").
Definition truthy_id (o : option string) : bool :=
  match o with Some s => truthy_string s | None => false end.

(** [a === b] where [a] may be [undefined] and [b] is a string. *)
Definition opt_strict_eq (a : option string) (b : string) : bool :=
  match a with Some s => String.eqb s b | None => false end.

(** [s.split(',')]: the pieces between the commas, at least one. *)
Fixpoint split_comma (s : string) : list string :=
  match s with
  | EmptyString => [EmptyString]
  | String c s' =>
      if Ascii.eqb c "," then EmptyString :: split_comma s'
      else
        match split_comma s' with
        | piece :: pieces => String c piece :: pieces
        | [] => [String c EmptyString]
        end
  end.

(** The white space and line terminators [trim] strips, among the code
    units below 256: tab, line feed, vertical tab, form feed, carriage
    return, space and the no-break space U+00A0. *)
Definition is_space (c : ascii) : bool :=
  let n := nat_of_ascii c in
  ((9 <=? n) && (n <=? 13))%nat || (n =? 32)%nat || (n =? 160)%nat.

Fixpoint trimStart (s : string) : string :=
  match s with
  | EmptyString => EmptyString
  | String c s' => if is_space c then trimStart s' else s
  end.

Fixpoint trimEnd (s : string) : string :=
  match s with
  | EmptyString => EmptyString
  | String c s' =>
      let r := trimEnd s' in
      if is_space c && String.eqb r "" then EmptyString else String c r
  end.

Definition trim (s : string) : string := trimEnd (trimStart s).

(** [x ? x.split(',').map(s => s.trim()).filter(Boolean) : []], the
    parser of the comma-separated fields of the forms. *)
Definition parseCommaList (x : string) : list string :=
  if truthy_string x
  then List.filter truthy_string (map trim (split_comma x))
  else [].

(** [l.join(', ')] *)
Definition joinCommaSpace (l : list string) : string := String.concat ", " l.

(** [s.replace(/_/g, ' ')] *)
Fixpoint underscoresToSpaces (s : string) : string :=
  match s with
  | EmptyString => EmptyString
  | String c s' =>
      String (if Ascii.eqb c "_" then " "%char else c) (underscoresToSpaces s')
  end.

(** ** Data model *)

Record Node := {
  node_id : string;
  node_module : option string;
  node_nodeType : option string;
  node_definition : option string;
  node_color : string
}.

Record Relationship := {
  rel_from : string;
  rel_to : string;
  rel_label : string;
  rel_type : option string
}.

Record DataFlow := {
  df_step : Z;
  df_from : string;
  df_to : string;
  df_action : string
}.

Record Scenario := {
  sc_id : string;
  sc_color : string;
  sc_path : option (list string);
  sc_dataFlow : list DataFlow
}.

(** The [nodes] object: own properties in insertion order. *)
Definition NodesObject : Type := list (string * Node).

Definition Object_values (o : NodesObject) : list Node := o.*2.
Definition Object_keys (o : NodesObject) : list string := o.*1.

(** The own property [k] of [o]. *)
Fixpoint obj_get (o : NodesObject) (k : string) : option Node :=
  match o with
  | [] => None
  | (k', n) :: o' => if String.eqb k' k then Some n else obj_get o' k
  end.

(** [l[i]] for a number [i] that is an integer: [undefined] out of range. *)
Definition array_get {A} (l : list A) (i : Z) : option A :=
  if i <? 0 then None else l !! Z.to_nat i.

(** A property key made of a value that may be [undefined]. *)
Definition property_key (o : option string) : string :=
  match o with Some s => s | None => "undefined" end.

(** The names of the properties a plain object inherits from
    [Object.prototype].  The inherited values are functions, and for
    [__proto__] the prototype itself: all are truthy, none has a property
    [x], [y] or [nodeType]. *)
Definition Object_prototype_keys : list string :=
  ["constructor"; "hasOwnProperty"; "isPrototypeOf"; "propertyIsEnumerable";
   "toLocaleString"; "toString"; "valueOf"; "__proto__";
   "__defineGetter__"; "__defineSetter__"; "__lookupGetter__";
   "__lookupSetter__"]%string.

Definition inherited (k : string) : bool :=
  bool_decide (k ∈ Object_prototype_keys).

Section Geometry.
Context {num : Type}.

Record Position := { pos_x : num; pos_y : num }.
Record Transform := { t_x : num; t_y : num; scale : num }.
Record MouseEvent := {
  clientX : num;
  clientY : num;
  onBackground : bool   (* e.target is the svg or a rect *)
}.
Record WheelEvent := {
  deltaX : num;
  deltaY : num;
  wheel_clientX : num;
  wheel_clientY : num;
  ctrlKey : bool;
  metaKey : bool
}.
End Geometry.

Arguments Position : clear implicits.
Arguments Transform : clear implicits.
Arguments MouseEvent : clear implicits.
Arguments WheelEvent : clear implicits.

(** ** World and screen coordinates

    The graph layer is drawn inside
    [<g transform="translate(x, y) scale(scale)">] (transform origin [0 0]):
    a world point [w] appears on screen at [w * scale + (x, y)]. *)
Section Viewport.
Context {num : Type} `{!JSNum num}.
Local Open Scope js_scope.

Definition worldToScreen (t : Transform num) (w : Position num) : Position num :=
  {| pos_x := pos_x w * scale t + t_x t; pos_y := pos_y w * scale t + t_y t |}.

(** The world point drawn under the screen point [p]. *)
Definition screenToWorld (t : Transform num) (p : Position num) : Position num :=
  {| pos_x := (pos_x p - t_x t) / scale t; pos_y := (pos_y p - t_y t) / scale t |}.
End Viewport.

(** ** Reading a position by key *)
Section Reads.
Context {num : Type} `{!JSNum num}.
Local Open Scope js_scope.

(** [ToNumber(undefined)], which is NaN: written [0 / 0].  (In the exact
    model, which has no NaN, it is that model's own [0 / 0].) *)
Definition ToNumber_undefined : num := lit 0 / lit 0.

(** What arithmetic sees of a value that has neither [x] nor [y]. *)
Definition undefinedPosition : Position num :=
  {| pos_x := ToNumber_undefined; pos_y := ToNumber_undefined |}.

(** [o[k]] on the plain object [o] of positions: the own property, else
    the value inherited from [Object.prototype], else [undefined] ([None]).
    A value that is found is truthy. *)
Definition obj_read (o : gmap string (Position num)) (k : string)
  : option (Position num) :=
  match o !! k with
  | Some pos => Some pos
  | None => if inherited k then Some undefinedPosition else None
  end.
End Reads.

Arguments obj_read : simpl never.

(** ** Scenario paths *)

Definition path_length (sc : Scenario) : Z :=      (* path?.length || 0 *)
  match sc_path sc with
  | Some p => Z.of_nat (length p)
  | None => 0
  end.

Fixpoint indexOf (l : list string) (x : string) : Z :=
  match l with
  | [] => -1
  | y :: l' =>
      if String.eqb y x then 0
      else let r := indexOf l' x in if r <? 0 then -1 else r + 1
  end.

Fixpoint array_includes (l : list string) (x : string) : bool :=
  match l with
  | [] => false
  | y :: l' => String.eqb y x || array_includes l' x
  end.

(** The loop of [isEdgeInPath]: some [i] with
    [path[i], path[i+1]] equal to [from, to] in either order. *)
Fixpoint consecutive_pair (path : list string) (from to : string) : bool :=
  match path with
  | a :: (b :: _) as rest =>
      (String.eqb a from && String.eqb b to)
      || (String.eqb a to && String.eqb b from)
      || consecutive_pair rest from to
  | _ => false
  end.

(** ** main.jsx *)
Module Main.

Inductive ToastType := success | error.
Record Toast := { message : string; type : ToastType }.

(** Outcome of the awaited [apiFetch]: resolved, or rejected with
    [new Error(message)]. *)
Inductive ApiResult := ApiOk | ApiError (msg : string).

Definition dquote : string := String (ascii_of_nat 34) EmptyString.

Section Component.
Context {num : Type} `{!JSNum num}.
Local Open Scope js_scope.

Record NodeDragStart := {
  mouseX : num; mouseY : num; nodeX : num; nodeY : num
}.

Record State := {
  positions : gmap string (Position num);
  transform : Transform num;
  selectedNode : option string;
  isDragging : bool;
  dragStart : Position num;
  activeScenario : option Scenario;
  animationStep : Z;
  isAnimating : bool;
  toast : option Toast;
  editingPositionNode : option string;
  editingPositionOriginal : option (Position num);
  nodeDragStart : option NodeDragStart
}.

(** The [useState] initial values. *)
Definition initialState : State := {|
  positions := ∅;
  transform := {| t_x := lit 50; t_y := lit 50; scale := lit 0.45 |};
  selectedNode := None;
  isDragging := false;
  dragStart := {| pos_x := lit 0; pos_y := lit 0 |};
  activeScenario := None;
  animationStep := -1;
  isAnimating := false;
  toast := None;
  editingPositionNode := None;
  editingPositionOriginal := None;
  nodeDragStart := None
|}.

(** State setters. *)
Definition setPositions (v : gmap string (Position num)) (s : State) : State :=
  {| positions := v; transform := transform s; selectedNode := selectedNode s;
     isDragging := isDragging s; dragStart := dragStart s;
     activeScenario := activeScenario s; animationStep := animationStep s;
     isAnimating := isAnimating s; toast := toast s;
     editingPositionNode := editingPositionNode s;
     editingPositionOriginal := editingPositionOriginal s;
     nodeDragStart := nodeDragStart s |}.
Definition setTransform (v : Transform num) (s : State) : State :=
  {| positions := positions s; transform := v; selectedNode := selectedNode s;
     isDragging := isDragging s; dragStart := dragStart s;
     activeScenario := activeScenario s; animationStep := animationStep s;
     isAnimating := isAnimating s; toast := toast s;
     editingPositionNode := editingPositionNode s;
     editingPositionOriginal := editingPositionOriginal s;
     nodeDragStart := nodeDragStart s |}.
Definition setSelectedNode (v : option string) (s : State) : State :=
  {| positions := positions s; transform := transform s; selectedNode := v;
     isDragging := isDragging s; dragStart := dragStart s;
     activeScenario := activeScenario s; animationStep := animationStep s;
     isAnimating := isAnimating s; toast := toast s;
     editingPositionNode := editingPositionNode s;
     editingPositionOriginal := editingPositionOriginal s;
     nodeDragStart := nodeDragStart s |}.
Definition setIsDragging (v : bool) (s : State) : State :=
  {| positions := positions s; transform := transform s;
     selectedNode := selectedNode s;
     isDragging := v; dragStart := dragStart s;
     activeScenario := activeScenario s; animationStep := animationStep s;
     isAnimating := isAnimating s; toast := toast s;
     editingPositionNode := editingPositionNode s;
     editingPositionOriginal := editingPositionOriginal s;
     nodeDragStart := nodeDragStart s |}.
Definition setDragStart (v : Position num) (s : State) : State :=
  {| positions := positions s; transform := transform s;
     selectedNode := selectedNode s;
     isDragging := isDragging s; dragStart := v;
     activeScenario := activeScenario s; animationStep := animationStep s;
     isAnimating := isAnimating s; toast := toast s;
     editingPositionNode := editingPositionNode s;
     editingPositionOriginal := editingPositionOriginal s;
     nodeDragStart := nodeDragStart s |}.
Definition setActiveScenario (v : option Scenario) (s : State) : State :=
  {| positions := positions s; transform := transform s;
     selectedNode := selectedNode s;
     isDragging := isDragging s; dragStart := dragStart s;
     activeScenario := v; animationStep := animationStep s;
     isAnimating := isAnimating s; toast := toast s;
     editingPositionNode := editingPositionNode s;
     editingPositionOriginal := editingPositionOriginal s;
     nodeDragStart := nodeDragStart s |}.
Definition setAnimationStep (v : Z) (s : State) : State :=
  {| positions := positions s; transform := transform s;
     selectedNode := selectedNode s;
     isDragging := isDragging s; dragStart := dragStart s;
     activeScenario := activeScenario s; animationStep := v;
     isAnimating := isAnimating s; toast := toast s;
     editingPositionNode := editingPositionNode s;
     editingPositionOriginal := editingPositionOriginal s;
     nodeDragStart := nodeDragStart s |}.
Definition setIsAnimating (v : bool) (s : State) : State :=
  {| positions := positions s; transform := transform s;
     selectedNode := selectedNode s;
     isDragging := isDragging s; dragStart := dragStart s;
     activeScenario := activeScenario s; animationStep := animationStep s;
     isAnimating := v; toast := toast s;
     editingPositionNode := editingPositionNode s;
     editingPositionOriginal := editingPositionOriginal s;
     nodeDragStart := nodeDragStart s |}.
Definition setToast (v : option Toast) (s : State) : State :=
  {| positions := positions s; transform := transform s;
     selectedNode := selectedNode s;
     isDragging := isDragging s; dragStart := dragStart s;
     activeScenario := activeScenario s; animationStep := animationStep s;
     isAnimating := isAnimating s; toast := v;
     editingPositionNode := editingPositionNode s;
     editingPositionOriginal := editingPositionOriginal s;
     nodeDragStart := nodeDragStart s |}.
Definition setEditingPositionNode (v : option string) (s : State) : State :=
  {| positions := positions s; transform := transform s;
     selectedNode := selectedNode s;
     isDragging := isDragging s; dragStart := dragStart s;
     activeScenario := activeScenario s; animationStep := animationStep s;
     isAnimating := isAnimating s; toast := toast s;
     editingPositionNode := v;
     editingPositionOriginal := editingPositionOriginal s;
     nodeDragStart := nodeDragStart s |}.
Definition setEditingPositionOriginal (v : option (Position num)) (s : State) : State :=
  {| positions := positions s; transform := transform s;
     selectedNode := selectedNode s;
     isDragging := isDragging s; dragStart := dragStart s;
     activeScenario := activeScenario s; animationStep := animationStep s;
     isAnimating := isAnimating s; toast := toast s;
     editingPositionNode := editingPositionNode s;
     editingPositionOriginal := v;
     nodeDragStart := nodeDragStart s |}.
Definition setNodeDragStart (v : option NodeDragStart) (s : State) : State :=
  {| positions := positions s; transform := transform s;
     selectedNode := selectedNode s;
     isDragging := isDragging s; dragStart := dragStart s;
     activeScenario := activeScenario s; animationStep := animationStep s;
     isAnimating := isAnimating s; toast := toast s;
     editingPositionNode := editingPositionNode s;
     editingPositionOriginal := editingPositionOriginal s;
     nodeDragStart := v |}.

(** *** Position editing *)

Definition startEditPosition (nodeId : string) (s : State) : State :=
  let s1 :=
    match obj_read (positions s) nodeId with
    | Some pos =>
        setEditingPositionOriginal
          (Some {| pos_x := pos_x pos; pos_y := pos_y pos |}) s
    | None => s
    end in
  setNodeDragStart None (setEditingPositionNode (Some nodeId) s1).

(** The three resets that end [cancelEditPosition] and
    [saveEditPosition]. *)
Definition endEditSession (s : State) : State :=
  setNodeDragStart None
    (setEditingPositionOriginal None (setEditingPositionNode None s)).

(** [setPositions(prev => ({ ...prev, [editingPositionNode]:
    { ...editingPositionOriginal } }))] *)
Definition revertPosition (nodeId : string) (orig : Position num) (s : State) : State :=
  setPositions
    (<[nodeId := {| pos_x := pos_x orig; pos_y := pos_y orig |}]> (positions s)) s.

Definition cancelEditPosition (s : State) : State :=
  let s1 :=
    match editingPositionNode s, editingPositionOriginal s with
    | Some nodeId, Some orig =>
        if truthy_string nodeId then revertPosition nodeId orig s else s
    | _, _ => s
    end in
  endEditSession s1.

Definition saveEditPosition (fetch : ApiResult) (s : State) : State :=
  match editingPositionNode s with
  | None => s
  | Some nodeId =>
      if negb (truthy_string nodeId) then s
      else
        match obj_read (positions s) nodeId with
        | None => s
        | Some pos =>
            let s1 :=
              match fetch with
              | ApiOk =>
                  setToast
                    (Some {| message :=
                               "Position for " +:+ dquote +:+ nodeId
                                 +:+ dquote +:+ " saved";
                             type := success |}) s
              | ApiError msg =>
                  let s' :=
                    setToast
                      (Some {| message := "Failed to save position: " +:+ msg;
                               type := error |}) s in
                  match editingPositionOriginal s with
                  | Some orig => revertPosition nodeId orig s'
                  | None => s'
                  end
              end in
            endEditSession s1
        end
  end.

(** [pos.x] on a missing position is a [TypeError]. *)
Definition handleNodeDragStart (e : MouseEvent num) (nodeId : string) (s : State)
  : option State :=
  if negb (bool_decide (editingPositionNode s = Some nodeId)) then Some s
  else
    pos ← obj_read (positions s) nodeId;
    Some (setNodeDragStart
            (Some {| mouseX := clientX e; mouseY := clientY e;
                     nodeX := pos_x pos; nodeY := pos_y pos |}) s).

Definition handleNodeDragMove (e : MouseEvent num) (s : State) : State :=
  match nodeDragStart s, editingPositionNode s with
  | Some ds, Some nodeId =>
      if negb (truthy_string nodeId) then s
      else
        let dx := (clientX e - mouseX ds) / scale (transform s) in
        let dy := (clientY e - mouseY ds) / scale (transform s) in
        setPositions
          (<[nodeId := {| pos_x := nodeX ds + dx; pos_y := nodeY ds + dy |}]>
             (positions s)) s
  | _, _ => s
  end.

Definition handleNodeDragEnd (s : State) : State := setNodeDragStart None s.

(** *** Mouse handlers of the canvas *)

Definition handleMouseDown (e : MouseEvent num) (s : State) : State :=
  match nodeDragStart s with
  | Some _ => s
  | None =>
      if onBackground e then
        setDragStart
          {| pos_x := clientX e - t_x (transform s);
             pos_y := clientY e - t_y (transform s) |}
          (setIsDragging true s)
      else s
  end.

Definition handleMouseMove (e : MouseEvent num) (s : State) : State :=
  if bool_decide (is_Some (nodeDragStart s)) && truthy_id (editingPositionNode s)
  then handleNodeDragMove e s
  else if isDragging s then
    setTransform
      {| t_x := clientX e - pos_x (dragStart s);
         t_y := clientY e - pos_y (dragStart s);
         scale := scale (transform s) |} s
  else s.

Definition handleMouseUp (s : State) : State :=
  match nodeDragStart s with
  | Some _ => handleNodeDragEnd s
  | None => setIsDragging false s
  end.

(** *** Zoom *)

Definition handleWheel (e : WheelEvent num) (s : State) : State :=
  let delta := if deltaY e >? lit 0 then lit 0.9 else lit 1.1 in
  let newScale :=
    Math_max (lit 0.15) (Math_min (lit 2) (scale (transform s) * delta)) in
  setTransform
    {| t_x := t_x (transform s); t_y := t_y (transform s); scale := newScale |} s.

(** [handleWheel] is memoised on [transform.scale]: the handler bound to
    the canvas is the one of the last render and multiplies the scale
    [rendered] then, while its updater writes over the transform of the
    moment.  [handleWheel e s] is the handler of a render of [s]. *)
Definition handleWheelFrom (rendered : Transform num) (e : WheelEvent num)
    (s : State) : State :=
  let delta := if deltaY e >? lit 0 then lit 0.9 else lit 1.1 in
  let newScale :=
    Math_max (lit 0.15) (Math_min (lit 2) (scale rendered * delta)) in
  setTransform
    {| t_x := t_x (transform s); t_y := t_y (transform s); scale := newScale |} s.

(** The three buttons under "Zoom controls". *)
Definition zoomInClick (s : State) : State :=
  let p := transform s in
  setTransform
    {| t_x := t_x p; t_y := t_y p;
       scale := Math_min (lit 2) (scale p * lit 1.2) |} s.

Definition zoomOutClick (s : State) : State :=
  let p := transform s in
  setTransform
    {| t_x := t_x p; t_y := t_y p;
       scale := Math_max (lit 0.15) (scale p / lit 1.2) |} s.

Definition zoomHomeClick (s : State) : State :=
  setTransform {| t_x := lit 50; t_y := lit 50; scale := lit 0.45 |} s.

(** *** Scenario animation *)

Definition startAnimation (scenario : Scenario) (s : State) : State :=
  let s1 :=
    setSelectedNode None
      (setIsAnimating true
         (setAnimationStep 0 (setActiveScenario (Some scenario) s))) in
  let firstNode := p ← sc_path scenario; array_get p 0 in
  match obj_read (positions s) (property_key firstNode) with
  | Some pos =>
      let prev := transform s in
      setTransform
        {| t_x := - pos_x pos * scale prev + lit 500;
           t_y := - pos_y pos * scale prev + lit 350;
           scale := scale prev |} s1
  | None => s1
  end.

Definition stopAnimation (s : State) : State :=
  setAnimationStep (-1) (setIsAnimating false s).

Definition resetView (s : State) : State :=
  setTransform {| t_x := lit 50; t_y := lit 50; scale := lit 0.45 |}
    (setIsAnimating false
       (setAnimationStep (-1) (setActiveScenario None s))).

(** [onClick] of a button of the scenario list. *)
Definition scenarioClick (scenario : Scenario) (s : State) : State :=
  setIsAnimating false
    (setAnimationStep (-1) (setActiveScenario (Some scenario) s)).

(** [onClick] of the "Reset" button. *)
Definition resetClick (s : State) : State := setAnimationStep (-1) s.

(** The callback given to [setInterval]: the updater of [animationStep]
    with the [setIsAnimating] and [setTransform] calls it makes.
    [activeScenario.path[prev + 1]] throws when [path] is undefined. *)
Definition intervalCallback (scenario : Scenario) (s : State) : option State :=
  let prev := animationStep s in
  if path_length scenario - 1 <=? prev then Some (setIsAnimating false s)
  else
    path ← sc_path scenario;
    let nextNode := array_get path (prev + 1) in
    let s1 :=
      match obj_read (positions s) (property_key nextNode) with
      | Some pos =>
          let t := transform s in
          setTransform
            {| t_x := - pos_x pos * scale t + lit 500;
               t_y := - pos_y pos * scale t + lit 350;
               scale := scale t |} s
      | None => s
      end in
    Some (setAnimationStep (prev + 1) s1).

(** One period of 1500 ms.  The effect installs the interval only while
    [isAnimating && activeScenario]; otherwise no callback runs. *)
Definition tick (s : State) : option State :=
  match isAnimating s, activeScenario s with
  | true, Some scenario => intervalCallback scenario s
  | _, _ => Some s
  end.

Fixpoint ticks (n : nat) (s : State) : option State :=
  match n with
  | O => Some s
  | S n' => s' ← tick s; ticks n' s'
  end.

(** *** Derived queries *)

Definition isNodeInPath (nodeId : string) (s : State) : bool :=
  match activeScenario s with
  | Some sc =>
      match sc_path sc with
      | Some p => array_includes p nodeId
      | None => false
      end
  | None => false
  end.

Definition isNodeCurrent (nodeId : string) (s : State) : bool :=
  match activeScenario s with
  | Some sc =>
      (0 <=? animationStep s)
      && opt_strict_eq (p ← sc_path sc; array_get p (animationStep s)) nodeId
  | None => false
  end.

Definition isNodeVisited (nodeId : string) (s : State) : bool :=
  match activeScenario s with
  | Some sc =>
      if animationStep s <? 0 then false
      else
        let idx := match sc_path sc with
                   | Some p => indexOf p nodeId
                   | None => -1
                   end in
        (0 <=? idx) && (idx <? animationStep s)
  | None => false
  end.

Definition isEdgeInPath (from to : string) (s : State) : bool :=
  match activeScenario s with
  | Some sc =>
      match sc_path sc with
      | Some p => consecutive_pair p from to
      | None => false
      end
  | None => false
  end.

(** Past the guard [path] has at least two elements and both indices
    are in range. *)
Definition isEdgeActive (from to : string) (s : State) : bool :=
  match activeScenario s with
  | Some sc =>
      if (animationStep s <? 0) || (path_length sc - 1 <=? animationStep s)
      then false
      else
        let current := p ← sc_path sc; array_get p (animationStep s) in
        let next := p ← sc_path sc; array_get p (animationStep s + 1) in
        (bool_decide (Some from = current) && bool_decide (Some to = next))
        || (bool_decide (Some to = current) && bool_decide (Some from = next))
  | None => false
  end.
(** *** The other writers of the cells

    What the remaining handlers do to the cells of [State], once their
    awaited request has settled ([fetch]); a rejected request throws before
    any cell is written. *)

Definition handleDeleteJourney (fetch : ApiResult) (journeyKey : string) (s : State)
  : State :=
  match fetch with
  | ApiOk =>
      setToast
        (Some {| message := "Journey " +:+ dquote +:+ journeyKey +:+ dquote
                              +:+ " deleted";
                 type := success |})
        (setActiveScenario None s)
  | ApiError _ => s
  end.

Definition handleDeleteNode (fetch : ApiResult) (nodeId : string) (s : State) : State :=
  match fetch with
  | ApiOk =>
      setToast
        (Some {| message := "Node " +:+ dquote +:+ nodeId +:+ dquote +:+ " deleted";
                 type := success |})
        (setSelectedNode None s)
  | ApiError _ => s
  end.

(** [loadData]: of the cells of [State] it writes [positions], with
    [posRes || {}]; when a request fails it writes none. *)
Definition loadData (posRes : option (option (gmap string (Position num)))) (s : State)
  : State :=
  match posRes with
  | Some res => setPositions (default ∅ res) s
  | None => s
  end.

(** [onClick] of a node and of the canvas. *)
Definition nodeClick (nodeId : string) (s : State) : State :=
  if bool_decide (editingPositionNode s = Some nodeId) then s
  else setSelectedNode (Some nodeId) s.

Definition svgClick (s : State) : State := setSelectedNode None s.

(** The step annotation shown under the progress bar. *)
Definition currentDataFlow (s : State) : option DataFlow :=
  match activeScenario s with
  | Some sc =>
      if animationStep s <? 0 then None
      else List.find (λ df, df_step df =? animationStep s + 1) (sc_dataFlow sc)
  | None => None
  end.
End Component.

Arguments State : clear implicits.
Arguments State num : assert.
Arguments NodeDragStart : clear implicits.

(** *** Filters *)

Definition filteredNodes (nodes : NodesObject) (selectedModule searchTerm : string)
  : list Node :=
  List.filter
    (λ node,
       let matchesModule :=
         String.eqb selectedModule "all"
         || opt_strict_eq (node_module node) selectedModule in
       let matchesSearch :=
         String.eqb searchTerm ""
         || includes (toLowerCase (node_id node)) (toLowerCase searchTerm)
         || match node_definition node with
            | Some d => truthy_string d
                        && includes (toLowerCase d) (toLowerCase searchTerm)
            | None => false
            end in
       matchesModule && matchesSearch)
    (Object_values nodes).

Definition filteredRelationships (showRelationships : bool)
    (filteredNodes : list Node) (relationships : list Relationship)
  : list Relationship :=
  if negb showRelationships then []
  else
    let nodeIds : gset string := list_to_set (node_id <$> filteredNodes) in
    List.filter
      (λ rel, bool_decide (rel_from rel ∈ nodeIds)
              && bool_decide (rel_to rel ∈ nodeIds))
      relationships.

(** *** Rendering of the graph layer (binary64)

    Of each SVG element the record keeps the coordinates and the emphasis
    attributes; colours and marker names are left out. *)

(** [v || d] for a number [v]: [0], [-0] and NaN are falsy. *)
Definition number_or (v d : float) : float :=
  if PrimFloat.is_zero v || PrimFloat.is_nan v then d else v.

(** The offset chosen by [nodes[k]?.nodeType], [n] being the own property
    [k] of [nodes]: a value inherited from [Object.prototype] has no
    [nodeType], like a missing one. *)
Definition anchorOffset (n : option Node) : float :=
  let nodeType := n ≫= node_nodeType in
  if opt_strict_eq nodeType "decision" then 38%float
  else if opt_strict_eq nodeType "kpi" then 30%float
  else 35%float.

Record EdgeElement := {
  dirX : float; dirY : float;          (* dx / len, dy / len *)
  x1 : float; y1 : float;              (* startX, startY *)
  x2 : float; y2 : float;              (* endX, endY *)
  text_x : float; text_y : float;
  strokeWidth : float;
  opacity : float;
  pulse : bool;                        (* className 'animate-pulse' *)
  label : string
}.

Definition renderEdge (nodes : NodesObject) (s : State float) (rel : Relationship)
  : option EdgeElement :=
  fromPos ← obj_read (positions s) (rel_from rel);
  toPos ← obj_read (positions s) (rel_to rel);
  let dx := (pos_x toPos - pos_x fromPos)%float in
  let dy := (pos_y toPos - pos_y fromPos)%float in
  let len := number_or (PrimFloat.sqrt (dx * dx + dy * dy)) 1 in
  let fromOffset := anchorOffset (obj_get nodes (rel_from rel)) in
  let toOffset := anchorOffset (obj_get nodes (rel_to rel)) in
  let startX := (pos_x fromPos + (dx / len) * fromOffset)%float in
  let startY := (pos_y fromPos + (dy / len) * fromOffset)%float in
  let endX := (pos_x toPos - (dx / len) * toOffset)%float in
  let endY := (pos_y toPos - (dy / len) * toOffset)%float in
  let inPath := isEdgeInPath (rel_from rel) (rel_to rel) s in
  let isActive := isEdgeActive (rel_from rel) (rel_to rel) s in
  let isHighlighted :=
    bool_decide (selectedNode s = Some (rel_from rel))
    || bool_decide (selectedNode s = Some (rel_to rel)) in
  let '(width, opac) :=
    match activeScenario s with
    | Some _ =>
        if isActive then (5%float, 1%float)
        else if inPath then (3%float, lit 0.7)
        else (1.5%float, lit 0.15)
    | None =>
        if isHighlighted then (3%float, 1%float)
        else if truthy_id (selectedNode s) then (1.5%float, lit 0.2)
        else (1.5%float, 0.5%float)
    end in
  Some {| dirX := (dx / len)%float; dirY := (dy / len)%float;
          x1 := startX; y1 := startY; x2 := endX; y2 := endY;
          text_x := ((startX + endX) / 2)%float;
          text_y := ((startY + endY) / 2 - 8)%float;
          strokeWidth := width; opacity := opac; pulse := isActive;
          label := rel_label rel |}.

Record NodeElement := {
  translate_x : float; translate_y : float;   (* pos.x, pos.y; NaN: undefined *)
  isSelected : bool; isHovered : bool; isConnected : bool;
  inPath : bool; isCurrent : bool; isEditingPos : bool
}.

Definition renderNode (relationships : list Relationship)
    (hoveredNode : option string) (s : State float) (node : Node)
  : option NodeElement :=
  pos ← obj_read (positions s) (node_id node);
  let sel := selectedNode s in
  Some {| translate_x := pos_x pos; translate_y := pos_y pos;
          isSelected := bool_decide (sel = Some (node_id node));
          isHovered := bool_decide (hoveredNode = Some (node_id node));
          isConnected :=
            truthy_id sel
            && existsb
                 (λ r, (bool_decide (Some (rel_from r) = sel)
                         && String.eqb (rel_to r) (node_id node))
                       || (bool_decide (Some (rel_to r) = sel)
                           && String.eqb (rel_from r) (node_id node)))
                 relationships;
          inPath := isNodeInPath (node_id node) s;
          isCurrent := isNodeCurrent (node_id node) s;
          isEditingPos := bool_decide (editingPositionNode s = Some (node_id node)) |}.

(** The children of the [<g>] layer: [null] for a skipped element. *)
Definition renderEdges (nodes : NodesObject) (relationships : list Relationship)
    (selectedModule searchTerm : string) (showRelationships : bool)
    (s : State float) : list (option EdgeElement) :=
  renderEdge nodes s
    <$> filteredRelationships showRelationships
          (filteredNodes nodes selectedModule searchTerm) relationships.

Definition renderNodes (nodes : NodesObject) (relationships : list Relationship)
    (selectedModule searchTerm : string) (hoveredNode : option string)
    (s : State float) : list (option NodeElement) :=
  renderNode relationships hoveredNode s
    <$> filteredNodes nodes selectedModule searchTerm.

(** *** Node style (binary64)

    The first part of [renderNodeShape]: the attributes shared by the three
    shapes. *)
Record NodeStyle := {
  ns_opacity : float;
  ns_strokeWidth : float;
  ns_fillColor : string;
  ns_strokeColor : string;
  ns_glowEffect : bool
}.

Definition nodeStyle (s : State float) (node : Node)
    (isSelected isHovered isConnected : bool) : NodeStyle :=
  let inPath := isNodeInPath (node_id node) s in
  let isCurrent := isNodeCurrent (node_id node) s in
  let isVisited := isNodeVisited (node_id node) s in
  match activeScenario s with
  | Some sc =>
      if isCurrent then
        {| ns_opacity := 1; ns_strokeWidth := 5; ns_fillColor := sc_color sc;
           ns_strokeColor := sc_color sc; ns_glowEffect := true |}
      else if isVisited then
        {| ns_opacity := 1; ns_strokeWidth := 3;
           ns_fillColor := sc_color sc +:+ "40";
           ns_strokeColor := sc_color sc; ns_glowEffect := false |}
      else if inPath then
        {| ns_opacity := lit 0.8; ns_strokeWidth := 3; ns_fillColor := "#ffffff";
           ns_strokeColor := sc_color sc; ns_glowEffect := false |}
      else
        {| ns_opacity := lit 0.2; ns_strokeWidth := 2; ns_fillColor := "#ffffff";
           ns_strokeColor := node_color node; ns_glowEffect := false |}
  | None =>
      {| ns_opacity :=
           if truthy_id (selectedNode s) && negb isSelected && negb isConnected
           then 0.25%float else 1%float;
         ns_strokeWidth := if isSelected || isHovered then 4%float else 2%float;
         ns_fillColor := node_color node;
         ns_strokeColor := node_color node;
         ns_glowEffect := false |}
  end.

(** *** Loading the nodes

    [nodesList.forEach(n => { if (n?.id) nodesMap[n.id] = n; })]; an element
    of the list that is [null] or has no [id] is [None]. *)

(** The value of a decimal digit. *)
Definition digit (c : ascii) : option N :=
  let n := N_of_ascii c in
  if ((48 <=? n) && (n <=? 57))%N then Some (n - 48)%N else None.

Fixpoint digits_value (s : string) (acc : N) : option N :=
  match s with
  | EmptyString => Some acc
  | String c s' => d ← digit c; digits_value s' (10 * acc + d)%N
  end.

(** An array index: the canonical numeral of an integer from 0 to
    [2^32 - 2].  The own keys of an object are enumerated with the array
    indices first, in ascending order, then the other keys in the order of
    their creation. *)
Definition array_index (k : string) : option N :=
  match k with
  | EmptyString => None
  | String "0"%char EmptyString => Some 0%N
  | String "0"%char _ => None
  | _ => v ← digits_value k 0; if (v <? 4294967295)%N then Some v else None
  end.

(** The new key [k] is enumerated before the existing key [k']. *)
Definition enumerated_before (k k' : string) : bool :=
  match array_index k, array_index k' with
  | Some i, Some j => (i <? j)%N
  | Some _, None => true
  | None, _ => false
  end.

(** The value of an existing own property is replaced where it is. *)
Fixpoint obj_replace (o : NodesObject) (k : string) (n : Node) : NodesObject :=
  match o with
  | [] => []
  | (k', n') :: o' =>
      if String.eqb k' k then (k, n) :: o' else (k', n') :: obj_replace o' k n
  end.

(** A new own property takes its place in the enumeration. *)
Fixpoint obj_add (o : NodesObject) (k : string) (n : Node) : NodesObject :=
  match o with
  | [] => [(k, n)]
  | (k', n') :: o' =>
      if enumerated_before k k' then (k, n) :: o
      else (k', n') :: obj_add o' k n
  end.

(** The definition of the own property [k], as [{ ...o, [k]: n }] and
    [Object.fromEntries] make it. *)
Definition obj_set (o : NodesObject) (k : string) (n : Node) : NodesObject :=
  match obj_get o k with
  | Some _ => obj_replace o k n
  | None => obj_add o k n
  end.

(** The callback of [forEach], [nodesMap[n.id] = n].  The assignment
    defines the own property [n.id], except for the id [__proto__]: there
    it sets the prototype of [nodesMap] to the node and creates no own
    property.  (The members of the node, which [nodesMap] then inherits,
    are strings: like the values inherited from [Object.prototype] they
    have no [nodeType].) *)
Definition loadStep (nodesMap : NodesObject) (n : option Node) : NodesObject :=
  match n with
  | Some n =>
      if truthy_string (node_id n) then
        if String.eqb (node_id n) "__proto__" then nodesMap
        else obj_set nodesMap (node_id n) n
      else nodesMap
  | None => nodesMap
  end.

Definition loadNodes (nodesList : list (option Node)) : NodesObject :=
  foldl loadStep [] nodesList.

(** *** The journey form *)

Record JourneyForm := {
  form_journey_key : string;
  form_name : string;
  form_color : string;
  form_path : string;                 (* the comma-separated text field *)
  form_dataFlow : list DataFlow
}.

(** The initial form: of an existing journey, or empty. *)
Definition journeyForm (journey : option (Scenario * string)) (journeyKey : string)
  : JourneyForm :=
  match journey with
  | Some (j, name) =>
      {| form_journey_key := journeyKey;
         form_name := name;
         form_color := sc_color j;
         form_path := match sc_path j with
                      | Some p => joinCommaSpace p
                      | None => ""
                      end;
         form_dataFlow := sc_dataFlow j |}
  | None =>
      {| form_journey_key := ""; form_name := ""; form_color := "#10b981";
         form_path := ""; form_dataFlow := [] |}
  end.

(** The loop of [handleSave] that builds [dataFlow] from the path; [i] is
    the index of the head of [pathArr]. *)
Fixpoint buildDataFlow (i : Z) (pathArr : list string) : list DataFlow :=
  match pathArr with
  | a :: (b :: _) as rest =>
      {| df_step := i + 1; df_from := a; df_to := b;
         df_action := "Flow from " +:+ underscoresToSpaces a
                        +:+ " to " +:+ underscoresToSpaces b |}
      :: buildDataFlow (i + 1) rest
  | _ => []
  end.

Record JourneyPayload := {
  payload_name : string;
  payload_color : string;
  payload_path : list string;
  payload_dataFlow : list DataFlow
}.

(** [handleSave] up to the call of [onSave(key, payload, mode)]: the error
    message, or the key and the payload. *)
Definition journeyHandleSave (form : JourneyForm) : string + (string * JourneyPayload) :=
  if negb (truthy_string (trim (form_journey_key form)))
     || negb (truthy_string (trim (form_name form)))
  then inl "Journey key and name are required"%string
  else
    let pathArr := parseCommaList (form_path form) in
    let dataFlow := buildDataFlow 0 pathArr in
    inr (form_journey_key form,
         {| payload_name := form_name form;
            payload_color := form_color form;
            payload_path := pathArr;
            payload_dataFlow :=
              match form_dataFlow form with
              | _ :: _ => form_dataFlow form
              | [] => dataFlow
              end |}).

End Main.

(** ** kg_frontend_template.jsx *)
Module Template.

Definition DEFAULT_CENTER {num} `{!JSNum num} : Position num :=
  {| pos_x := lit 800; pos_y := lit 500 |}.

(** [svgRef.current.getBoundingClientRect()] *)
Record DOMRect {num : Type} := { left : num; top : num }.
Arguments DOMRect : clear implicits.

Section Viewport.
Context {num : Type} `{!JSNum num}.
Local Open Scope js_scope.

Definition initialTransform : Transform num :=
  {| t_x := lit 0; t_y := lit 0; scale := lit 0.7 |}.

(** The handlers below read and write the [transform] cell only. *)
Definition handleWheel (rect : DOMRect num) (e : WheelEvent num)
    (transform : Transform num) : Transform num :=
  if ctrlKey e || metaKey e then
    let delta := if deltaY e >? lit 0 then lit 0.9 else lit 1.1 in
    let newScale :=
      Math_max (lit 0.2) (Math_min (lit 2) (scale transform * delta)) in
    let mouseX := wheel_clientX e - left rect in
    let mouseY := wheel_clientY e - top rect in
    let ratio := newScale / scale transform in
    {| t_x := mouseX - (mouseX - t_x transform) * ratio;
       t_y := mouseY - (mouseY - t_y transform) * ratio;
       scale := newScale |}
  else
    {| t_x := t_x transform - deltaX e;
       t_y := t_y transform - deltaY e;
       scale := scale transform |}.

Definition zoomInClick (prev : Transform num) : Transform num :=
  {| t_x := t_x prev; t_y := t_y prev;
     scale := Math_min (lit 2) (scale prev * lit 1.2) |}.

Definition zoomOutClick (prev : Transform num) : Transform num :=
  {| t_x := t_x prev; t_y := t_y prev;
     scale := Math_max (lit 0.2) (scale prev / lit 1.2) |}.

Definition resetClick (_ : Transform num) : Transform num := initialTransform.
End Viewport.

(** *** Filters *)

Definition filteredNodes (nodes : NodesObject) (selectedModule searchTerm : string)
  : list Node :=
  List.filter
    (λ node,
       let matchesModule :=
         String.eqb selectedModule "all"
         || opt_strict_eq (node_module node) selectedModule in
       let matchesSearch :=
         String.eqb searchTerm ""
         || (truthy_string (node_id node)
             && includes (toLowerCase (node_id node)) (toLowerCase searchTerm))
         || match node_definition node with
            | Some d => truthy_string d
                        && includes (toLowerCase d) (toLowerCase searchTerm)
            | None => false
            end in
       matchesModule && matchesSearch)
    (Object_values nodes).

Definition filteredRelationships (showRelationships : bool)
    (filteredNodes : list Node) (relationships : list Relationship)
  : list Relationship :=
  if negb showRelationships then []
  else
    let nodeIds : gset string := list_to_set (node_id <$> filteredNodes) in
    List.filter
      (λ rel, bool_decide (rel_from rel ∈ nodeIds)
              && bool_decide (rel_to rel ∈ nodeIds))
      relationships.

(** *** Positions with fallback (binary64) *)

(** One step of the [forEach] of [nodePositions]; the accumulator is
    [(computed, nextX, nextY)]. *)
Definition placeNode (acc : gmap string (Position float) * float * float)
    (nodeId : string) : gmap string (Position float) * float * float :=
  let '(computed, nextX, nextY) := acc in
  match obj_read computed nodeId with
  | Some _ => acc
  | None =>
      let computed' := <[nodeId := {| pos_x := nextX; pos_y := nextY |}]> computed in
      let nextX' := (nextX + 150)%float in
      if (1800 <? nextX')%float
      then (computed', pos_x (DEFAULT_CENTER (num:=float)), (nextY + 120)%float)
      else (computed', nextX', nextY)
  end.

Definition nodePositions (nodes : NodesObject) (positions : gmap string (Position float))
  : gmap string (Position float) :=
  (foldl placeNode
     (positions, pos_x (DEFAULT_CENTER (num:=float)), pos_y (DEFAULT_CENTER (num:=float)))
     (Object_keys nodes)).1.1.

(** *** Edge geometry (binary64) *)

Record EdgeElement := {
  nx : float; ny : float;                      (* unit normal *)
  ctrlX : float; ctrlY : float;                (* control point *)
  fromNx : float; fromNy : float;              (* unit direction *)
  startPoint : Position float;
  toNx : float; toNy : float;
  endPoint : Position float;
  isHighlighted : bool;
  label : string
}.

(** The predicate of [parallelEdges]. *)
Definition parallelTo (rel r : Relationship) : bool :=
  (String.eqb (rel_from r) (rel_from rel) && String.eqb (rel_to r) (rel_to rel))
  || (String.eqb (rel_from r) (rel_to rel) && String.eqb (rel_to r) (rel_from rel)).

(** The callback of [filteredRelationships.map((rel, index) => ...)].
    [visible] is [filteredRelationships]; [parallelEdges.indexOf(rel)]
    compares object identities, so it is the number of parallel edges
    that precede position [index]. *)
Definition renderEdge (nodes : NodesObject) (nodePositions : gmap string (Position float))
    (selectedNode : option string) (visible : list Relationship)
    (rel : Relationship) (index : nat) : option EdgeElement :=
  fromPos ← obj_read nodePositions (rel_from rel);
  toPos ← obj_read nodePositions (rel_to rel);
  let parallelEdges := List.filter (parallelTo rel) visible in
  let edgeIndex := length (List.filter (parallelTo rel) (take index visible)) in
  let offset :=
    ((float_of_Z (Z.of_nat edgeIndex)
      - (float_of_Z (Z.of_nat (length parallelEdges)) - 1) / 2) * 20)%float in
  let dx := (pos_x toPos - pos_x fromPos)%float in
  let dy := (pos_y toPos - pos_y fromPos)%float in
  let len := PrimFloat.sqrt (dx * dx + dy * dy) in
  let nx := (- dy / len)%float in
  let ny := (dx / len)%float in
  let ctrlX := ((pos_x fromPos + pos_x toPos) / 2 + nx * offset)%float in
  let ctrlY := ((pos_y fromPos + pos_y toPos) / 2 + ny * offset)%float in
  let fromDist := PrimFloat.sqrt (dx * dx + dy * dy) in
  let fromNx := (dx / fromDist)%float in
  let fromNy := (dy / fromDist)%float in
  let fromNode := obj_get nodes (rel_from rel) in
  let fromOffset :=
    if opt_strict_eq (fromNode ≫= node_nodeType) "kpi"
    then (24 / (PrimFloat.abs fromNx + PrimFloat.abs fromNy))%float
    else 28%float in
  let startPoint :=
    {| pos_x := (pos_x fromPos + fromNx * fromOffset)%float;
       pos_y := (pos_y fromPos + fromNy * fromOffset)%float |} in
  let toDx := (pos_x fromPos - pos_x toPos)%float in
  let toDy := (pos_y fromPos - pos_y toPos)%float in
  let toDist := PrimFloat.sqrt (toDx * toDx + toDy * toDy) in
  let toNx := (toDx / toDist)%float in
  let toNy := (toDy / toDist)%float in
  let toNode := obj_get nodes (rel_to rel) in
  let toOffset :=
    if opt_strict_eq (toNode ≫= node_nodeType) "kpi"
    then (24 / (PrimFloat.abs toNx + PrimFloat.abs toNy))%float
    else 28%float in
  let endPoint :=
    {| pos_x := (pos_x toPos + toNx * toOffset)%float;
       pos_y := (pos_y toPos + toNy * toOffset)%float |} in
  Some {| nx := nx; ny := ny; ctrlX := ctrlX; ctrlY := ctrlY;
          fromNx := fromNx; fromNy := fromNy; startPoint := startPoint;
          toNx := toNx; toNy := toNy; endPoint := endPoint;
          isHighlighted :=
            bool_decide (selectedNode = Some (rel_from rel))
            || bool_decide (selectedNode = Some (rel_to rel));
          label := rel_label rel |}.

Definition renderEdges (nodes : NodesObject) (relationships : list Relationship)
    (positions : gmap string (Position float))
    (selectedModule searchTerm : string) (showRelationships : bool)
    (selectedNode : option string) : list (option EdgeElement) :=
  let visible :=
    filteredRelationships showRelationships
      (filteredNodes nodes selectedModule searchTerm) relationships in
  imap (λ index rel,
          renderEdge nodes (nodePositions nodes positions) selectedNode
            visible rel index)
       visible.

(** *** Editing the graph

    The template keeps the graph in local state.  Of a stored relationship
    the model keeps the members the relationship form reads or writes:
    [id], [from], [to], [label], [type], [description], [businessMeaning],
    [joinCondition] and [dataLineage].  Its other members are copied by
    every handler ([{ ...r, ... }]) and are left out.  A member that is
    absent or [undefined] is [None]; one that is [null] behaves in these
    handlers as the empty string and is kept as [Some ""]. *)

(** [joinCondition.tables]: a text or an array of strings. *)
Inductive Tables := TablesText (s : string) | TablesList (l : list string).

(** [jc_others]: the object has members besides [source], [logic] and
    [tables]; a handler copies the whole object or builds one without
    them. *)
Record JoinCondition := {
  jc_source : option string;
  jc_logic : option string;
  jc_tables : option Tables;
  jc_others : bool
}.

Record DataLineage := {
  dl_fromKey : option string;
  dl_toKey : option string;
  dl_others : bool
}.

Record StoredRelationship := {
  rel_id : option Z;                  (* undefined when the data has none *)
  rel_data : Relationship;
  rel_description : option string;
  rel_businessMeaning : option string;
  rel_joinCondition : option JoinCondition;
  rel_dataLineage : option DataLineage
}.

(** The state of the relationship form: every field is a string. *)
Record RelationshipForm := {
  form_from : string; form_to : string; form_label : string; form_type : string;
  form_description : string; form_businessMeaning : string;
  form_source : string; form_logic : string; form_tables : string;
  form_fromKey : string; form_toKey : string
}.

(** The payload [buildPayload] makes of the form: a member other than
    [from], [to] and [label] is present only when its field is not
    empty. *)
Record RelationshipPayload := {
  payload_from : string; payload_to : string; payload_label : string;
  payload_type : option string;
  payload_description : option string;
  payload_businessMeaning : option string;
  payload_joinCondition : option JoinCondition;
  payload_dataLineage : option DataLineage
}.

(** [v ?? ''] and [v || ''] for a string member. *)
Definition or_empty (v : option string) : string :=
  match v with Some t => t | None => "" end.

(** The form the effect of [RelationshipModal] sets: of the relationship
    being edited, or empty. *)
Definition relationshipForm (initialRel : option StoredRelationship) : RelationshipForm :=
  match initialRel with
  | Some r =>
      let jc := rel_joinCondition r in
      let dl := rel_dataLineage r in
      {| form_from := rel_from (rel_data r); form_to := rel_to (rel_data r);
         form_label := rel_label (rel_data r);
         form_type := or_empty (rel_type (rel_data r));
         form_description := or_empty (rel_description r);
         form_businessMeaning := or_empty (rel_businessMeaning r);
         form_source := or_empty (jc ≫= jc_source);
         form_logic := or_empty (jc ≫= jc_logic);
         form_tables := match jc ≫= jc_tables with
                        | Some (TablesList l) => joinCommaSpace l
                        | Some (TablesText t) => t
                        | None => ""
                        end;
         form_fromKey := or_empty (dl ≫= dl_fromKey);
         form_toKey := or_empty (dl ≫= dl_toKey) |}
  | None =>
      {| form_from := ""; form_to := ""; form_label := ""; form_type := "";
         form_description := ""; form_businessMeaning := "";
         form_source := ""; form_logic := ""; form_tables := "";
         form_fromKey := ""; form_toKey := "" |}
  end.

(** [...(v && { member: v })] *)
Definition when_truthy (v : string) : option string :=
  if truthy_string v then Some v else None.

Definition buildPayload (form : RelationshipForm) : RelationshipPayload :=
  {| payload_from := form_from form; payload_to := form_to form;
     payload_label := form_label form;
     payload_type := when_truthy (form_type form);
     payload_description := when_truthy (form_description form);
     payload_businessMeaning := when_truthy (form_businessMeaning form);
     payload_joinCondition :=
       if truthy_string (form_source form) || truthy_string (form_logic form)
          || truthy_string (form_tables form)
       then Some {| jc_source := when_truthy (form_source form);
                    jc_logic := when_truthy (form_logic form);
                    jc_tables :=
                      if truthy_string (form_tables form)
                      then Some (TablesList
                                   (List.filter truthy_string
                                      (map trim (split_comma (form_tables form)))))
                      else None;
                    jc_others := false |}
       else None;
     payload_dataLineage :=
       if truthy_string (form_fromKey form) || truthy_string (form_toKey form)
       then Some {| dl_fromKey := when_truthy (form_fromKey form);
                    dl_toKey := when_truthy (form_toKey form);
                    dl_others := false |}
       else None |}.

(** [onSave(buildPayload(), initialRel?.id)] is behind a button that is
    disabled while [from], [to] or [label] is empty. *)
Definition saveEnabled (form : RelationshipForm) : bool :=
  truthy_string (form_from form) && truthy_string (form_to form)
  && truthy_string (form_label form).

(** A member of the payload replaces the stored one; a member the payload
    lacks stays. *)
Definition or_stored {A} (given stored : option A) : option A :=
  match given with Some v => Some v | None => stored end.

(** [{ ...r, ...data }] *)
Definition mergePayload (r : StoredRelationship) (data : RelationshipPayload)
  : StoredRelationship :=
  {| rel_id := rel_id r;
     rel_data :=
       {| rel_from := payload_from data; rel_to := payload_to data;
          rel_label := payload_label data;
          rel_type := or_stored (payload_type data) (rel_type (rel_data r)) |};
     rel_description := or_stored (payload_description data) (rel_description r);
     rel_businessMeaning :=
       or_stored (payload_businessMeaning data) (rel_businessMeaning r);
     rel_joinCondition := or_stored (payload_joinCondition data) (rel_joinCondition r);
     rel_dataLineage := or_stored (payload_dataLineage data) (rel_dataLineage r) |}.

(** [{ ...data, id }] *)
Definition newRelationship (data : RelationshipPayload) (id : Z) : StoredRelationship :=
  {| rel_id := Some id;
     rel_data :=
       {| rel_from := payload_from data; rel_to := payload_to data;
          rel_label := payload_label data; rel_type := payload_type data |};
     rel_description := payload_description data;
     rel_businessMeaning := payload_businessMeaning data;
     rel_joinCondition := payload_joinCondition data;
     rel_dataLineage := payload_dataLineage data |}.

(** [{ ...r, id }] *)
Definition withId (r : StoredRelationship) (id : Z) : StoredRelationship :=
  {| rel_id := Some id; rel_data := rel_data r;
     rel_description := rel_description r;
     rel_businessMeaning := rel_businessMeaning r;
     rel_joinCondition := rel_joinCondition r;
     rel_dataLineage := rel_dataLineage r |}.

(** [const { [k]: _, ...rest } = o] *)
Fixpoint obj_delete (o : NodesObject) (k : string) : NodesObject :=
  match o with
  | [] => []
  | (k', n) :: o' =>
      if String.eqb k' k then obj_delete o' k else (k', n) :: obj_delete o' k
  end.

Section Editing.
Context {num : Type} `{!JSNum num}.

Record Graph := {
  nodes : NodesObject;
  relationships : list StoredRelationship;
  positions : gmap string (Position num);
  selectedNode : option string
}.

(** [getSelectedPosition] of the node form. *)
Definition getSelectedPosition (positionMode copyFromNode : string)
    (customPos : Position num) (positions : gmap string (Position num))
  : Position num :=
  match (if String.eqb positionMode "copy" && truthy_string copyFromNode
         then obj_read positions copyFromNode else None) with
  | Some pos => pos
  | None =>
      if String.eqb positionMode "custom" then customPos else DEFAULT_CENTER
  end.

(** [handleSaveNode(data, position)]; [create] is
    [nodeModal.mode === 'create']. *)
Definition handleSaveNode (create : bool) (data : Node)
    (position : option (Position num)) (g : Graph) : Graph :=
  let nodes' := Main.obj_set (nodes g) (node_id data) data in
  {| nodes := nodes';
     relationships := relationships g;
     positions :=
       match position with
       | Some pos => if create then <[node_id data := pos]> (positions g)
                     else positions g
       | None => positions g
       end;
     selectedNode := selectedNode g |}.

(** [handleDeleteNode]; [nodeId] is [deleteModal.nodeId]. *)
Definition handleDeleteNode (nodeId : option string) (g : Graph) : Graph :=
  match nodeId with
  | Some id =>
      if truthy_string id then
        {| nodes := obj_delete (nodes g) id;
           relationships :=
             List.filter
               (λ r, negb (String.eqb (rel_from (rel_data r)) id)
                     && negb (String.eqb (rel_to (rel_data r)) id))
               (relationships g);
           positions := delete id (positions g);
           selectedNode := None |}
      else g
  | None => g
  end.

(** [handleSaveRelationship(data, relId)]; [now] is [Date.now()]. *)
Definition handleSaveRelationship (now : Z) (data : RelationshipPayload)
    (relId : option Z) (g : Graph) : Graph :=
  {| nodes := nodes g;
     relationships :=
       match relId with
       | Some id =>
           map (λ r, if bool_decide (rel_id r = Some id) then mergePayload r data
                     else r)
             (relationships g)
       | None => relationships g ++ [newRelationship data now]
       end;
     positions := positions g;
     selectedNode := selectedNode g |}.

(** [handleDeleteRelationship(relId)]; [confirmed] is the answer to
    [window.confirm]. *)
Definition handleDeleteRelationship (confirmed : bool) (relId : option Z)
    (g : Graph) : Graph :=
  if confirmed then
    {| nodes := nodes g;
       relationships :=
         List.filter (λ r, negb (bool_decide (rel_id r = relId))) (relationships g);
       positions := positions g;
       selectedNode := selectedNode g |}
  else g.

(** The parsed JSON given to [handleImport]. *)
Record ImportData := {
  import_nodes : option NodesObject;
  import_relationships : option (list StoredRelationship);
  import_positions : option (gmap string (Position num))
}.

Definition handleImport (data : ImportData) (g : Graph) : Graph :=
  {| nodes := default (nodes g) (import_nodes data);
     relationships :=
       match import_relationships data with
       | Some rels =>
           imap (λ i r, withId r (default (Z.of_nat i) (rel_id r))) rels
       | None => relationships g
       end;
     positions := default (positions g) (import_positions data);
     selectedNode := selectedNode g |}.
End Editing.

Arguments Graph : clear implicits.
Arguments ImportData : clear implicits.

End Template.

(** ** api.ts *)
Module Api.

(** [Object.fromEntries(entries)]: later entries win. *)
Definition Object_fromEntries (entries : list (string * Node)) : NodesObject :=
  foldl (λ o e, Main.obj_set o e.1 e.2) [] entries.

(** The map [fetchNodes] returns for the list [data?.nodes ?? []]:
    [Object.fromEntries(list.filter(n => n?.id).map(n => [n.id, n]))].
    After the filter no element is [null]. *)
Definition fetchNodesMap (list : list (option Node)) : NodesObject :=
  Object_fromEntries
    (omap (λ n, (λ n', (node_id n', n')) <$> n)
       (List.filter (λ n, truthy_id (node_id <$> n)) list)).

End Api.

(** * Vocabulary of the statements *)

(** ** Player states

    The specification names the states of the scenario player; in the
    component they are read off three cells.  [Finished]: a scenario is
    active, the ticker is off and the step is the last index of the path. *)
Definition isFinished {num} (s : Main.State num) : bool :=
  match Main.activeScenario s with
  | Some sc =>
      negb (Main.isAnimating s) && (Main.animationStep s =? path_length sc - 1)
  | None => false
  end.

Section Vocabulary.
Context {num : Type} `{!JSNum num}.
Implicit Types (s : Main.State num) (sc : Scenario).

(** The cells of the player [k] ticks after [startAnimation sc]. *)
Definition playing_after sc (k : Z) s : Prop :=
  Main.activeScenario s = Some sc
  ∧ Main.animationStep s = Z.min k (Z.max 0 (path_length sc - 1))
  ∧ Main.isAnimating s = bool_decide (k < Z.max 1 (path_length sc)).

(** No position edit is in progress. *)
Definition sessionEnded s : Prop :=
  Main.editingPositionNode s = None
  ∧ Main.editingPositionOriginal s = None
  ∧ Main.nodeDragStart s = None.

(** A position edit of node [id] is in progress; it remembers [orig],
    and putting [orig] back gives the map [m]. *)
Definition editing (id : string) (orig : Position num)
    (m : gmap string (Position num)) s : Prop :=
  Main.editingPositionNode s = Some id
  ∧ Main.editingPositionOriginal s = Some orig
  ∧ is_Some (Main.positions s !! id)
  ∧ <[id := orig]> (Main.positions s) = m.

(** Pointer events on the canvas of main.jsx, with the handler React
    calls for each: a press on a node reaches [handleNodeDragStart] only
    for the node being edited and does not propagate; any other press
    reaches [handleMouseDown]. *)
Inductive PointerEvent :=
| PressNode (e : MouseEvent num) (nodeId : string)
| PressCanvas (e : MouseEvent num)
| Move (e : MouseEvent num)
| Release.

Definition handlePointer (s : Main.State num) (ev : PointerEvent)
  : option (Main.State num) :=
  match ev with
  | PressNode e nodeId =>
      if bool_decide (Main.editingPositionNode s = Some nodeId)
      then Main.handleNodeDragStart e nodeId s
      else Some (Main.handleMouseDown e s)
  | PressCanvas e => Some (Main.handleMouseDown e s)
  | Move e => Some (Main.handleMouseMove e s)
  | Release => Some (Main.handleMouseUp s)
  end.

Fixpoint runPointer (evs : list PointerEvent) (s : Main.State num)
  : option (Main.State num) :=
  match evs with
  | [] => Some s
  | ev :: evs' => s' ← handlePointer s ev; runPointer evs' s'
  end.

(** The zoom operations of main.jsx. *)
Inductive ZoomOp :=
| Wheel (e : WheelEvent num)
| ZoomIn
| ZoomOut
| ZoomHome.

Definition applyZoom (s : Main.State num) (op : ZoomOp) : Main.State num :=
  match op with
  | Wheel e => Main.handleWheel e s
  | ZoomIn => Main.zoomInClick s
  | ZoomOut => Main.zoomOutClick s
  | ZoomHome => Main.zoomHomeClick s
  end.

(** The canvas between two renders: the wheel handler reads the transform
    of the last render, the updaters of the buttons the transform of the
    moment.  A render may come after any number of events. *)
Record Canvas := {
  rendered : Transform num;
  current : Main.State num
}.

Inductive CanvasEvent :=
| Render
| ZoomEvent (op : ZoomOp).

Definition applyZoomFrom (r : Transform num) (s : Main.State num) (op : ZoomOp)
  : Main.State num :=
  match op with
  | Wheel e => Main.handleWheelFrom r e s
  | ZoomIn => Main.zoomInClick s
  | ZoomOut => Main.zoomOutClick s
  | ZoomHome => Main.zoomHomeClick s
  end.

Definition canvasStep (c : Canvas) (ev : CanvasEvent) : Canvas :=
  match ev with
  | Render => {| rendered := Main.transform (current c); current := current c |}
  | ZoomEvent op =>
      {| rendered := rendered c;
         current := applyZoomFrom (rendered c) (current c) op |}
  end.

Definition mounted (s : Main.State num) : Canvas :=
  {| rendered := Main.transform s; current := s |}.

(** The handlers of the viewport, the player and the position edit, as
    the user and the timer trigger them.  "Play" is offered for the active
    scenario only. *)
Inductive Action :=
| StartEditPosition (nodeId : string)
| CancelEditPosition
| SaveEditPosition (fetch : Main.ApiResult)
| Pointer (ev : PointerEvent)
| Zoom (op : ZoomOp)
| Play
| Pause
| CloseScenario
| SelectScenario (scenario : Scenario)
| ResetStep
| Tick.

Definition perform (s : Main.State num) (a : Action) : option (Main.State num) :=
  match a with
  | StartEditPosition nodeId => Some (Main.startEditPosition nodeId s)
  | CancelEditPosition => Some (Main.cancelEditPosition s)
  | SaveEditPosition fetch => Some (Main.saveEditPosition fetch s)
  | Pointer ev => handlePointer s ev
  | Zoom op => Some (applyZoom s op)
  | Play =>
      match Main.activeScenario s with
      | Some scenario => Some (Main.startAnimation scenario s)
      | None => Some s
      end
  | Pause => Some (Main.stopAnimation s)
  | CloseScenario => Some (Main.resetView s)
  | SelectScenario scenario => Some (Main.scenarioClick scenario s)
  | ResetStep => Some (Main.resetClick s)
  | Tick => Main.tick s
  end.

Fixpoint run (actions : list Action) (s : Main.State num) : option (Main.State num) :=
  match actions with
  | [] => Some s
  | a :: actions' => s' ← perform s a; run actions' s'
  end.

(** Every writer of the cells of [Main.State]: the actions above, the
    clicks that select (on the canvas, and in the lists of the sidebar,
    which do not look at the position edit), the handlers that reload or
    delete data, and the toasts the other handlers raise and the toast's
    own closing. *)
Inductive Event :=
| Act (a : Action)
| NodeClick (nodeId : string)
| SvgClick
| DeleteJourney (fetch : Main.ApiResult) (journeyKey : string)
| DeleteNode (fetch : Main.ApiResult) (nodeId : string)
| LoadData (posRes : option (option (gmap string (Position num))))
| ListClick (nodeId : string)
| Notify (t : option Main.Toast).

Definition handleEvent (s : Main.State num) (ev : Event) : option (Main.State num) :=
  match ev with
  | Act a => perform s a
  | NodeClick nodeId => Some (Main.nodeClick nodeId s)
  | SvgClick => Some (Main.svgClick s)
  | DeleteJourney fetch journeyKey => Some (Main.handleDeleteJourney fetch journeyKey s)
  | DeleteNode fetch nodeId => Some (Main.handleDeleteNode fetch nodeId s)
  | LoadData posRes => Some (Main.loadData posRes s)
  | ListClick nodeId => Some (Main.setSelectedNode (Some nodeId) s)
  | Notify t => Some (Main.setToast t s)
  end.

Fixpoint runEvents (evs : list Event) (s : Main.State num) : option (Main.State num) :=
  match evs with
  | [] => Some s
  | ev :: evs' => s' ← handleEvent s ev; runEvents evs' s'
  end.

(** The step of the player is within the path. *)
Definition stepInBounds (s : Main.State num) : Prop :=
  -1 ≤ Main.animationStep s
  ∧ ∀ sc, Main.activeScenario s = Some sc →
          Main.animationStep s ≤ Z.max 0 (path_length sc - 1).
End Vocabulary.

Arguments PointerEvent : clear implicits.
Arguments Event : clear implicits.
Arguments ZoomOp : clear implicits.
Arguments Action : clear implicits.
Arguments Canvas : clear implicits.
Arguments CanvasEvent : clear implicits.

(** Exact arithmetic: the range of [scale] and equality of points. *)
Definition scaleInRange (q : Q) : Prop := (0.15 <= q /\ q <= 2)%Q.

Definition pointEq (p q : Position Q) : Prop :=
  (pos_x p == pos_x q /\ pos_y p == pos_y q)%Q.

(** Binary64: the range of [scale], by the comparisons of doubles. *)
Definition scaleInRange64 (x : float) : bool :=
  (lit 0.15 <=? x)%float && (x <=? lit 2)%float.

(** [x] is the positive finite double [m * 2^e]. *)
Definition posfin (x : float) (m : positive) (e : Z) : Prop :=
  Prim2SF x = S754_finite false m e.

(** The order of two positive finite doubles in canonical form: by
    exponent, then by mantissa. *)
Definition key_le (e1 : Z) (m1 : positive) (e2 : Z) (m2 : positive) : Prop :=
  e1 < e2 \/ (e1 = e2 /\ Zpos m1 <= Zpos m2).

(** The numbers an edge element is drawn from. *)
Definition Main_coordinates (el : Main.EdgeElement) : list float :=
  [Main.dirX el; Main.dirY el; Main.x1 el; Main.y1 el; Main.x2 el; Main.y2 el].

Definition Template_coordinates (el : Template.EdgeElement) : list float :=
  [Template.fromNx el; Template.fromNy el; Template.toNx el; Template.toNy el;
   pos_x (Template.startPoint el); pos_y (Template.startPoint el);
   pos_x (Template.endPoint el); pos_y (Template.endPoint el);
   Template.ctrlX el; Template.ctrlY el].

(** ** Form entries, loaded lists and graph edits *)

Fixpoint has_comma (s : string) : bool :=
  match s with
  | EmptyString => false
  | String c s' => Ascii.eqb c "," || has_comma s'
  end.

(** An entry as [parseCommaList] leaves it: not empty, no comma, no white
    space at either end. *)
Definition cleanEntry (s : string) : bool :=
  truthy_string s && String.eqb (trim s) s && negb (has_comma s).

(** The text is empty or starts with a character [trim] keeps. *)
Definition starts_clean (s : string) : bool :=
  match s with
  | EmptyString => true
  | String c _ => negb (is_space c)
  end.

(** The last element of a loaded list that has the id [k]. *)
Fixpoint lastWithId (l : list (option Node)) (k : string) : option Node :=
  match l with
  | [] => None
  | x :: l' =>
      match lastWithId l' k with
      | Some n => Some n
      | None =>
          match x with
          | Some n => if String.eqb (node_id n) k then Some n else None
          | None => None
          end
      end
  end.

(** A member that is absent or not empty. *)
Definition absent_or_truthy (v : option string) : bool :=
  match v with Some t => truthy_string t | None => true end.

(** The join condition is one an untouched save leaves as it is: there is
    none; or the three fields of the form are empty, so that the payload
    has no [joinCondition] and the stored one stays; or it is what
    [buildPayload] builds, an object with no other members, with [source]
    and [logic] absent or not empty and [tables] absent or a list, not
    empty, of clean entries. *)
Definition stableJoinCondition (jc : option Template.JoinCondition) : bool :=
  match jc with
  | None => true
  | Some jc =>
      (negb (truthy_id (Template.jc_source jc))
       && negb (truthy_id (Template.jc_logic jc))
       && match Template.jc_tables jc with
          | Some (Template.TablesList l) => negb (truthy_string (joinCommaSpace l))
          | Some (Template.TablesText t) => negb (truthy_string t)
          | None => true
          end)
      || (negb (Template.jc_others jc)
          && absent_or_truthy (Template.jc_source jc)
          && absent_or_truthy (Template.jc_logic jc)
          && match Template.jc_tables jc with
             | Some (Template.TablesList l) =>
                 match l with [] => false | _ :: _ => forallb cleanEntry l end
             | Some (Template.TablesText _) => false
             | None => true
             end)
  end.

Definition stableDataLineage (dl : option Template.DataLineage) : bool :=
  match dl with
  | None => true
  | Some dl =>
      (negb (truthy_id (Template.dl_fromKey dl))
       && negb (truthy_id (Template.dl_toKey dl)))
      || (negb (Template.dl_others dl)
          && absent_or_truthy (Template.dl_fromKey dl)
          && absent_or_truthy (Template.dl_toKey dl))
  end.

(** The edits of the template's graph, with the handler of each. *)
Inductive GraphEdit {num} :=
| EditSaveNode (create : bool) (data : Node) (position : option (Position num))
| EditDeleteNode (nodeId : option string)
| EditSaveRelationship (now : Z) (data : Template.RelationshipPayload)
    (relId : option Z)
| EditDeleteRelationship (confirmed : bool) (relId : option Z).
Arguments GraphEdit : clear implicits.

Definition applyEdit {num} `{!JSNum num} (e : GraphEdit num)
    (g : Template.Graph num) : Template.Graph num :=
  match e with
  | EditSaveNode create data position =>
      Template.handleSaveNode create data position g
  | EditDeleteNode nodeId => Template.handleDeleteNode nodeId g
  | EditSaveRelationship now data relId =>
      Template.handleSaveRelationship now data relId g
  | EditDeleteRelationship confirmed relId =>
      Template.handleDeleteRelationship confirmed relId g
  end.

(** Both ends of every relationship are nodes of the graph. *)
Definition danglingFree {num} (g : Template.Graph num) : Prop :=
  ∀ r, r ∈ Template.relationships g →
       is_Some (obj_get (Template.nodes g) (rel_from (Template.rel_data r)))
       ∧ is_Some (obj_get (Template.nodes g) (rel_to (Template.rel_data r))).

(** The zoom operations of the template. *)
Inductive TemplateZoomOp {num} :=
| TemplateWheel (rect : Template.DOMRect num) (e : WheelEvent num)
| TemplateZoomIn
| TemplateZoomOut
| TemplateReset.
Arguments TemplateZoomOp : clear implicits.

Definition applyTemplateZoom {num} `{!JSNum num} (t : Transform num)
    (op : TemplateZoomOp num) : Transform num :=
  match op with
  | TemplateWheel rect e => Template.handleWheel rect e t
  | TemplateZoomIn => Template.zoomInClick t
  | TemplateZoomOut => Template.zoomOutClick t
  | TemplateReset => Template.resetClick t
  end.

Definition templateScaleInRange (v : Q) : Prop := (0.2 <= v)%Q ∧ (v <= 2)%Q.

(** ** Sample data *)

Definition scenarioABC : Scenario :=
  {| sc_id := "abc"; sc_color := "#10b981";
     sc_path := Some ["A"; "B"; "C"]%string;
     sc_dataFlow :=
       [ {| df_step := 1; df_from := "A"; df_to := "B"; df_action := "" |};
         {| df_step := 2; df_from := "B"; df_to := "C"; df_action := "" |} ] |}.

Definition nodeA : Node :=
  {| node_id := "A"; node_module := Some "planning"%string;
     node_nodeType := Some "core"%string;
     node_definition := Some "First node"%string; node_color := "#3b82f6" |}.

Definition nodeB : Node :=
  {| node_id := "B"; node_module := Some "planning"%string;
     node_nodeType := Some "kpi"%string;
     node_definition := None; node_color := "#06b6d4" |}.

Definition nodesAB : NodesObject := [("A"%string, nodeA); ("B"%string, nodeB)].

Definition relAB : Relationship :=
  {| rel_from := "A"; rel_to := "B"; rel_label := "FEEDS"; rel_type := None |}.

(** Both nodes at the same place: the template's [DEFAULT_CENTER], where
    its node form puts every new node unless told otherwise. *)
Definition coincidentPositions : gmap string (Position float) :=
  <["A"%string := {| pos_x := 800%float; pos_y := 500%float |}]>
    (<["B"%string := {| pos_x := 800%float; pos_y := 500%float |}]> ∅).

(** Only [A] has a position. *)
Definition positionsOfA : gmap string (Position float) :=
  <["A"%string := {| pos_x := 400%float; pos_y := 300%float |}]> ∅.

Definition stateOfA : Main.State float :=
  Main.setPositions positionsOfA Main.initialState.

Definition stateCoincident : Main.State float :=
  Main.setPositions coincidentPositions Main.initialState.

Definition stateWithSelection : Main.State float :=
  Main.setSelectedNode (Some "A"%string) Main.initialState.

(** The scenario is playing at step 0 and no node has a position. *)
Definition statePlayingABC : Main.State float :=
  Main.startAnimation scenarioABC Main.initialState.

Definition pressAt (x y : float) : MouseEvent float :=
  {| clientX := x; clientY := y; onBackground := false |}.

(** A wheel notch towards the user with the cursor at (100, 100). *)
Definition wheelUpAt100 : WheelEvent Q :=
  {| deltaX := 0%Q; deltaY := (-100)%Q;
     wheel_clientX := 100%Q; wheel_clientY := 100%Q;
     ctrlKey := true; metaKey := false |}.

(** A wheel notch away from the user, in binary64, and a run of the zoom
    controls with two notches between two renders. *)
Definition wheelDown64 : WheelEvent float :=
  {| deltaX := 0; deltaY := 100;
     wheel_clientX := 100; wheel_clientY := 100;
     ctrlKey := false; metaKey := false |}%float.

Definition sampleCanvasEvents : list (CanvasEvent float) :=
  replicate 11 (ZoomEvent ZoomIn)
  ++ [Render; ZoomEvent (Wheel wheelDown64); ZoomEvent (Wheel wheelDown64);
      Render; ZoomEvent ZoomOut; ZoomEvent ZoomHome; ZoomEvent ZoomOut].

Definition rectAtOrigin : Template.DOMRect Q :=
  {| Template.left := 0%Q; Template.top := 0%Q |}.

(** [A] is being repositioned. *)
Definition stateEditingA : Main.State float :=
  Main.startEditPosition "A" stateOfA.

Definition gestureOnA : list (PointerEvent float) :=
  [PressNode (pressAt 10 10) "A"; Move (pressAt 30 40); Release].

(** A press on the background at (10, 20) and a move to (30, 50). *)
Definition panDown : MouseEvent Q :=
  {| clientX := 10%Q; clientY := 20%Q; onBackground := true |}.

Definition panMove : MouseEvent Q :=
  {| clientX := 30%Q; clientY := 50%Q; onBackground := true |}.

(** A scenario is chosen and played to its end, then its journey is
    deleted while the ticker is asked once more. *)
Definition sampleSession : list (Event float) :=
  [Act (SelectScenario scenarioABC); Act Play; Act Tick; Act Tick; Act Tick;
   ListClick "B"; DeleteJourney Main.ApiOk "abc"; Notify None; Act Tick].

Definition sampleZoomSession : list (Event Q) :=
  [Act (Zoom ZoomIn); Act (Zoom (Wheel wheelUpAt100)); SvgClick;
   Act (Zoom ZoomOut)].

(** The journey the form makes of the path A, B, C. *)
Definition scenarioFromForm : Scenario :=
  {| sc_id := "abc"; sc_color := "#10b981";
     sc_path := Some ["A"; "B"; "C"]%string;
     sc_dataFlow := Main.buildDataFlow 0 ["A"; "B"; "C"]%string |}.

Definition statePlayingFromForm : Main.State float :=
  Main.startAnimation scenarioFromForm Main.initialState.

(** A node whose id is the name of a property of [Object.prototype]. *)
Definition nodeConstructor : Node :=
  {| node_id := "constructor"; node_module := Some "planning"%string;
     node_nodeType := Some "core"%string;
     node_definition := None; node_color := "#3b82f6" |}.

Definition nodesAConstructor : NodesObject :=
  [("A"%string, nodeA); ("constructor"%string, nodeConstructor)].

Definition relAConstructor : Relationship :=
  {| rel_from := "A"; rel_to := "constructor"; rel_label := "FEEDS";
     rel_type := None |}.

(** A journey whose path ends at that id, started with a position for
    [A] only. *)
Definition scenarioAConstructor : Scenario :=
  {| sc_id := "ac"; sc_color := "#10b981";
     sc_path := Some ["A"; "constructor"]%string;
     sc_dataFlow := [] |}.

Definition statePlayingAConstructor : Main.State float :=
  Main.startAnimation scenarioAConstructor stateOfA.

Definition nodeProto : Node :=
  {| node_id := "__proto__"; node_module := None; node_nodeType := None;
     node_definition := None; node_color := "#3b82f6" |}.

Definition relAZ : Relationship :=
  {| rel_from := "A"; rel_to := "Z"; rel_label := "FEEDS"; rel_type := None |}.

Definition storedAB : Template.StoredRelationship :=
  {| Template.rel_id := Some 1;
     Template.rel_data :=
       {| rel_from := "A"; rel_to := "B"; rel_label := "FEEDS";
          rel_type := Some "DERIVES"%string |};
     Template.rel_description := Some "A feeds B"%string;
     Template.rel_businessMeaning := None;
     Template.rel_joinCondition :=
       Some {| Template.jc_source := Some "S"%string;
               Template.jc_logic := None;
               Template.jc_tables :=
                 Some (Template.TablesList ["orders"; "order_lines"]%string);
               Template.jc_others := false |};
     Template.rel_dataLineage := None |}.

(** The same relationship with a join condition that has an empty
    [logic] and an empty list of tables. *)
Definition storedWithEmptyMembers : Template.StoredRelationship :=
  {| Template.rel_id := Some 1;
     Template.rel_data :=
       {| rel_from := "A"; rel_to := "B"; rel_label := "FEEDS";
          rel_type := Some "DERIVES"%string |};
     Template.rel_description := None;
     Template.rel_businessMeaning := None;
     Template.rel_joinCondition :=
       Some {| Template.jc_source := Some "S"%string;
               Template.jc_logic := Some ""%string;
               Template.jc_tables := Some (Template.TablesList []);
               Template.jc_others := false |};
     Template.rel_dataLineage := None |}.

Definition idlessAB : Template.StoredRelationship :=
  {| Template.rel_id := None; Template.rel_data := relAB;
     Template.rel_description := None; Template.rel_businessMeaning := None;
     Template.rel_joinCondition := None; Template.rel_dataLineage := None |}.

Definition graphAB : Template.Graph float :=
  {| Template.nodes := nodesAB;
     Template.relationships := [storedAB];
     Template.positions := coincidentPositions;
     Template.selectedNode := Some "A"%string |}.

(** The relationship form with the type field cleared. *)
Definition formWithoutType : Template.RelationshipForm :=
  {| Template.form_from := "B"; Template.form_to := "A";
     Template.form_label := "USES"; Template.form_type := "";
     Template.form_description := ""; Template.form_businessMeaning := "";
     Template.form_source := ""; Template.form_logic := "";
     Template.form_tables := "";
     Template.form_fromKey := ""; Template.form_toKey := "" |}.

(** An import of one relationship that has no id. *)
Definition importOfOne : Template.ImportData float :=
  {| Template.import_nodes := None;
     Template.import_relationships := Some [idlessAB];
     Template.import_positions := None |}.

(** * Verification *)

(** ** Filter engine *)

Ltac solve_visible_edge :=
  intros; unfold Main.filteredRelationships, Template.filteredRelationships;
  match goal with |- context [negb ?b] => destruct b end; simpl;
  [ rewrite list_elem_of_In, filter_In, andb_true_iff, !bool_decide_eq_true,
      !elem_of_list_to_set, !list_elem_of_fmap, <- list_elem_of_In;
    tauto
  | rewrite elem_of_nil; intuition discriminate ].

Lemma Main_visible_edge_iff show (visibleNodes : list Node) rels rel :
  rel ∈ Main.filteredRelationships show visibleNodes rels ↔
  show = true ∧ rel ∈ rels
  ∧ (∃ n, rel_from rel = node_id n ∧ n ∈ visibleNodes)
  ∧ (∃ n, rel_to rel = node_id n ∧ n ∈ visibleNodes).
Proof. solve_visible_edge. Qed.

Lemma Template_visible_edge_iff show (visibleNodes : list Node) rels rel :
  rel ∈ Template.filteredRelationships show visibleNodes rels ↔
  show = true ∧ rel ∈ rels
  ∧ (∃ n, rel_from rel = node_id n ∧ n ∈ visibleNodes)
  ∧ (∃ n, rel_to rel = node_id n ∧ n ∈ visibleNodes).
Proof. solve_visible_edge. Qed.

Lemma opt_strict_eq_true (a : option string) (b : string) :
  opt_strict_eq a b = true ↔ a = Some b.
Proof.
  destruct a as [x|]; simpl; [|split; discriminate].
  rewrite String.eqb_eq. split; congruence.
Qed.

Lemma truthy_string_true (x : string) : truthy_string x = true ↔ x ≠ ""%string.
Proof. unfold truthy_string. by rewrite negb_true_iff, String.eqb_neq. Qed.

Lemma definition_matches (definition : option string) (term : string) :
  match definition with
  | Some d => truthy_string d && includes (toLowerCase d) (toLowerCase term)
  | None => false
  end = true
  ↔ ∃ d, definition = Some d ∧ d ≠ ""%string
         ∧ includes (toLowerCase d) (toLowerCase term) = true.
Proof.
  destruct definition as [d|].
  - rewrite andb_true_iff, truthy_string_true. split.
    + intros [? ?]. eauto.
    + intros (d' & [= <-] & ? & ?). done.
  - split; [discriminate | intros (d' & [=] & _)].
Qed.

Lemma Main_visible_node_iff nodes selectedModule searchTerm node :
  node ∈ Main.filteredNodes nodes selectedModule searchTerm ↔
  node ∈ Object_values nodes
  ∧ (selectedModule = "all"%string ∨ node_module node = Some selectedModule)
  ∧ (searchTerm = ""%string
     ∨ includes (toLowerCase (node_id node)) (toLowerCase searchTerm) = true
     ∨ ∃ d, node_definition node = Some d ∧ d ≠ ""%string
            ∧ includes (toLowerCase d) (toLowerCase searchTerm) = true).
Proof.
  unfold Main.filteredNodes.
  rewrite list_elem_of_In, filter_In, <- list_elem_of_In.
  rewrite andb_true_iff, !orb_true_iff, !String.eqb_eq.
  rewrite opt_strict_eq_true, definition_matches. tauto.
Qed.

Example search_is_case_insensitive :
  Main.filteredNodes nodesAB "all" "FIRST" = [nodeA]
  ∧ Main.filteredNodes nodesAB "planning" "b" = [nodeB]
  ∧ Main.filteredNodes nodesAB "kpi" "" = [].
Proof. repeat split. Qed.

(** Nodes without a position are laid out from [DEFAULT_CENTER], 150
    apart, in the order of [Object.keys]. *)
Example Template_default_layout :
  Template.nodePositions nodesAB ∅ !! "A"%string
  = Some {| pos_x := 800%float; pos_y := 500%float |}
  ∧ Template.nodePositions nodesAB ∅ !! "B"%string
    = Some {| pos_x := 950%float; pos_y := 500%float |}.
Proof. split; vm_compute; reflexivity. Qed.

(** C4 - Filter composition: in both components every visible edge has its
    [from] and its [to] among the ids of the visible nodes, whatever the
    nodes, edges, module filter and search term; and the visible edge set is
    empty when [showRelationships] is false. *)
Theorem filter_composition (nodes : NodesObject) (relationships : list Relationship)
    (selectedModule searchTerm : string) (showRelationships : bool) :
  (∀ rel,
     rel ∈ Main.filteredRelationships showRelationships
             (Main.filteredNodes nodes selectedModule searchTerm) relationships →
     (∃ n, n ∈ Main.filteredNodes nodes selectedModule searchTerm
           ∧ node_id n = rel_from rel)
     ∧ (∃ n, n ∈ Main.filteredNodes nodes selectedModule searchTerm
             ∧ node_id n = rel_to rel))
  ∧ (∀ rel,
       rel ∈ Template.filteredRelationships showRelationships
               (Template.filteredNodes nodes selectedModule searchTerm) relationships →
       (∃ n, n ∈ Template.filteredNodes nodes selectedModule searchTerm
             ∧ node_id n = rel_from rel)
       ∧ (∃ n, n ∈ Template.filteredNodes nodes selectedModule searchTerm
               ∧ node_id n = rel_to rel))
  ∧ (showRelationships = false →
     Main.filteredRelationships showRelationships
       (Main.filteredNodes nodes selectedModule searchTerm) relationships = []
     ∧ Template.filteredRelationships showRelationships
         (Template.filteredNodes nodes selectedModule searchTerm) relationships = []).
Proof.
  split; [|split].
  - intros rel Hrel. apply Main_visible_edge_iff in Hrel as (_ & _ & Hf & Ht).
    destruct Hf as (n1 & E1 & H1), Ht as (n2 & E2 & H2).
    split; [exists n1 | exists n2]; split; congruence.
  - intros rel Hrel. apply Template_visible_edge_iff in Hrel as (_ & _ & Hf & Ht).
    destruct Hf as (n1 & E1 & H1), Ht as (n2 & E2 & H2).
    split; [exists n1 | exists n2]; split; congruence.
  - intros ->. split; reflexivity.
Qed.

(** The edge [A -> B] is visible with both nodes shown, and its endpoints
    are then among the visible nodes. *)
Lemma filter_composition_witness :
  relAB ∈ Main.filteredRelationships true (Main.filteredNodes nodesAB "all" "") [relAB]
  ∧ (∃ n, n ∈ Main.filteredNodes nodesAB "all" "" ∧ node_id n = rel_from relAB)
  ∧ (∃ n, n ∈ Main.filteredNodes nodesAB "all" "" ∧ node_id n = rel_to relAB).
Proof.
  assert (relAB ∈ Main.filteredRelationships true
                    (Main.filteredNodes nodesAB "all" "") [relAB]) as Hin.
  { vm_compute. apply list_elem_of_here. }
  split; [exact Hin|].
  exact (proj1 (filter_composition nodesAB [relAB] "all" "" true) relAB Hin).
Defined.

(** ** Reads of the positions object *)

Lemma obj_read_own {num} `{!JSNum num} (o : gmap string (Position num))
    (k : string) (p : Position num) :
  o !! k = Some p → obj_read o k = Some p.
Proof. unfold obj_read. by intros ->. Qed.

Lemma obj_read_None {num} `{!JSNum num} (o : gmap string (Position num))
    (k : string) :
  obj_read o k = None ↔ o !! k = None ∧ inherited k = false.
Proof.
  unfold obj_read. destruct (o !! k); [split; [discriminate|by intros [? _]]|].
  destruct (inherited k); split; try done. by intros [_ ?].
Qed.

Lemma obj_read_inherited {num} `{!JSNum num} (o : gmap string (Position num))
    (k : string) :
  o !! k = None → inherited k = true → obj_read o k = Some undefinedPosition.
Proof. unfold obj_read. by intros -> ->. Qed.

(** ** Rendering guards *)

Lemma Main_renderEdge_None nodes (s : Main.State float) rel :
  Main.renderEdge nodes s rel = None ↔
  obj_read (Main.positions s) (rel_from rel) = None
  ∨ obj_read (Main.positions s) (rel_to rel) = None.
Proof.
  unfold Main.renderEdge.
  destruct (obj_read (Main.positions s) (rel_from rel)) as [fromPos|]; simpl;
    [destruct (obj_read (Main.positions s) (rel_to rel)) as [toPos|]; simpl|].
  - match goal with |- context [let '(_, _) := ?p in _] => destruct p end.
    split; [discriminate | intros [?|?]; discriminate].
  - tauto.
  - tauto.
Qed.

Lemma Main_renderNode_None rels hovered (s : Main.State float) node :
  Main.renderNode rels hovered s node = None ↔
  obj_read (Main.positions s) (node_id node) = None.
Proof.
  unfold Main.renderNode.
  destruct (obj_read (Main.positions s) (node_id node)); simpl; split; congruence.
Qed.

(** X30 - Missing positions: a visible edge is skipped (rendered as
    [null]) exactly when the read of [positions] at one of its ends finds
    nothing, that is no own entry and no property inherited from
    [Object.prototype] under that id; likewise a visible node.  An element
    whose reads find something is drawn, and the render callbacks are
    total, so nothing is thrown. *)
Theorem missing_position_is_skipped (nodes : NodesObject)
    (relationships : list Relationship) (hoveredNode : option string)
    (s : Main.State float) :
  (∀ rel,
     (Main.renderEdge nodes s rel = None ↔
      (Main.positions s !! rel_from rel = None ∧ inherited (rel_from rel) = false)
      ∨ (Main.positions s !! rel_to rel = None ∧ inherited (rel_to rel) = false))
     ∧ (is_Some (Main.positions s !! rel_from rel) →
        is_Some (Main.positions s !! rel_to rel) →
        is_Some (Main.renderEdge nodes s rel)))
  ∧ (∀ node,
       (Main.renderNode relationships hoveredNode s node = None ↔
        Main.positions s !! node_id node = None ∧ inherited (node_id node) = false)
       ∧ (is_Some (Main.positions s !! node_id node) →
          is_Some (Main.renderNode relationships hoveredNode s node))).
Proof.
  split.
  - intros rel. split.
    + by rewrite Main_renderEdge_None, !obj_read_None.
    + intros [p1 H1] [p2 H2]. apply not_eq_None_Some.
      rewrite Main_renderEdge_None, !obj_read_None, H1, H2.
      intros [[? _]|[? _]]; discriminate.
  - intros node. split.
    + by rewrite Main_renderNode_None, obj_read_None.
    + intros [p Hp]. apply not_eq_None_Some.
      rewrite Main_renderNode_None, obj_read_None, Hp. by intros [? _].
Qed.

(** C10 - Missing positions, as the code has them: the node with id
    [constructor] has no entry in [positions], yet the read
    [positions[node.id]] finds the function inherited from
    [Object.prototype], which is truthy: the node is drawn, at
    [translate(undefined, undefined)] (NaN stands for [undefined]), and so
    is the edge that ends at it, all its coordinates NaN, instead of being
    skipped.  An edge and a node whose id no plain object inherits are
    skipped. *)
Theorem inherited_position_is_drawn :
  relAConstructor
    ∈ Main.filteredRelationships true
        (Main.filteredNodes nodesAConstructor "all" "") [relAConstructor]
  ∧ nodeConstructor ∈ Main.filteredNodes nodesAConstructor "all" ""
  ∧ Main.positions stateOfA !! node_id nodeConstructor = None
  ∧ (∃ el, Main.renderNode [relAConstructor] None stateOfA nodeConstructor = Some el
           ∧ PrimFloat.is_nan (Main.translate_x el) = true
           ∧ PrimFloat.is_nan (Main.translate_y el) = true)
  ∧ (∃ el, Main.renderEdge nodesAConstructor stateOfA relAConstructor = Some el
           ∧ forallb PrimFloat.is_nan (Main_coordinates el) = true)
  ∧ Main.renderNode [relAB] None stateOfA nodeB = None
  ∧ Main.renderEdge nodesAB stateOfA relAB = None.
Proof.
  split; [vm_compute; apply list_elem_of_here|].
  split; [vm_compute; apply list_elem_of_further, list_elem_of_here|].
  split; [vm_compute; reflexivity|].
  split; [eexists; split; [vm_compute; reflexivity | split; reflexivity]|].
  split; [eexists; split; [vm_compute; reflexivity | reflexivity]|].
  split; vm_compute; reflexivity.
Qed.

(** ** Scenario player *)
Section Animation.
Context {num : Type} `{!JSNum num}.
Implicit Types (s : Main.State num) (sc : Scenario).
Import Main.

Lemma tick_idle s : isAnimating s = false → tick s = Some s.
Proof. unfold tick. intros ->. reflexivity. Qed.

Lemma intervalCallback_scale sc s s' :
  intervalCallback sc s = Some s' → scale (transform s') = scale (transform s).
Proof.
  unfold intervalCallback.
  destruct (path_length sc - 1 <=? animationStep s); [intros [= <-]; reflexivity|].
  destruct (sc_path sc) as [path|]; simpl; [|discriminate].
  destruct (obj_read (positions s) _); intros [= <-]; reflexivity.
Qed.

(** The only throwing expression, [path[prev + 1]] on an undefined
    [path], is unreachable from a step that is at least -1. *)
Lemma intervalCallback_total sc s :
  -1 ≤ animationStep s → is_Some (intervalCallback sc s).
Proof.
  intros Hge. unfold intervalCallback, path_length.
  destruct (sc_path sc) as [path|]; simpl.
  - destruct (_ <=? _); eauto.
  - destruct (Z.leb_spec (0 - 1) (animationStep s)); [eauto | lia].
Qed.

Lemma tick_scale s s' :
  tick s = Some s' → scale (transform s') = scale (transform s).
Proof.
  unfold tick. destruct (isAnimating s); [|intros [= <-]; reflexivity].
  destruct (activeScenario s) as [sc|]; [|intros [= <-]; reflexivity].
  apply intervalCallback_scale.
Qed.

Lemma tick_total s : -1 ≤ animationStep s → is_Some (tick s).
Proof.
  intros Hge. unfold tick. destruct (isAnimating s); [|eauto].
  destruct (activeScenario s) as [sc|]; [|eauto].
  by apply intervalCallback_total.
Qed.

Lemma tick_step_lower_bound s s' :
  -1 ≤ animationStep s → tick s = Some s' → -1 ≤ animationStep s'.
Proof.
  intros Hge. unfold tick, intervalCallback.
  destruct (isAnimating s); [|intros [= <-]; done].
  destruct (activeScenario s) as [sc|]; [|intros [= <-]; done].
  destruct (_ <=? _); [intros [= <-]; done|].
  destruct (sc_path sc); simpl; [|discriminate].
  destruct (obj_read (positions s) _); intros [= <-]; simpl; lia.
Qed.

(** The frame of a tick: it returns normally (from a step that is at
    least -1, as every step the handlers store is) and leaves
    [transform.scale] as it was; when the player is running, not at the end
    of the path, and the read of [positions] at the next path node finds
    nothing, the tick changes nothing but [animationStep], which grows by
    one. *)
Lemma tick_frame :
  (∀ s, -1 ≤ animationStep s →
        ∃ s', tick s = Some s' ∧ scale (transform s') = scale (transform s))
  ∧ (∀ s sc path nextNode,
       isAnimating s = true →
       activeScenario s = Some sc →
       sc_path sc = Some path →
       animationStep s < Z.of_nat (length path) - 1 →
       array_get path (animationStep s + 1) = Some nextNode →
       positions s !! nextNode = None →
       inherited nextNode = false →
       tick s = Some (setAnimationStep (animationStep s + 1) s)).
Proof.
  split.
  - intros s Hge. destruct (tick_total s Hge) as [s' Hs'].
    exists s'. split; [done|]. by apply tick_scale.
  - intros s sc path nextNode Hrun Hsc Hpath Hlt Hnext Hpos Hown.
    unfold tick. rewrite Hrun, Hsc. unfold intervalCallback, path_length.
    rewrite Hpath. simpl.
    destruct (Z.leb_spec (Z.of_nat (length path) - 1) (animationStep s)); [lia|].
    rewrite Hnext. simpl.
    by rewrite (proj2 (obj_read_None (positions s) nextNode) (conj Hpos Hown)).
Qed.

(** C7 - Selecting a scenario makes it the active one, resets the step
    to -1 and stops the ticker; it leaves [selectedNode] as it was.  The
    node selection is cleared by [startAnimation]. *)
Theorem scenarioClick_effect sc s :
  let s' := scenarioClick sc s in
  activeScenario s' = Some sc ∧ animationStep s' = -1 ∧ isAnimating s' = false
  ∧ selectedNode s' = selectedNode s
  ∧ selectedNode (startAnimation sc s') = None.
Proof.
  repeat split. unfold startAnimation.
  destruct (obj_read (positions _) _); reflexivity.
Qed.

Lemma startAnimation_fields sc s :
  let s0 := startAnimation sc s in
  activeScenario s0 = Some sc ∧ animationStep s0 = 0 ∧ isAnimating s0 = true
  ∧ selectedNode s0 = None ∧ positions s0 = positions s
  ∧ scale (transform s0) = scale (transform s).
Proof.
  unfold startAnimation. destruct (obj_read (positions s) _); repeat split.
Qed.

Lemma startAnimation_playing sc s : playing_after sc 0 (startAnimation sc s).
Proof.
  destruct (startAnimation_fields sc s) as (Ha & Hs & Hr & _).
  unfold playing_after. rewrite Ha, Hs, Hr.
  repeat split; [lia|]. symmetry. apply bool_decide_eq_true. lia.
Qed.

Lemma path_length_nonneg sc : 0 ≤ path_length sc.
Proof. unfold path_length. destruct (sc_path sc); lia. Qed.

Lemma tick_playing sc k s :
  0 ≤ k → playing_after sc k s →
  ∃ s', tick s = Some s' ∧ playing_after sc (k + 1) s'.
Proof.
  intros Hk (Hsc & Hstep & Hrun).
  pose proof (path_length_nonneg sc) as HN.
  unfold tick. rewrite Hsc, Hrun. case_bool_decide as Hlt.
  - unfold intervalCallback.
    destruct (Z.leb_spec (path_length sc - 1) (animationStep s)) as [Hfin|Hadv].
    + eexists. split; [reflexivity|]. unfold playing_after. cbn.
      rewrite Hsc, Hstep. repeat split; [lia|].
      symmetry. apply bool_decide_eq_false. lia.
    + assert (∃ path, sc_path sc = Some path) as [path Hpath].
      { unfold path_length in Hadv. destruct (sc_path sc); [eauto | lia]. }
      rewrite Hpath. cbn.
      eexists. split; [reflexivity|]. unfold playing_after.
      destruct (obj_read (positions s) _); cbn; rewrite Hsc, Hstep, Hrun;
        (repeat split; [lia|]); symmetry; apply bool_decide_eq_true; lia.
  - exists s. split; [reflexivity|]. unfold playing_after.
    rewrite Hsc, Hstep, Hrun. repeat split; [lia|].
    symmetry. apply bool_decide_eq_false. lia.
Qed.

Lemma ticks_playing sc (n : nat) k s :
  0 ≤ k → playing_after sc k s →
  ∃ s', ticks n s = Some s' ∧ playing_after sc (k + Z.of_nat n) s'.
Proof.
  revert k s. induction n as [|n IH]; intros k s Hk Hp.
  - exists s. split; [reflexivity|]. by rewrite Z.add_0_r.
  - destruct (tick_playing sc k s Hk Hp) as (s1 & Ht & Hp1).
    destruct (IH (k + 1) s1 ltac:(lia) Hp1) as (s' & Hts & Hp').
    exists s'. split; [cbn; rewrite Ht; exact Hts|].
    replace (k + Z.of_nat (S n)) with (k + 1 + Z.of_nat n) by lia. exact Hp'.
Qed.

(** C2 - Scenario run: [startAnimation] on a scenario whose path has
    length [N] puts the step at 0 at once, with the ticker on.  After [k]
    ticks the step is [min k (N - 1)] (0 for an empty path) and the ticker
    is on exactly while [k < max 1 N]: the step reaches [N - 1] after
    [N - 1] ticks, tick number [N] only switches the ticker off, which is
    the Finished state, and later ticks change nothing. *)
Theorem scenario_run sc s (k : nat) :
  let s0 := startAnimation sc s in
  let N := path_length sc in
  animationStep s0 = 0 ∧ isAnimating s0 = true
  ∧ ∃ sk, ticks k s0 = Some sk
      ∧ activeScenario sk = Some sc
      ∧ animationStep sk = Z.min (Z.of_nat k) (Z.max 0 (N - 1))
      ∧ isAnimating sk = bool_decide (Z.of_nat k < Z.max 1 N)
      ∧ (Z.max 1 N ≤ Z.of_nat k → tick sk = Some sk)
      ∧ (1 ≤ N ≤ Z.of_nat k → isFinished sk = true).
Proof.
  intros s0 N.
  destruct (startAnimation_fields sc s) as (_ & Hs & Hr & _).
  split; [exact Hs|]. split; [exact Hr|].
  destruct (ticks_playing sc k 0 s0 ltac:(lia) (startAnimation_playing sc s))
    as (sk & Hsk & Ha & Hst & Hrun).
  rewrite Z.add_0_l in Hst, Hrun.
  exists sk. repeat split; try done.
  - intros Hge. apply tick_idle. rewrite Hrun. apply bool_decide_eq_false. lia.
  - intros [H1 Hge]. unfold isFinished. rewrite Ha, Hrun, Hst.
    rewrite bool_decide_eq_false_2 by lia. simpl. fold N. apply Z.eqb_eq. lia.
Qed.

(** C6 - The trace of the scenario with path [A, B, C]: one tick after
    the start the step is 1, [B] is current, the edge [B - C] is active and
    [A] is visited; after two ticks the step is 2, [C] is current, [A] is
    visited, no edge is active and the ticker is still on; the third tick
    switches it off (Finished) and changes nothing else. *)
Theorem concrete_trace s :
  let s0 := startAnimation scenarioABC s in
  ∃ s1 s2 s3,
    ticks 1 s0 = Some s1 ∧ ticks 2 s0 = Some s2 ∧ ticks 3 s0 = Some s3
    ∧ (animationStep s1 = 1 ∧ isNodeCurrent "B" s1 = true
       ∧ isEdgeActive "B" "C" s1 = true ∧ isNodeVisited "A" s1 = true
       ∧ isAnimating s1 = true)
    ∧ (animationStep s2 = 2 ∧ isNodeCurrent "C" s2 = true
       ∧ isEdgeActive "B" "C" s2 = false ∧ isNodeVisited "A" s2 = true
       ∧ isAnimating s2 = true ∧ isFinished s2 = false)
    ∧ (animationStep s3 = 2 ∧ isNodeCurrent "C" s3 = true
       ∧ isEdgeActive "B" "C" s3 = false ∧ isNodeVisited "A" s3 = true
       ∧ isAnimating s3 = false ∧ isFinished s3 = true).
Proof.
  intros s0.
  destruct (ticks_playing scenarioABC 1 0 s0 ltac:(lia)
              (startAnimation_playing scenarioABC s))
    as (s1 & H1 & Ha1 & Hs1 & Hr1).
  destruct (ticks_playing scenarioABC 2 0 s0 ltac:(lia)
              (startAnimation_playing scenarioABC s))
    as (s2 & H2 & Ha2 & Hs2 & Hr2).
  destruct (ticks_playing scenarioABC 3 0 s0 ltac:(lia)
              (startAnimation_playing scenarioABC s))
    as (s3 & H3 & Ha3 & Hs3 & Hr3).
  change (animationStep s1 = 1) in Hs1. change (isAnimating s1 = true) in Hr1.
  change (animationStep s2 = 2) in Hs2. change (isAnimating s2 = true) in Hr2.
  change (animationStep s3 = 2) in Hs3. change (isAnimating s3 = false) in Hr3.
  exists s1, s2, s3.
  repeat split; try assumption.
  all: unfold isNodeCurrent, isEdgeActive, isNodeVisited, isFinished.
  all: rewrite ?Ha1, ?Hs1, ?Hr1, ?Ha2, ?Hs2, ?Hr2, ?Ha3, ?Hs3, ?Hr3; reflexivity.
Qed.
End Animation.

(** C8 - Tick frame effect, as the code has it.  Every tick leaves
    [transform.scale] as it was and raises no error, and while the read of
    [positions] at the next path node finds nothing the transform is left
    as it is and the step grows by one.  But the read also finds what
    [Object.prototype] provides: with the path [A, constructor] and no
    recorded position for [constructor], the tick that makes [constructor]
    current does not skip the recentring; it writes [x] and [y] that are
    no numbers. *)
Theorem tick_frame_effect :
  (∀ s : Main.State float, -1 ≤ Main.animationStep s →
     ∃ s', Main.tick s = Some s'
           ∧ scale (Main.transform s') = scale (Main.transform s))
  ∧ Main.tick statePlayingABC = Some (Main.setAnimationStep 1 statePlayingABC)
  ∧ Main.positions statePlayingAConstructor !! "constructor"%string = None
  ∧ ∃ s', Main.tick statePlayingAConstructor = Some s'
          ∧ Main.animationStep s' = 1
          ∧ PrimFloat.is_nan (t_x (Main.transform s')) = true
          ∧ PrimFloat.is_nan (t_y (Main.transform s')) = true
          ∧ scale (Main.transform s')
            = scale (Main.transform statePlayingAConstructor).
Proof.
  split; [exact (proj1 tick_frame)|].
  split.
  { apply (proj2 tick_frame statePlayingABC scenarioABC
             ["A"; "B"; "C"]%string "B"%string);
      vm_compute; reflexivity. }
  split; [vm_compute; reflexivity|].
  eexists. split; [vm_compute; reflexivity|].
  repeat split; reflexivity.
Qed.

(** *** The statements of the specification on the sample scenario *)

(** C2 as stated (the step goes from -1 to [N - 1] in [N] ticks, one per
    tick, and the player is then Finished) fails for the path [A, B, C]:
    the step is 0, not -1, before the first tick. *)
Lemma scenario_termination_as_stated_fails :
  ¬ ((∀ k : nat, (k ≤ 3)%nat →
        Main.animationStep
          <$> Main.ticks k (Main.startAnimation (num:=float) scenarioABC Main.initialState)
        = Some (Z.of_nat k - 1))
     ∧ isFinished
         <$> Main.ticks 3 (Main.startAnimation (num:=float) scenarioABC Main.initialState)
       = Some true).
Proof.
  intros [Hsteps _]. specialize (Hsteps 0%nat ltac:(lia)). discriminate Hsteps.
Qed.

(** C6 as stated fails: two ticks after the start the step is 2, not 1. *)
Lemma concrete_trace_as_stated_fails :
  ¬ ∃ s2 : Main.State float,
      Main.ticks 2 (Main.startAnimation scenarioABC Main.initialState) = Some s2
      ∧ Main.animationStep s2 = 1 ∧ Main.isNodeCurrent "C" s2 = true
      ∧ Main.isEdgeActive "B" "C" s2 = true ∧ Main.isNodeVisited "A" s2 = true
      ∧ isFinished s2 = true.
Proof.
  intros (s2 & H2 & Hstep & _). vm_compute in H2.
  injection H2 as <-. discriminate Hstep.
Qed.

(** C7 as stated fails: with node [A] selected, selecting a scenario
    leaves [A] selected. *)
Lemma scenario_select_keeps_selection :
  ¬ (let s' := Main.scenarioClick scenarioABC stateWithSelection in
     Main.animationStep s' = -1 ∧ Main.isAnimating s' = false
     ∧ Main.selectedNode s' = None).
Proof. intros (_ & _ & Hsel). discriminate Hsel. Qed.

(** ** Position editing *)
Section Edit.
Context {num : Type} `{!JSNum num}.
Implicit Types (s : Main.State num) (id : string) (orig : Position num).
Import Main.

Lemma position_copy orig : {| pos_x := pos_x orig; pos_y := pos_y orig |} = orig.
Proof. by destruct orig. Qed.

Lemma truthy_nonempty id : id ≠ ""%string → truthy_string id = true.
Proof. apply truthy_string_true. Qed.

Lemma startEditPosition_editing id orig s :
  positions s !! id = Some orig →
  editing id orig (positions s) (startEditPosition id s)
  ∧ positions (startEditPosition id s) = positions s
  ∧ transform (startEditPosition id s) = transform s.
Proof.
  intros Hpos. unfold startEditPosition, editing.
  rewrite (obj_read_own _ _ _ Hpos). cbn.
  rewrite position_copy, Hpos. repeat split; [eauto|]. by apply insert_id.
Qed.

Lemma handleNodeDragStart_editing e id orig m s :
  editing id orig m s →
  ∃ s' pos,
    handleNodeDragStart e id s = Some s'
    ∧ editing id orig m s' ∧ positions s' = positions s
    ∧ transform s' = transform s
    ∧ positions s !! id = Some pos
    ∧ nodeDragStart s' =
        Some {| mouseX := clientX e; mouseY := clientY e;
                nodeX := pos_x pos; nodeY := pos_y pos |}.
Proof.
  intros (Hn & Ho & [pos Hpos] & Hm). unfold handleNodeDragStart.
  rewrite bool_decide_eq_true_2 by done. cbn.
  rewrite (obj_read_own _ _ _ Hpos). cbn.
  eexists _, pos. split; [reflexivity|]. unfold editing. cbn.
  rewrite Hpos. eauto 10.
Qed.

Lemma handleMouseDown_editing e id orig m s :
  editing id orig m s → editing id orig m (handleMouseDown e s).
Proof.
  intros He. unfold handleMouseDown.
  destruct (nodeDragStart s); [done|]. by destruct (onBackground e).
Qed.

Lemma handleMouseMove_editing e id orig m s :
  editing id orig m s → editing id orig m (handleMouseMove e s).
Proof.
  intros (Hn & Ho & Hsome & Hm).
  unfold handleMouseMove, handleNodeDragMove, editing.
  rewrite Hn. cbn.
  destruct (nodeDragStart s) as [ds|]; cbn.
  - destruct (truthy_string id); cbn.
    + rewrite Hn, Ho, lookup_insert_eq, insert_insert_eq. eauto.
    + destruct (isDragging s); cbn; by rewrite ?Hn, ?Ho.
  - destruct (isDragging s); cbn; by rewrite ?Hn, ?Ho.
Qed.

Lemma handleMouseUp_editing id orig m s :
  editing id orig m s → editing id orig m (handleMouseUp s).
Proof.
  intros (Hn & Ho & Hm). unfold handleMouseUp, editing.
  by destruct (nodeDragStart s).
Qed.

(** Whatever the pointer does during an edit session, no handler throws
    and the session keeps the original position. *)
Lemma edit_session_lossless (evs : list (PointerEvent num)) id orig m s :
  editing id orig m s →
  ∃ s', runPointer evs s = Some s' ∧ editing id orig m s'.
Proof.
  revert s. induction evs as [|ev evs IH]; intros s He; [by exists s|].
  assert (∃ s1, handlePointer s ev = Some s1 ∧ editing id orig m s1)
    as (s1 & Hs1 & He1).
  { destruct ev as [e nodeId|e|e|]; cbn.
    - case_bool_decide as Hid.
      + assert (nodeId = id) as -> by (destruct He as (Hn & _); congruence).
        destruct (handleNodeDragStart_editing e id orig m s He)
          as (s1 & pos & Hs1 & He1 & _). eauto.
      + eauto using handleMouseDown_editing.
    - eauto using handleMouseDown_editing.
    - eauto using handleMouseMove_editing.
    - eauto using handleMouseUp_editing. }
  destruct (IH s1 He1) as (s' & Hs' & He').
  exists s'. split; [cbn; by rewrite Hs1|done].
Qed.

Lemma cancelEditPosition_restores id orig m s :
  id ≠ ""%string → editing id orig m s →
  positions (cancelEditPosition s) = m ∧ sessionEnded (cancelEditPosition s).
Proof.
  intros Hne (Hn & Ho & _ & Hm). unfold cancelEditPosition.
  rewrite Hn, Ho, truthy_nonempty by done. cbn.
  by rewrite position_copy.
Qed.

Lemma saveEditPosition_failure_restores msg id orig m s :
  id ≠ ""%string → editing id orig m s →
  let s' := saveEditPosition (ApiError msg) s in
  positions s' = m ∧ sessionEnded s'
  ∧ toast s' = Some {| message := "Failed to save position: " +:+ msg;
                       type := error |}.
Proof.
  intros Hne (Hn & Ho & [pos Hpos] & Hm). unfold saveEditPosition.
  rewrite Hn, truthy_nonempty by done. cbn.
  rewrite (obj_read_own _ _ _ Hpos), Ho. cbn.
  by rewrite position_copy.
Qed.

(** X11 - Any gesture: whatever sequence of presses, moves and releases
    follows the start of the edit, the handlers do not throw, and
    cancelling or failing to save gives back the positions of before the
    edit and ends the session. *)
Lemma edit_round_trip_any_gesture (evs : list (PointerEvent num)) s id orig :
  id ≠ ""%string →
  positions s !! id = Some orig →
  ∃ s',
    runPointer evs (startEditPosition id s) = Some s'
    ∧ positions (cancelEditPosition s') = positions s
    ∧ sessionEnded (cancelEditPosition s')
    ∧ ∀ msg,
        positions (saveEditPosition (ApiError msg) s') = positions s
        ∧ sessionEnded (saveEditPosition (ApiError msg) s').
Proof.
  intros Hne Hpos.
  destruct (startEditPosition_editing id orig s Hpos) as (He0 & _).
  destruct (edit_session_lossless evs id orig _ _ He0) as (s' & Hrun & He').
  exists s'. split; [exact Hrun|].
  destruct (cancelEditPosition_restores id orig _ _ Hne He') as [Hc Hend].
  split; [exact Hc|]. split; [exact Hend|].
  intros msg.
  destruct (saveEditPosition_failure_restores msg id orig _ _ Hne He')
    as (Hs & Hends & _).
  done.
Qed.

(** C3 - Drag round-trip: take a node with a non-empty id (the only ids
    the component loads and lets the user edit) and a recorded position
    [orig].  Enter the position edit, press on the node at [down], move to
    [move] and release, at any scale: the node is then drawn at [orig]
    plus the screen delta divided by the scale.  [cancelEditPosition] puts
    back exactly [orig] (the whole [positions] map is as before the edit)
    and ends the session; so does [saveEditPosition] when the save call
    fails, which also raises the error toast. *)
Theorem drag_round_trip s id orig (down move : MouseEvent num) :
  id ≠ ""%string →
  positions s !! id = Some orig →
  ∃ s1,
    handleNodeDragStart down id (startEditPosition id s) = Some s1
    ∧ let dragged := handleMouseUp (handleMouseMove move s1) in
      positions dragged
      = <[id := {| pos_x := (pos_x orig
                             + (clientX move - clientX down) / scale (transform s))%js;
                   pos_y := (pos_y orig
                             + (clientY move - clientY down) / scale (transform s))%js |}]>
          (positions s)
      ∧ (let s' := cancelEditPosition dragged in
         positions s' !! id = Some orig ∧ positions s' = positions s
         ∧ sessionEnded s')
      ∧ (∀ msg,
           let s' := saveEditPosition (ApiError msg) dragged in
           positions s' !! id = Some orig ∧ positions s' = positions s
           ∧ sessionEnded s'
           ∧ toast s' = Some {| message := "Failed to save position: " +:+ msg;
                                type := error |}).
Proof.
  intros Hne Hpos.
  destruct (startEditPosition_editing id orig s Hpos) as (He0 & Hp0 & Ht0).
  destruct (handleNodeDragStart_editing down id orig _ _ He0) as
    (s1 & pos & Hs1 & He1 & Hp1 & Ht1 & Hpos1 & Hds).
  rewrite Hp0, Hpos in Hpos1. injection Hpos1 as <-.
  exists s1. split; [exact Hs1|].
  pose proof (handleMouseUp_editing _ _ _ _ (handleMouseMove_editing move _ _ _ _ He1))
    as He2.
  assert (positions (handleMouseUp (handleMouseMove move s1))
          = <[id := {| pos_x := (pos_x orig
                             + (clientX move - clientX down) / scale (transform s))%js;
                   pos_y := (pos_y orig
                             + (clientY move - clientY down) / scale (transform s))%js |}]>
          (positions s)) as Hdragged.
  { destruct He1 as (Hn1 & _ & _).
    unfold handleMouseUp, handleMouseMove, handleNodeDragMove.
    rewrite Hds, Hn1. cbn. rewrite truthy_nonempty by done. cbn.
    rewrite Hds. cbn. by rewrite Hp1, Hp0, Ht1, Ht0. }
  cbn zeta. split; [exact Hdragged|]. split.
  - destruct (cancelEditPosition_restores id orig _ _ Hne He2) as [-> Hend].
    done.
  - intros msg.
    destruct (saveEditPosition_failure_restores msg id orig _ _ Hne He2)
      as (-> & Hend & Htoast).
    done.
Qed.
End Edit.

(** Node [A] at (400, 300), dragged by (30, -20) on screen at the initial
    scale. *)
Lemma drag_round_trip_witness :
  "A"%string ≠ ""%string
  ∧ Main.positions stateOfA !! "A"%string
    = Some {| pos_x := 400%float; pos_y := 300%float |}
  ∧ ∃ s1,
      Main.handleNodeDragStart (pressAt 10 10) "A" (Main.startEditPosition "A" stateOfA)
      = Some s1
      ∧ Main.positions
          (Main.cancelEditPosition
             (Main.handleMouseUp (Main.handleMouseMove (pressAt 40 (-10)) s1)))
        = Main.positions stateOfA.
Proof.
  assert ("A"%string ≠ ""%string) as Hne by discriminate.
  assert (Main.positions stateOfA !! "A"%string
          = Some {| pos_x := 400%float; pos_y := 300%float |}) as Hpos
    by (vm_compute; reflexivity).
  split; [exact Hne|]. split; [exact Hpos|].
  destruct (drag_round_trip stateOfA "A" _ (pressAt 10 10) (pressAt 40 (-10)) Hne Hpos)
    as (s1 & Hs1 & _ & (_ & Hcancel & _) & _).
  exists s1. split; [exact Hs1 | exact Hcancel].
Defined.

(** ** Zoom (exact arithmetic) *)

Lemma Q_max_case (a b : Q) :
  (Q_max a b = b /\ a < b)%Q \/ (Q_max a b = a /\ b <= a)%Q.
Proof. unfold Q_max. destruct (Qlt_le_dec a b); auto. Qed.

Lemma Q_min_case (a b : Q) :
  (Q_min a b = b /\ b < a)%Q \/ (Q_min a b = a /\ a <= b)%Q.
Proof. unfold Q_min. destruct (Qlt_le_dec b a); auto. Qed.

(** [Math.max(lo, Math.min(hi, v))] lies in [[lo, hi]]. *)
Lemma clamp_in_range (lo hi v : Q) :
  (lo <= hi)%Q -> (lo <= Q_max lo (Q_min hi v) /\ Q_max lo (Q_min hi v) <= hi)%Q.
Proof.
  intros Hle.
  destruct (Q_min_case hi v) as [[-> ?]|[-> ?]];
    destruct (Q_max_case lo v) as [[E ?]|[E ?]];
    destruct (Q_max_case lo hi) as [[E' ?]|[E' ?]]; rewrite ?E, ?E'; lra.
Qed.

Lemma applyZoom_in_range (s : Main.State Q) (op : ZoomOp Q) :
  scaleInRange (scale (Main.transform s)) ->
  scaleInRange (scale (Main.transform (applyZoom s op))).
Proof.
  unfold scaleInRange. intros [Hlo Hhi].
  destruct op as [e| | |]; cbn.
  - apply clamp_in_range. lra.
  - destruct (Q_min_case 2 (scale (Main.transform s) * 1.2)) as [[-> ?]|[-> ?]]; lra.
  - destruct (Q_max_case 0.15 (scale (Main.transform s) / 1.2)) as [[-> ?]|[-> ?]].
    + split; [lra|]. apply Qle_shift_div_r; lra.
    + lra.
  - lra.
Qed.

(** The wheel alone clamps from any scale. *)
Lemma handleWheel_in_range (e : WheelEvent Q) (s : Main.State Q) :
  scaleInRange (scale (Main.transform (Main.handleWheel e s))).
Proof. unfold scaleInRange. cbn. apply clamp_in_range. lra. Qed.

(** In exact arithmetic, any sequence of zoom operations keeps the scale
    in [[0.15, 2]]. *)
Lemma foldl_applyZoom_in_range (ops : list (ZoomOp Q)) (s : Main.State Q) :
  scaleInRange (scale (Main.transform s)) ->
  scaleInRange (scale (Main.transform (foldl applyZoom s ops))).
Proof.
  revert s. induction ops as [|op ops IH]; intros s Hs; cbn; [exact Hs|].
  apply IH. by apply applyZoom_in_range.
Qed.

(** The template clamps to [[0.2, 2]], inside the same range. *)
Lemma Template_zoom_in_range (rect : Template.DOMRect Q) (e : WheelEvent Q)
    (t : Transform Q) :
  scaleInRange (scale t) ->
  scaleInRange (scale (Template.handleWheel rect e t))
  /\ scaleInRange (scale (Template.zoomInClick t))
  /\ scaleInRange (scale (Template.zoomOutClick t))
  /\ scaleInRange (scale (Template.resetClick t)).
Proof.
  unfold scaleInRange. intros [Hlo Hhi]. repeat apply conj.
  - unfold Template.handleWheel. destruct (ctrlKey e || metaKey e); cbn; [|lra].
    pose proof (clamp_in_range 0.2 2
                  (scale t * (if Q_gt (deltaY e) 0 then 0.9 else 1.1))
                  ltac:(lra)) as [? ?]. lra.
  - unfold Template.handleWheel. destruct (ctrlKey e || metaKey e); cbn; [|lra].
    pose proof (clamp_in_range 0.2 2
                  (scale t * (if Q_gt (deltaY e) 0 then 0.9 else 1.1))
                  ltac:(lra)) as [? ?]. lra.
  - cbn. destruct (Q_min_case 2 (scale t * 1.2)) as [[-> ?]|[-> ?]]; lra.
  - cbn. destruct (Q_min_case 2 (scale t * 1.2)) as [[-> ?]|[-> ?]]; lra.
  - cbn. destruct (Q_max_case 0.2 (scale t / 1.2)) as [[-> ?]|[-> ?]]; lra.
  - cbn. destruct (Q_max_case 0.2 (scale t / 1.2)) as [[-> ?]|[-> ?]];
      [apply Qle_shift_div_r; lra | lra].
  - cbn. lra.
  - cbn. lra.
Qed.

(** The template's wheel zoom changes [x] and [y] so that the point under
    the cursor stays where it is. *)
Lemma Template_zoom_anchor (rect : Template.DOMRect Q) (e : WheelEvent Q)
    (t : Transform Q) :
  (ctrlKey e || metaKey e) = true ->
  ~ (scale t == 0)%Q ->
  let p := {| pos_x := (wheel_clientX e - Template.left rect)%Q;
              pos_y := (wheel_clientY e - Template.top rect)%Q |} in
  pointEq (worldToScreen (Template.handleWheel rect e t) (screenToWorld t p)) p.
Proof.
  intros Hctrl Hs p. subst p. unfold Template.handleWheel. rewrite Hctrl.
  unfold pointEq, worldToScreen, screenToWorld. cbn.
  set (newScale := Q_max _ _). split; field; exact Hs.
Qed.

(** C1 - Zoom anchor: in kg_frontend_template.jsx a wheel zoom (ctrl or
    meta held) at the cursor point [p] of a transform with non-zero scale
    re-solves [x] and [y] as [p - (p - x) * ratio], [ratio = newScale / scale],
    and the world point that was under [p] is still drawn at [p] (numbers
    taken as exact rationals).  In main.jsx the wheel changes [scale] only:
    [x] and [y] stay as they were. *)
Theorem zoom_anchor_invariance :
  (∀ (rect : Template.DOMRect Q) (e : WheelEvent Q) (t : Transform Q),
     (ctrlKey e || metaKey e) = true →
     ¬ (scale t == 0)%Q →
     let p := {| pos_x := (wheel_clientX e - Template.left rect)%Q;
                 pos_y := (wheel_clientY e - Template.top rect)%Q |} in
     let t' := Template.handleWheel rect e t in
     let ratio := (scale t' / scale t)%Q in
     t_x t' = (pos_x p - (pos_x p - t_x t) * ratio)%Q
     ∧ t_y t' = (pos_y p - (pos_y p - t_y t) * ratio)%Q
     ∧ pointEq (worldToScreen t' (screenToWorld t p)) p)
  ∧ (∀ (e : WheelEvent Q) (s : Main.State Q),
       t_x (Main.transform (Main.handleWheel e s)) = t_x (Main.transform s)
       ∧ t_y (Main.transform (Main.handleWheel e s)) = t_y (Main.transform s)).
Proof.
  split.
  - intros rect e t Hctrl Hs p t' ratio. split; [|split].
    + subst ratio t' p. unfold Template.handleWheel. rewrite Hctrl. reflexivity.
    + subst ratio t' p. unfold Template.handleWheel. rewrite Hctrl. reflexivity.
    + by apply Template_zoom_anchor.
  - intros e s. split; reflexivity.
Qed.

(** The template at its initial transform, cursor at (100, 100). *)
Lemma zoom_anchor_invariance_witness :
  (ctrlKey wheelUpAt100 || metaKey wheelUpAt100) = true
  ∧ ¬ (scale (Template.initialTransform (num:=Q)) == 0)%Q
  ∧ pointEq
      (worldToScreen
         (Template.handleWheel rectAtOrigin wheelUpAt100 Template.initialTransform)
         (screenToWorld Template.initialTransform {| pos_x := 100%Q; pos_y := 100%Q |}))
      {| pos_x := 100%Q; pos_y := 100%Q |}.
Proof.
  assert ((ctrlKey wheelUpAt100 || metaKey wheelUpAt100) = true) as Hctrl
    by reflexivity.
  assert (¬ (scale (Template.initialTransform (num:=Q)) == 0)%Q) as Hs
    by (vm_compute; discriminate).
  split; [exact Hctrl|]. split; [exact Hs|].
  destruct (proj1 zoom_anchor_invariance rectAtOrigin wheelUpAt100
              Template.initialTransform Hctrl Hs) as (_ & _ & Hanchor).
  exact Hanchor.
Defined.

(** C1 as stated fails in main.jsx: at the initial transform
    (50, 50, 0.45) a wheel zoom with the cursor at (100, 100) moves the
    point under the cursor to (105, 105). *)
Lemma main_zoom_moves_cursor_point :
  ¬ (let s := Main.initialState in
     let p := {| pos_x := wheel_clientX wheelUpAt100;
                 pos_y := wheel_clientY wheelUpAt100 |} in
     pointEq
       (worldToScreen (Main.transform (Main.handleWheel wheelUpAt100 s))
          (screenToWorld (Main.transform s) p))
       p).
Proof. intros [Hx _]. vm_compute in Hx. discriminate Hx. Qed.

Example main_zoom_cursor_point_lands_at_105 :
  pointEq
    (worldToScreen (Main.transform (Main.handleWheel wheelUpAt100 Main.initialState))
       (screenToWorld (Main.transform Main.initialState)
          {| pos_x := 100%Q; pos_y := 100%Q |}))
    {| pos_x := 105%Q; pos_y := 105%Q |}.
Proof. split; reflexivity. Qed.

(** ** Zoom (binary64) *)

(** *** Rounding to 53 bits

    [digits2_pos m] is the number of bits of [m]. *)
Lemma digits2_pos_spec (m : positive) :
  2 ^ (Zpos (digits2_pos m) - 1) <= Zpos m < 2 ^ Zpos (digits2_pos m).
Proof.
  induction m as [m IH|m IH|]; cbn [digits2_pos].
  - rewrite Pos2Z.inj_succ.
    replace (Z.succ (Zpos (digits2_pos m)) - 1) with (Z.succ (Zpos (digits2_pos m) - 1)) by lia.
    rewrite !Z.pow_succ_r by lia. lia.
  - rewrite Pos2Z.inj_succ.
    replace (Z.succ (Zpos (digits2_pos m)) - 1) with (Z.succ (Zpos (digits2_pos m) - 1)) by lia.
    rewrite !Z.pow_succ_r by lia. lia.
  - cbn. lia.
Qed.

Lemma digits2_pos_unique (m : positive) (d : Z) :
  2 ^ (d - 1) <= Zpos m < 2 ^ d -> Zpos (digits2_pos m) = d.
Proof.
  intros [Hlo Hhi]. pose proof (digits2_pos_spec m) as [Hlo' Hhi'].
  assert (0 < d).
  { destruct (Z.le_gt_cases d 0) as [Hd|]; [|lia].
    assert (2 ^ d <= 2 ^ 0) by (apply Z.pow_le_mono_r; lia). cbn in *. lia. }
  assert (Zpos (digits2_pos m) - 1 < d).
  { apply (Z.pow_lt_mono_r_iff 2); lia. }
  assert (d - 1 < Zpos (digits2_pos m)).
  { apply (Z.pow_lt_mono_r_iff 2); lia. }
  lia.
Qed.

(** A right shift by [n] bits divides the mantissa by [2^n]. *)
Lemma shr_1_m (mrs : shr_record) :
  0 <= shr_m mrs -> shr_m (shr_1 mrs) = shr_m mrs / 2.
Proof.
  destruct mrs as [m r s]. cbn [shr_m]. intros Hm.
  destruct m as [|[p|p|]|p]; cbn [shr_1 shr_m]; try lia; try reflexivity.
  - rewrite Pos2Z.inj_xI. apply Z.div_unique with 1; lia.
  - rewrite Pos2Z.inj_xO. apply Z.div_unique with 0; lia.
Qed.

Lemma pow2_xI (p : positive) : 2 ^ Zpos p~1 = 2 * 2 ^ Zpos p * 2 ^ Zpos p.
Proof.
  rewrite Pos2Z.inj_xI. replace (2 * Zpos p + 1) with (1 + Zpos p + Zpos p) by lia.
  rewrite Z.pow_add_r, Z.pow_add_r by lia. reflexivity.
Qed.

Lemma pow2_xO (p : positive) : 2 ^ Zpos p~0 = 2 ^ Zpos p * 2 ^ Zpos p.
Proof.
  replace (Zpos p~0) with (Zpos p + Zpos p) by lia.
  rewrite Z.pow_add_r by lia. reflexivity.
Qed.

Lemma iter_pos_shr_1_m (p : positive) (mrs : shr_record) :
  0 <= shr_m mrs ->
  shr_m (SpecFloat.iter_pos shr_1 p mrs) = shr_m mrs / 2 ^ Zpos p.
Proof.
  revert mrs. induction p as [p IH|p IH|]; intros mrs Hm; cbn [SpecFloat.iter_pos].
  - assert (0 <= shr_m (shr_1 mrs)) by (rewrite shr_1_m by done; apply Z.div_pos; lia).
    assert (0 <= shr_m (SpecFloat.iter_pos shr_1 p (shr_1 mrs)))
      by (rewrite IH by done; apply Z.div_pos; lia).
    rewrite IH, IH, shr_1_m by done.
    rewrite !Z.div_div by lia. rewrite pow2_xI. f_equal. lia.
  - assert (0 <= shr_m (SpecFloat.iter_pos shr_1 p mrs))
      by (rewrite IH by done; apply Z.div_pos; lia).
    rewrite IH, IH by done. rewrite Z.div_div by lia. rewrite pow2_xO. reflexivity.
  - rewrite shr_1_m by done. reflexivity.
Qed.

Lemma shr_m_of_loc (m : Z) (l : location) : shr_m (shr_record_of_loc m l) = m.
Proof. by destruct l as [|[]]. Qed.

Lemma fexp_normal (z : Z) : -1021 <= z -> fexp prec emax z = z - 53.
Proof. unfold fexp, emin, prec, emax. lia. Qed.

Lemma Zdigits2_unique (M d : Z) :
  2 ^ (d - 1) <= M < 2 ^ d -> 0 < M -> Zdigits2 M = d.
Proof.
  intros HM Hpos. destruct M as [|p|p]; try lia.
  cbn [Zdigits2]. by apply digits2_pos_unique.
Qed.

Lemma shr_fexp_normal (M d E : Z) (l : location) :
  53 <= d -> 2 ^ (d - 1) <= M < 2 ^ d -> -1021 <= d + E ->
  exists mrs, shr_fexp prec emax M E l = (mrs, E + (d - 53))
              /\ shr_m mrs = M / 2 ^ (d - 53).
Proof.
  intros Hd HM HE.
  assert (0 < 2 ^ (d - 1)) by (apply Z.pow_pos_nonneg; lia).
  unfold shr_fexp. rewrite (Zdigits2_unique M d) by lia.
  rewrite fexp_normal by lia.
  replace (d + E - 53 - E) with (d - 53) by lia.
  unfold shr. destruct (d - 53) as [|n|n] eqn:Hn; try lia.
  - eexists. split; [f_equal; lia|].
    rewrite shr_m_of_loc. change (2 ^ 0) with 1. by rewrite Z.div_1_r.
  - eexists. split; [reflexivity|].
    rewrite iter_pos_shr_1_m by (rewrite shr_m_of_loc; lia).
    by rewrite shr_m_of_loc.
Qed.

Lemma round_nearest_even_cases (m : Z) (l : location) :
  round_nearest_even m l = m \/ round_nearest_even m l = m + 1.
Proof. destruct l as [|[]]; cbn; try destruct (Z.even m); auto. Qed.

(** Rounding a mantissa [M] of [d >= 53] bits in the normal range keeps
    its 53 leading bits [M / 2^(d-53)], or adds one to them; when that
    carries into a 54th bit the result is [2^52] one exponent higher. *)
Lemma round_aux_normal (M d E : Z) (l : location) :
  53 <= d -> 2 ^ (d - 1) <= M < 2 ^ d -> -1021 <= d + E -> E + d <= 1023 ->
  exists mr er,
    binary_round_aux prec emax false M E l = S754_finite false mr er
    /\ ((er = E + d - 53 /\ M / 2 ^ (d - 53) <= Zpos mr <= M / 2 ^ (d - 53) + 1
         /\ Zpos mr < 2 ^ 53)
        \/ (er = E + d - 52 /\ Zpos mr = 2 ^ 52
            /\ M / 2 ^ (d - 53) + 1 = 2 ^ 53)).
Proof.
  intros Hd HM HE Hhi.
  destruct (shr_fexp_normal M d E l Hd HM HE) as (mrs & Heq & Hm).
  unfold binary_round_aux. rewrite Heq. cbv beta iota.
  set (q := M / 2 ^ (d - 53)) in *.
  assert (2 ^ 52 <= q < 2 ^ 53) as Hq.
  { assert (0 < 2 ^ (d - 53)) by (apply Z.pow_pos_nonneg; lia).
    assert (2 ^ (d - 1) = 2 ^ 52 * 2 ^ (d - 53)) as E1
      by (rewrite <- Z.pow_add_r by lia; f_equal; lia).
    assert (2 ^ d = 2 ^ 53 * 2 ^ (d - 53)) as E2
      by (rewrite <- Z.pow_add_r by lia; f_equal; lia).
    subst q. split.
    - apply Z.div_le_lower_bound; lia.
    - apply Z.div_lt_upper_bound; lia. }
  rewrite Hm.
  set (r := round_nearest_even q (loc_of_shr_record mrs)).
  assert (r = q \/ r = q + 1) as Hr by apply round_nearest_even_cases.
  destruct (Z.eq_dec r (2 ^ 53)) as [Hover|Hnover].
  - destruct (shr_fexp_normal r 54 (E + (d - 53)) loc_Exact) as (mrs' & Heq' & Hm');
      [lia|rewrite Hover; cbn; lia|lia|].
    rewrite Heq'. cbv beta iota. rewrite Hm', Hover.
    change (2 ^ 53 / 2 ^ (54 - 53)) with (Zpos 4503599627370496).
    cbv beta iota.
    replace (E + (d - 53) + (54 - 53) <=? emax - prec) with true
      by (symmetry; apply Z.leb_le; unfold emax, prec; lia).
    eexists _, _. split; [reflexivity|]. right.
    split; [lia|]. split; [reflexivity|]. lia.
  - assert (2 ^ 52 <= r < 2 ^ 53) as Hr' by (change (2 ^ 52) with 4503599627370496 in *; change (2 ^ 53) with 9007199254740992 in *; lia).
    destruct (shr_fexp_normal r 53 (E + (d - 53)) loc_Exact) as (mrs' & Heq' & Hm');
      [lia|exact Hr'|lia|].
    rewrite Heq'. cbv beta iota. rewrite Hm'.
    change (2 ^ (53 - 53)) with 1. rewrite Z.div_1_r.
    destruct r as [|mr|mr] eqn:Hrz; [cbn in Hr'; lia| |cbn in Hr'; lia].
    replace (E + (d - 53) + (53 - 53) <=? emax - prec) with true
      by (symmetry; apply Z.leb_le; unfold emax, prec; lia).
    eexists _, _. split; [reflexivity|]. left.
    split; [lia|]. split; [lia|]. lia.
Qed.

(** *** Order of positive finite doubles *)
Lemma SFcompare_finite (m1 m2 : positive) (e1 e2 : Z) :
  SFcompare (S754_finite false m1 e1) (S754_finite false m2 e2)
  = Some (match e1 ?= e2 with
          | Lt => Lt | Gt => Gt | Eq => Pos.compare m1 m2 end).
Proof. reflexivity. Qed.

Lemma SFleb_finite (m1 m2 : positive) (e1 e2 : Z) :
  SFleb (S754_finite false m1 e1) (S754_finite false m2 e2) = true
  <-> key_le e1 m1 e2 m2.
Proof.
  unfold SFleb, key_le. rewrite SFcompare_finite.
  destruct (Z.compare_spec e1 e2); [destruct (Pos.compare_spec m1 m2)|..];
    split; try done; try lia.
Qed.

Lemma SFltb_finite (m1 m2 : positive) (e1 e2 : Z) :
  SFltb (S754_finite false m1 e1) (S754_finite false m2 e2) = false
  <-> key_le e2 m2 e1 m1.
Proof.
  unfold SFltb, key_le. rewrite SFcompare_finite.
  destruct (Z.compare_spec e1 e2); [destruct (Pos.compare_spec m1 m2)|..];
    split; try done; try lia.
Qed.


Lemma posfin_not_nan (x : float) (m : positive) (e : Z) :
  posfin x m e -> is_nan x = false.
Proof.
  unfold posfin, is_nan. intros Hx. rewrite FloatAxioms.eqb_spec, Hx.
  unfold SFeqb. rewrite SFcompare_finite, Z.compare_refl, Pos.compare_refl.
  reflexivity.
Qed.

Lemma posfin_leb (x y : float) mx ex my ey :
  posfin x mx ex -> posfin y my ey ->
  (x <=? y)%float = true <-> key_le ex mx ey my.
Proof. unfold posfin. intros Hx Hy. rewrite FloatAxioms.leb_spec, Hx, Hy. apply SFleb_finite. Qed.

Lemma posfin_ltb (x y : float) mx ex my ey :
  posfin x mx ex -> posfin y my ey ->
  (x <? y)%float = false <-> key_le ey my ex mx.
Proof. unfold posfin. intros Hx Hy. rewrite FloatAxioms.ltb_spec, Hx, Hy. apply SFltb_finite. Qed.

Lemma posfin_normal (x : float) (m : positive) (e : Z) :
  posfin x m e -> -1074 < e -> 2 ^ 52 <= Zpos m < 2 ^ 53.
Proof.
  unfold posfin. intros Hx He. pose proof (Prim2SF_valid x) as Hv.
  rewrite Hx in Hv. cbn [valid_binary] in Hv. unfold bounded in Hv.
  apply andb_prop in Hv as [Hc _]. unfold canonical_mantissa in Hc.
  apply Z.eqb_eq in Hc. unfold fexp, emin, prec, emax in Hc.
  pose proof (digits2_pos_spec m) as Hd.
  assert (Zpos (digits2_pos m) = 53) as Hd53 by lia.
  rewrite Hd53 in Hd. exact Hd.
Qed.

(** *** Products and quotients of normal doubles

    The product of two positive normal doubles is a positive double; when
    the second factor is in [[1, 2)] it is not below the first. *)
Lemma mul_normal (x y : float) mx ex my ey :
  posfin x mx ex -> posfin y my ey ->
  -400 <= ex <= 400 -> -400 <= ey <= 400 ->
  exists mr er, posfin (x * y) mr er
    /\ (ey = -52 -> key_le ex mx er mr).
Proof.
  intros Hx Hy Hex Hey.
  pose proof (posfin_normal _ _ _ Hx ltac:(lia)) as Hmx.
  pose proof (posfin_normal _ _ _ Hy ltac:(lia)) as Hmy.
  unfold posfin in *. rewrite FloatAxioms.mul_spec, Hx, Hy.
  unfold SF64mul, SFmul. cbn [xorb].
  change (2 ^ 52) with 4503599627370496 in *.
  change (2 ^ 53) with 9007199254740992 in *.
  rewrite Pos2Z.inj_mul.
  set (M := Zpos mx * Zpos my).
  assert (4503599627370496 * 4503599627370496 <= M) as HMlo by (subst M; nia).
  assert (M < 9007199254740992 * 9007199254740992) as HMhi by (subst M; nia).
  assert (4503599627370496 * Zpos mx <= M) as HMx by (subst M; nia).
  clearbody M.
  destruct (Z.lt_ge_cases M (2 ^ 105)) as [Hlt|Hge].
  - destruct (round_aux_normal M 105 (ex + ey) loc_Exact) as (mr & er & Heq & Hcases);
      [lia|split; [change (2 ^ (105 - 1)) with (4503599627370496 * 4503599627370496); lia|exact Hlt]|lia|lia|].
    exists mr, er. split; [exact Heq|]. intros ->.
    change (2 ^ (105 - 53)) with 4503599627370496 in Hcases.
    assert (Zpos mx <= M / 4503599627370496)
      by (apply Z.div_le_lower_bound; lia).
    unfold key_le. destruct Hcases as [(-> & Hm & _)|(-> & _ & _)]; lia.
  - destruct (round_aux_normal M 106 (ex + ey) loc_Exact) as (mr & er & Heq & Hcases);
      [lia|split; [exact Hge|change (2 ^ 106) with (9007199254740992 * 9007199254740992); lia]|lia|lia|].
    exists mr, er. split; [exact Heq|]. intros ->.
    unfold key_le. destruct Hcases as [(-> & _)|(-> & _)]; lia.
Qed.

(** Dividing a positive normal double by the double 1.2 gives a positive
    double that is not above it. *)
Lemma div_eucl_div_mod (a b : Z) : Z.div_eucl a b = (a / b, a mod b).
Proof. unfold Z.div, Z.modulo. by destruct (Z.div_eucl a b). Qed.

Lemma div_normal (x y : float) mx ex :
  posfin x mx ex -> posfin y 5404319552844595 (-52) ->
  -400 <= ex <= 400 ->
  exists mr er, posfin (x / y) mr er /\ key_le er mr ex mx.
Proof.
  intros Hx Hy Hex.
  pose proof (posfin_normal _ _ _ Hx ltac:(lia)) as Hmx.
  set (my := 5404319552844595%positive) in *.
  assert (2 ^ 52 <= Zpos my < 2 ^ 53) as Hmy by (subst my; cbn; lia).
  unfold posfin in *. rewrite FloatAxioms.div_spec, Hx, Hy.
  unfold SF64div, SFdiv, SFdiv_core_binary. cbn [xorb].
  rewrite (Zdigits2_unique (Zpos mx) 53), (Zdigits2_unique (Zpos my) 53) by (try exact Hmx; try exact Hmy; lia).
  rewrite fexp_normal by lia.
  replace (Z.min (53 + ex - (53 + -52) - 53) (ex - -52)) with (ex - 1) by lia.
  replace (ex - -52 - (ex - 1)) with 53 by lia.
  rewrite Z.shiftl_mul_pow2 by lia.
  rewrite div_eucl_div_mod.
  change (2 ^ 52) with 4503599627370496 in *.
  change (2 ^ 53) with 9007199254740992 in *.
  set (q := Zpos mx * 9007199254740992 / Zpos my).
  set (l := new_location _ _).
  assert (Zpos mx <= q) as Hqlo by (apply Z.div_le_lower_bound; lia).
  assert (q * Zpos my <= Zpos mx * 9007199254740992) as Hqmul
    by (rewrite Z.mul_comm; apply Z.mul_div_le; lia).
  assert (q < 2 * 9007199254740992) as Hqhi
    by (apply Z.div_lt_upper_bound; nia).
  clearbody q l. subst my.
  destruct (Z.lt_ge_cases q (2 ^ 53)) as [Hlt|Hge].
  - destruct (round_aux_normal q 53 (ex - 1) l) as (mr & er & Heq & Hcases);
      [lia|split; [change (2 ^ (53 - 1)) with 4503599627370496; lia|exact Hlt]|lia|lia|].
    exists mr, er. split; [exact Heq|].
    change (2 ^ 52) with 4503599627370496 in *.
    unfold key_le. destruct Hcases as [(-> & _)|(-> & -> & _)]; lia.
  - destruct (round_aux_normal q 54 (ex - 1) l) as (mr & er & Heq & Hcases);
      [lia|split; [exact Hge|change (2 ^ 54) with (2 * 9007199254740992); lia]|lia|lia|].
    exists mr, er. split; [exact Heq|].
    change (2 ^ (54 - 53)) with 2 in Hcases.
    change (2 ^ 53) with 9007199254740992 in *.
    pose proof (Z.mul_div_le q 2 ltac:(lia)) as Hhalf.
    assert (q / 2 + 1 <= Zpos mx) by lia.
    unfold key_le. destruct Hcases as [(-> & Hm & _)|(_ & _ & Hover)]; lia.
Qed.

Lemma key_le_trans e1 m1 e2 m2 e3 m3 :
  key_le e1 m1 e2 m2 -> key_le e2 m2 e3 m3 -> key_le e1 m1 e3 m3.
Proof. unfold key_le. lia. Qed.

Lemma posfin_ltb_true (x y : float) mx ex my ey :
  posfin x mx ex -> posfin y my ey ->
  (x <? y)%float = true -> key_le ex mx ey my.
Proof.
  unfold posfin. intros Hx Hy. rewrite FloatAxioms.ltb_spec, Hx, Hy.
  unfold SFltb, key_le. rewrite SFcompare_finite.
  destruct (Z.compare_spec ex ey); [destruct (Pos.compare_spec mx my)|..];
    try done; lia.
Qed.

(** *** The clamps of main.jsx

    The literals of the zoom handlers. *)
Lemma lit_0_15 : posfin (lit 0.15) 5404319552844595 (-55).
Proof. reflexivity. Qed.

Lemma lit_2 : posfin (lit 2) 4503599627370496 (-51).
Proof. reflexivity. Qed.

Lemma lit_1_2 : posfin (lit 1.2) 5404319552844595 (-52).
Proof. reflexivity. Qed.

Lemma lit_0_9 : posfin (lit 0.9) 8106479329266893 (-53).
Proof. reflexivity. Qed.

Lemma lit_1_1 : posfin (lit 1.1) 4953959590107546 (-52).
Proof. reflexivity. Qed.

(** A scale is in range iff it is a positive finite double between the
    doubles 0.15 and 2. *)
Lemma scaleInRange64_posfin (x : float) :
  scaleInRange64 x = true <->
  exists m e, posfin x m e
    /\ key_le (-55) 5404319552844595 e m /\ key_le e m (-51) 4503599627370496.
Proof.
  unfold scaleInRange64. rewrite andb_true_iff. split.
  - intros [Hlo Hhi]. destruct (Prim2SF x) as [s|s| |s m e] eqn:Hx.
    + rewrite FloatAxioms.leb_spec, Hx in Hlo. by destruct s.
    + rewrite FloatAxioms.leb_spec, Hx in Hlo, Hhi. by destruct s.
    + by rewrite FloatAxioms.leb_spec, Hx in Hlo.
    + destruct s; [by rewrite FloatAxioms.leb_spec, Hx in Hlo|].
      exists m, e. split; [exact Hx|]. split.
      * by apply (posfin_leb _ _ _ _ _ _ lit_0_15 Hx).
      * by apply (posfin_leb _ _ _ _ _ _ Hx lit_2).
  - intros (m & e & Hx & Hlo & Hhi). split.
    + by apply (posfin_leb _ _ _ _ _ _ lit_0_15 Hx).
    + by apply (posfin_leb _ _ _ _ _ _ Hx lit_2).
Qed.

Lemma float_min_2 (p : float) m e :
  posfin p m e ->
  float_min (lit 2) p = lit 2
  \/ (float_min (lit 2) p = p /\ key_le e m (-51) 4503599627370496).
Proof.
  intros Hp. unfold float_min.
  rewrite (posfin_not_nan _ _ _ lit_2), (posfin_not_nan _ _ _ Hp). cbn [orb].
  destruct (lit 2 <? p)%float eqn:H2p; [by left|]. right.
  apply (posfin_ltb _ _ _ _ _ _ lit_2 Hp) in H2p.
  split; [|exact H2p]. by destruct (p <? lit 2)%float.
Qed.

Lemma float_max_0_15 (q : float) m e :
  posfin q m e -> key_le e m (-51) 4503599627370496 ->
  scaleInRange64 (float_max (lit 0.15) q) = true.
Proof.
  intros Hq Hhi. unfold float_max.
  rewrite (posfin_not_nan _ _ _ lit_0_15), (posfin_not_nan _ _ _ Hq). cbn [orb].
  destruct (lit 0.15 <? q)%float eqn:Hlt.
  - apply scaleInRange64_posfin. exists m, e. split; [exact Hq|]. split; [|exact Hhi].
    by apply (posfin_ltb_true _ _ _ _ _ _ lit_0_15 Hq).
  - by destruct (q <? lit 0.15)%float.
Qed.

Lemma zoom_in_in_range (x : float) :
  scaleInRange64 x = true -> scaleInRange64 (float_min (lit 2) (x * lit 1.2)) = true.
Proof.
  intros (m & e & Hx & Hlo & Hhi)%scaleInRange64_posfin.
  destruct (mul_normal _ _ _ _ _ _ Hx lit_1_2) as (mr & er & Hp & Hge);
    [unfold key_le in *; lia|lia|].
  destruct (float_min_2 _ _ _ Hp) as [->|[-> Hle]]; [reflexivity|].
  apply scaleInRange64_posfin. exists mr, er. split; [exact Hp|]. split; [|exact Hle].
  eapply key_le_trans; [exact Hlo|]. by apply Hge.
Qed.

Lemma zoom_out_in_range (x : float) :
  scaleInRange64 x = true -> scaleInRange64 (float_max (lit 0.15) (x / lit 1.2)) = true.
Proof.
  intros (m & e & Hx & Hlo & Hhi)%scaleInRange64_posfin.
  destruct (div_normal _ _ _ _ Hx lit_1_2) as (mr & er & Hq & Hle);
    [unfold key_le in *; lia|].
  apply (float_max_0_15 _ _ _ Hq). by eapply key_le_trans.
Qed.

Lemma wheel_in_range (x delta : float) :
  scaleInRange64 x = true -> delta = lit 0.9 \/ delta = lit 1.1 ->
  scaleInRange64 (float_max (lit 0.15) (float_min (lit 2) (x * delta))) = true.
Proof.
  intros (m & e & Hx & Hlo & Hhi)%scaleInRange64_posfin Hdelta.
  assert (exists mr er, posfin (x * delta) mr er) as (mr & er & Hp).
  { destruct Hdelta as [->| ->].
    - destruct (mul_normal _ _ _ _ _ _ Hx lit_0_9) as (mr & er & Hp & _);
        [unfold key_le in *; lia|lia|]. by exists mr, er.
    - destruct (mul_normal _ _ _ _ _ _ Hx lit_1_1) as (mr & er & Hp & _);
        [unfold key_le in *; lia|lia|]. by exists mr, er. }
  destruct (float_min_2 _ _ _ Hp) as [->|[-> Hle]].
  - apply (float_max_0_15 _ _ _ lit_2). unfold key_le. lia.
  - by apply (float_max_0_15 _ _ _ Hp).
Qed.

(** One zoom operation, the wheel reading a rendered scale in range. *)
Lemma applyZoomFrom_in_range (r : Transform float) (s : Main.State float)
    (op : ZoomOp float) :
  scaleInRange64 (scale r) = true ->
  scaleInRange64 (scale (Main.transform s)) = true ->
  scaleInRange64 (scale (Main.transform (applyZoomFrom r s op))) = true.
Proof.
  intros Hr Hs. destruct op as [e| | |].
  - apply (wheel_in_range (scale r)); [exact Hr|].
    destruct (deltaY e >? lit 0)%js; auto.
  - by apply (zoom_in_in_range (scale (Main.transform s))).
  - by apply (zoom_out_in_range (scale (Main.transform s))).
  - reflexivity.
Qed.

Lemma canvasStep_in_range (c : Canvas float) (ev : CanvasEvent float) :
  scaleInRange64 (scale (rendered c)) = true ->
  scaleInRange64 (scale (Main.transform (current c))) = true ->
  scaleInRange64 (scale (rendered (canvasStep c ev))) = true
  /\ scaleInRange64 (scale (Main.transform (current (canvasStep c ev)))) = true.
Proof.
  intros Hr Hs. destruct ev as [|op]; cbn [canvasStep rendered current].
  - by split.
  - split; [exact Hr|]. by apply applyZoomFrom_in_range.
Qed.

(** With a render after every operation the wheel reads the scale it
    writes over: [applyZoom]. *)
Lemma applyZoom_rendered {num} `{!JSNum num} (s : Main.State num) (op : ZoomOp num) :
  applyZoom s op = applyZoomFrom (Main.transform s) s op.
Proof. by destruct op. Qed.

(** C5 - Scale clamping, in binary64: starting from a transform whose
    scale is a double in [[0.15, 2]], any sequence of wheel zooms (any
    event), clicks on the three zoom buttons and renders leaves the scale
    a double in [[0.15, 2]].  The wheel handler multiplies the scale of
    the last render; the products and the quotient are rounded. *)
Theorem scale_clamping (evs : list (CanvasEvent float)) (s : Main.State float) :
  scaleInRange64 (scale (Main.transform s)) = true ->
  scaleInRange64
    (scale (Main.transform (current (foldl canvasStep (mounted s) evs)))) = true.
Proof.
  intros Hs.
  assert (forall c : Canvas float,
            scaleInRange64 (scale (rendered c)) = true ->
            scaleInRange64 (scale (Main.transform (current c))) = true ->
            scaleInRange64
              (scale (Main.transform (current (foldl canvasStep c evs)))) = true)
    as Hgen.
  { induction evs as [|ev evs IH]; intros c Hr Hc; cbn [foldl]; [exact Hc|].
    destruct (canvasStep_in_range c ev Hr Hc) as [Hr' Hc']. by apply IH. }
  by apply Hgen.
Qed.

(** From the initial scale 0.45: eleven clicks on "+" would reach 3.34
    unclamped, two wheel notches before the next render read the same
    scale. *)
Lemma scale_clamping_witness :
  scaleInRange64 (scale (Main.transform (Main.initialState (num:=float)))) = true
  /\ scaleInRange64
       (scale (Main.transform
                 (current (foldl canvasStep (mounted Main.initialState)
                             sampleCanvasEvents)))) = true.
Proof.
  assert (scaleInRange64 (scale (Main.transform (Main.initialState (num:=float))))
          = true) as H0 by reflexivity.
  split; [exact H0|]. exact (scale_clamping sampleCanvasEvents _ H0).
Defined.

(** The same run, computed: after the eleven clicks the scale is 2, the
    two notches both write 2 * 0.9, the click on "-" divides that by
    1.2. *)
Example sample_canvas_run :
  map (fun n => scale (Main.transform
                         (current (foldl canvasStep (mounted Main.initialState)
                                     (take n sampleCanvasEvents)))))
      [11; 14; 16]%nat
  = [lit 2; (lit 2 * lit 0.9)%js; ((lit 2 * lit 0.9) / lit 1.2)%js].
Proof. reflexivity. Qed.

(** ** Reachable states *)
Section Reachable.
Context {num : Type} `{!JSNum num}.
Implicit Types (s : Main.State num).
Import Main.

Ltac crush_handler :=
  repeat first
    [ progress cbn in *
    | progress simplify_eq
    | case_match
    | case_bool_decide ].

(** The pointer handlers pan and move nodes: they touch neither the step
    nor the scale. *)
Lemma handlePointer_frame s ev s' :
  handlePointer s ev = Some s' →
  animationStep s' = animationStep s
  ∧ scale (transform s') = scale (transform s).
Proof.
  destruct ev as [e nodeId|e|e|]; cbn;
    unfold handleNodeDragStart, handleMouseDown, handleMouseMove,
      handleNodeDragMove, handleMouseUp, handleNodeDragEnd;
    intros Hs'; crush_handler; try done.
  all: destruct (obj_read (positions s) nodeId); crush_handler; done.
Qed.

Lemma edit_handlers_frame s nodeId fetch :
  let unchanged s' :=
    animationStep s' = animationStep s ∧ transform s' = transform s in
  unchanged (startEditPosition nodeId s)
  ∧ unchanged (cancelEditPosition s)
  ∧ unchanged (saveEditPosition fetch s).
Proof.
  unfold startEditPosition, cancelEditPosition, saveEditPosition.
  repeat split; crush_handler; done.
Qed.

Lemma perform_step_lower_bound s a s' :
  -1 ≤ animationStep s → perform s a = Some s' → -1 ≤ animationStep s'.
Proof.
  intros Hge.
  destruct (edit_handlers_frame s "" ApiOk) as (_ & [Hc _] & _).
  destruct a as [nodeId| |fetch|ev|op| | | |sc| |]; cbn.
  - intros [= <-].
    destruct (edit_handlers_frame s nodeId ApiOk) as ([-> _] & _). done.
  - intros [= <-]. by rewrite Hc.
  - intros [= <-].
    destruct (edit_handlers_frame s "" fetch) as (_ & _ & [-> _]). done.
  - intros Hev. apply handlePointer_frame in Hev as [-> _]. done.
  - intros [= <-]. by destruct op.
  - case_match; intros [= <-]; [|done].
    unfold startAnimation. case_match; cbn; lia.
  - intros [= <-]. cbn. lia.
  - intros [= <-]. cbn. lia.
  - intros [= <-]. cbn. lia.
  - intros [= <-]. cbn. lia.
  - by apply tick_step_lower_bound.
Qed.

(** The step never goes below -1, so the timer callback never throws. *)
Lemma reachable_step_lower_bound (actions : list (Action num)) s s' :
  -1 ≤ animationStep s → run actions s = Some s' → -1 ≤ animationStep s'.
Proof.
  revert s. induction actions as [|a actions IH]; intros s Hge; cbn.
  - by intros [= <-].
  - destruct (perform s a) as [s1|] eqn:Hs1; cbn; [|discriminate].
    apply IH. by eapply perform_step_lower_bound.
Qed.

Lemma reachable_tick_total (actions : list (Action num)) s' :
  run actions initialState = Some s' → is_Some (tick s').
Proof.
  intros Hrun. apply tick_total.
  eapply reachable_step_lower_bound; [|exact Hrun]. cbn. lia.
Qed.
End Reachable.

(** In exact arithmetic every handler keeps the scale in [[0.15, 2]]. *)
Lemma perform_scale_in_range (s s' : Main.State Q) (a : Action Q) :
  scaleInRange (scale (Main.transform s)) →
  perform s a = Some s' →
  scaleInRange (scale (Main.transform s')).
Proof.
  intros Hs.
  destruct a as [nodeId| |fetch|ev|op| | | |sc| |]; cbn.
  - intros [= <-].
    destruct (edit_handlers_frame s nodeId Main.ApiOk) as ([_ ->] & _). done.
  - intros [= <-].
    destruct (edit_handlers_frame s "" Main.ApiOk) as (_ & [_ ->] & _). done.
  - intros [= <-].
    destruct (edit_handlers_frame s "" fetch) as (_ & _ & [_ ->]). done.
  - intros Hev. apply handlePointer_frame in Hev as [_ ->]. done.
  - intros [= <-]. by apply applyZoom_in_range.
  - destruct (Main.activeScenario s) as [sc|]; intros [= <-]; [|done].
    destruct (startAnimation_fields sc s) as (_ & _ & _ & _ & _ & ->). done.
  - intros [= <-]. done.
  - intros [= <-]. unfold scaleInRange. cbn. lra.
  - intros [= <-]. done.
  - intros [= <-]. done.
  - intros Ht. apply tick_scale in Ht as ->. done.
Qed.

Lemma reachable_scale_in_range (actions : list (Action Q)) (s' : Main.State Q) :
  run actions Main.initialState = Some s' →
  scaleInRange (scale (Main.transform s')).
Proof.
  assert (∀ s, scaleInRange (scale (Main.transform s)) →
               run actions s = Some s' →
               scaleInRange (scale (Main.transform s'))) as Hgen.
  { induction actions as [|a actions IH]; intros s Hs; cbn.
    - by intros [= <-].
    - destruct (perform s a) as [s1|] eqn:Hs1; cbn; [|discriminate].
      apply IH. by eapply perform_scale_in_range. }
  apply Hgen. unfold scaleInRange. cbn. lra.
Qed.

(** ** Degenerate edge geometry (binary64) *)

Lemma SFcompare_refl (f : spec_float) :
  f ≠ S754_nan → SFcompare f f = Some Eq.
Proof.
  destruct f as [s|s| |s m e]; intros Hn; try done; simpl.
  - by destruct s.
  - rewrite Z.compare_refl, Pos.compare_cont_refl. by destruct s.
Qed.

Lemma is_nan_spec (x : float) :
  PrimFloat.is_nan x = match Prim2SF x with S754_nan => true | _ => false end.
Proof.
  unfold PrimFloat.is_nan. rewrite FloatAxioms.eqb_spec. unfold SFeqb.
  destruct (Prim2SF x) eqn:E; try reflexivity;
    rewrite SFcompare_refl by discriminate; reflexivity.
Qed.

Lemma is_infinity_spec (x : float) :
  PrimFloat.is_infinity x
  = match Prim2SF x with S754_infinity _ => true | _ => false end.
Proof.
  unfold PrimFloat.is_infinity. rewrite FloatAxioms.eqb_spec, abs_spec.
  change (Prim2SF infinity) with (S754_infinity false).
  destruct (Prim2SF x) as [s|s| |s m e]; reflexivity.
Qed.

Lemma is_finite_cases (x : float) :
  PrimFloat.is_finite x = true →
  (∃ s, Prim2SF x = S754_zero s) ∨ (∃ s m e, Prim2SF x = S754_finite s m e).
Proof.
  unfold PrimFloat.is_finite. rewrite is_nan_spec, is_infinity_spec.
  destruct (Prim2SF x) as [s|s| |s m e]; try discriminate; eauto.
Qed.

(** [x - x] is [+0] for a finite [x] (and NaN for an infinite one). *)
Lemma float_sub_diag (x : float) :
  PrimFloat.is_finite x = true → (x - x)%float = 0%float.
Proof.
  intros Hfin. apply Prim2SF_inj. rewrite sub_spec.
  change (Prim2SF 0) with (S754_zero false).
  destruct (is_finite_cases x Hfin) as [[s ->]|(s & m & e & ->)].
  - by destruct s.
  - unfold SF64sub, SFsub. rewrite Z.sub_diag. reflexivity.
Qed.

Lemma float_add_zero_not_nan (x : float) :
  PrimFloat.is_finite x = true → PrimFloat.is_nan (x + 0)%float = false.
Proof.
  intros Hfin. rewrite is_nan_spec, add_spec.
  change (Prim2SF 0) with (S754_zero false).
  destruct (is_finite_cases x Hfin) as [[s ->]|(s & m & e & ->)].
  - by destruct s.
  - reflexivity.
Qed.

Lemma float_sub_zero_not_nan (x : float) :
  PrimFloat.is_finite x = true → PrimFloat.is_nan (x - 0)%float = false.
Proof.
  intros Hfin. rewrite is_nan_spec, sub_spec.
  change (Prim2SF 0) with (S754_zero false).
  destruct (is_finite_cases x Hfin) as [[s ->]|(s & m & e & ->)].
  - by destruct s.
  - reflexivity.
Qed.

(** With [dx = dy = 0] the fallback makes [len] 1 and the trimming
    offset vanishes, whatever the node type. *)
Lemma zero_direction_offset (n : option Node) :
  (0 / Main.number_or (PrimFloat.sqrt (0 * 0 + 0 * 0)) 1 * Main.anchorOffset n)%float
  = 0%float.
Proof.
  unfold Main.anchorOffset.
  destruct (opt_strict_eq _ "decision"); [reflexivity|].
  destruct (opt_strict_eq _ "kpi"); reflexivity.
Qed.

(** X12 - main.jsx guards the zero length: an edge between two nodes at the
    same finite place is drawn with direction (0, 0) and without any
    NaN. *)
Lemma Main_coincident_edge_geometry nodes (s : Main.State float) rel (x y : float) :
  PrimFloat.is_finite x = true → PrimFloat.is_finite y = true →
  Main.positions s !! rel_from rel = Some {| pos_x := x; pos_y := y |} →
  Main.positions s !! rel_to rel = Some {| pos_x := x; pos_y := y |} →
  ∃ el, Main.renderEdge nodes s rel = Some el
        ∧ Main.dirX el = 0%float ∧ Main.dirY el = 0%float
        ∧ existsb PrimFloat.is_nan (Main_coordinates el) = false.
Proof.
  intros Hx Hy Hfrom Hto. unfold Main.renderEdge.
  rewrite (obj_read_own _ _ _ Hfrom), (obj_read_own _ _ _ Hto).
  cbn [mbind option_bind pos_x pos_y].
  rewrite !float_sub_diag by done.
  match goal with |- context [let '(_, _) := ?p in _] => destruct p end.
  eexists. split; [reflexivity|].
  cbn [Main.dirX Main.dirY Main_coordinates Main.x1 Main.x2 Main.y1 Main.y2].
  split; [reflexivity|]. split; [reflexivity|].
  rewrite !zero_direction_offset. unfold Main_coordinates.
  cbn [existsb Main.dirX Main.dirY Main.x1 Main.x2 Main.y1 Main.y2].
  rewrite !float_add_zero_not_nan, !float_sub_zero_not_nan by done.
  reflexivity.
Qed.

Example Main_coincident_edge_is_drawn :
  ∃ el,
    Main.renderEdges nodesAB [relAB] "all" "" true stateCoincident = [Some el]
    ∧ Main_coordinates el = [0; 0; 800; 500; 800; 500]%float.
Proof. eexists. split; vm_compute; reflexivity. Qed.

(** C9 - Two nodes at the same place, kg_frontend_template.jsx: the visible
    edge between them is drawn, [len] is 0, nothing replaces it, and every
    number of the element (unit direction, trimmed start and end points,
    control point) is NaN. *)
Theorem Template_coincident_edge_is_NaN :
  ∃ el,
    Template.renderEdges nodesAB [relAB] coincidentPositions "all" "" true None
    = [Some el]
    ∧ forallb PrimFloat.is_nan (Template_coordinates el) = true.
Proof. eexists. split; vm_compute; reflexivity. Qed.

(** ** The two number models on the literals and on a sample zoom *)

#[local] Set Warnings "-inexact-float".

(** [lit] at [float] is the double a JavaScript literal denotes. *)
Example float_literals :
  [lit 0.9; lit 1.1; lit 0.15; lit 0.2; lit 1.2; lit 0.45; lit 0.7; lit 2; lit 500]
  = [0.9; 1.1; 0.15; 0.2; 1.2; 0.45; 0.7; 2; 500]%float.
Proof. reflexivity. Qed.

(** The template's zoom in binary64, cursor at (100, 100), initial
    transform: the point under the cursor comes back within 1e-9. *)
Example Template_zoom_anchor_binary64 :
  let e := {| deltaX := 0; deltaY := -100;
              wheel_clientX := 100; wheel_clientY := 100;
              ctrlKey := true; metaKey := false |}%float in
  let rect := {| Template.left := 0; Template.top := 0 |}%float in
  let p := {| pos_x := 100; pos_y := 100 |}%float in
  let t := Template.initialTransform in
  let p' := worldToScreen (Template.handleWheel rect e t) (screenToWorld t p) in
  (PrimFloat.abs (pos_x p' - 100) <? 1e-9)%float
  && (PrimFloat.abs (pos_y p' - 100) <? 1e-9)%float = true.
Proof. reflexivity. Qed.

(** * Further properties of the code *)

(** A case analysis over the cells of a state. *)
Ltac crush_cells :=
  repeat first
    [ progress cbn in *
    | progress simplify_eq
    | case_match
    | case_bool_decide ].

(** ** Path queries *)

Lemma array_get_Some {A} (l : list A) (i : Z) (x : A) :
  array_get l i = Some x ↔ 0 ≤ i ∧ l !! Z.to_nat i = Some x.
Proof.
  unfold array_get. destruct (Z.ltb_spec i 0); split.
  - discriminate.
  - intros [? _]. lia.
  - auto.
  - tauto.
Qed.

Lemma array_includes_elem (l : list string) (x : string) :
  array_includes l x = true ↔ x ∈ l.
Proof.
  induction l as [|y l IH]; simpl.
  - split; [discriminate | by intros ?%elem_of_nil].
  - rewrite orb_true_iff, String.eqb_eq, IH, elem_of_cons.
    split; (intros [?|?]; [left; congruence | by right]).
Qed.

Lemma indexOf_range (l : list string) (x : string) :
  indexOf l x = -1 ∨ 0 ≤ indexOf l x < Z.of_nat (length l).
Proof.
  induction l as [|y l IH]; simpl; [by left|].
  destruct (String.eqb y x); [right; lia|].
  destruct (Z.ltb_spec (indexOf l x) 0); [by left | right; lia].
Qed.

(** [indexOf] returns the first index that holds [x]. *)
Lemma indexOf_first (l : list string) (x : string) (i : nat) :
  l !! i = Some x → 0 ≤ indexOf l x ≤ Z.of_nat i.
Proof.
  revert i. induction l as [|y l IH]; intros i Hi; [done|]. simpl.
  destruct (String.eqb_spec y x) as [->|Hne]; [lia|].
  destruct i as [|i]; [simpl in Hi; congruence|].
  specialize (IH i Hi). destruct (Z.ltb_spec (indexOf l x) 0); lia.
Qed.

Lemma indexOf_lookup (l : list string) (x : string) :
  0 ≤ indexOf l x → l !! Z.to_nat (indexOf l x) = Some x.
Proof.
  induction l as [|y l IH]; simpl; [lia|].
  destruct (String.eqb_spec y x) as [->|Hne]; [done|].
  destruct (Z.ltb_spec (indexOf l x) 0); [lia|]. intros _.
  replace (Z.to_nat (indexOf l x + 1)) with (S (Z.to_nat (indexOf l x))) by lia.
  simpl. by apply IH.
Qed.

Lemma consecutive_pair_spec (path : list string) (a b : string) :
  consecutive_pair path a b = true ↔
  ∃ i : nat,
    (path !! i = Some a ∧ path !! S i = Some b)
    ∨ (path !! i = Some b ∧ path !! S i = Some a).
Proof.
  induction path as [|x path IH]; [split; [discriminate | by intros [? [[? _]|[? _]]]]|].
  destruct path as [|y path].
  { split; [discriminate|]. intros [[|i] [[_ H]|[_ H]]]; done. }
  change (consecutive_pair (x :: y :: path) a b)
    with ((String.eqb x a && String.eqb y b) || (String.eqb x b && String.eqb y a)
          || consecutive_pair (y :: path) a b).
  rewrite !orb_true_iff, !andb_true_iff, !String.eqb_eq, IH. split.
  - intros [[[-> ->]|[-> ->]]|[i Hi]].
    + exists 0%nat. by left.
    + exists 0%nat. by right.
    + exists (S i). exact Hi.
  - intros [[|i] Hi].
    + left. simpl in Hi. destruct Hi as [[[= ->] [= ->]]|[[= ->] [= ->]]]; auto.
    + right. exists i. exact Hi.
Qed.

Lemma consecutive_pair_sym (path : list string) (a b : string) :
  consecutive_pair path a b = consecutive_pair path b a.
Proof.
  apply eq_true_iff_eq. rewrite !consecutive_pair_spec.
  split; intros [i Hi]; exists i; tauto.
Qed.

Section Queries.
Context {num : Type} `{!JSNum num}.
Implicit Types (s : Main.State num).
Import Main.

(** X1 - At most one node is the current one: when [isNodeCurrent a]
    holds, [isNodeCurrent b] holds for [b = a] and for no other id. *)
Theorem current_node_is_unique s (a : string) :
  isNodeCurrent a s = true → ∀ b, isNodeCurrent b s = true ↔ b = a.
Proof.
  unfold isNodeCurrent. destruct (activeScenario s) as [sc|]; [|discriminate].
  rewrite andb_true_iff, opt_strict_eq_true. intros [Hge Ha] b.
  rewrite andb_true_iff, opt_strict_eq_true. split.
  - intros [_ Hb]. congruence.
  - by intros ->.
Qed.

(** X2 - Highlights lie on the path: the current node and every visited
    node are nodes of the active path, and an active edge joins two
    consecutive nodes of it. *)
Theorem highlights_lie_on_path s :
  (∀ id, isNodeCurrent id s = true → isNodeInPath id s = true)
  ∧ (∀ id, isNodeVisited id s = true → isNodeInPath id s = true)
  ∧ (∀ a b, isEdgeActive a b s = true → isEdgeInPath a b s = true).
Proof.
  unfold isNodeCurrent, isNodeVisited, isNodeInPath, isEdgeActive, isEdgeInPath.
  destruct (activeScenario s) as [sc|]; [|done].
  unfold path_length. destruct (sc_path sc) as [path|]; simpl.
  - split; [|split].
    + intros id. rewrite andb_true_iff, opt_strict_eq_true, array_get_Some.
      intros (_ & _ & Hl). apply array_includes_elem. by eapply list_elem_of_lookup_2.
    + intros id. destruct (_ <? 0); [discriminate|].
      rewrite andb_true_iff, Z.leb_le. intros [Hge _].
      apply array_includes_elem. eapply list_elem_of_lookup_2.
      by apply indexOf_lookup.
    + intros a b. destruct (_ || _) eqn:Hguard; [discriminate|].
      apply orb_false_iff in Hguard as [Hneg Hlast].
      apply Z.ltb_ge in Hneg. apply Z.leb_gt in Hlast.
      rewrite orb_true_iff, !andb_true_iff, !bool_decide_eq_true.
      intros Hab. apply consecutive_pair_spec. exists (Z.to_nat (animationStep s)).
      assert (∀ x, Some x = array_get path (animationStep s) →
                   path !! Z.to_nat (animationStep s) = Some x) as Hcur.
      { intros x Hx. symmetry in Hx. by apply array_get_Some in Hx as [_ ?]. }
      assert (∀ x, Some x = array_get path (animationStep s + 1) →
                   path !! S (Z.to_nat (animationStep s)) = Some x) as Hnext.
      { intros x Hx. symmetry in Hx. apply array_get_Some in Hx as [_ Hx].
        by replace (Z.to_nat (animationStep s + 1))
          with (S (Z.to_nat (animationStep s))) in Hx by lia. }
      destruct Hab as [[Ha Hb]|[Hb Ha]]; [left | right]; auto.
  - split; [|split].
    + intros id. rewrite andb_true_iff. intros [_ H]. discriminate.
    + intros id. destruct (_ <? 0); [discriminate|]. done.
    + intros a b. destruct (_ || _) eqn:Hguard; [discriminate|].
      apply orb_false_iff in Hguard as [Hneg Hlast].
      apply Z.ltb_ge in Hneg. apply Z.leb_gt in Hlast. lia.
Qed.

(** X3 - The two edge queries do not depend on the direction of the
    relationship. *)
Theorem edge_queries_are_undirected s (a b : string) :
  isEdgeInPath a b s = isEdgeInPath b a s
  ∧ isEdgeActive a b s = isEdgeActive b a s.
Proof.
  unfold isEdgeInPath, isEdgeActive.
  destruct (activeScenario s) as [sc|]; [|done]. split.
  - destruct (sc_path sc); [apply consecutive_pair_sym | done].
  - destruct (_ || _); [done|]. apply orb_comm.
Qed.

(** X4 - A node is visited exactly when a scenario with a path is active
    and the node occurs in the path at an index below the current step;
    with a node that occurs twice it is the first occurrence that
    counts. *)
Theorem visited_iff_earlier_in_path s (id : string) :
  isNodeVisited id s = true ↔
  ∃ sc path i,
    activeScenario s = Some sc ∧ sc_path sc = Some path
    ∧ 0 ≤ i < animationStep s ∧ array_get path i = Some id.
Proof.
  unfold isNodeVisited. destruct (activeScenario s) as [sc|]; cycle 1.
  { split; [discriminate | by intros (? & ? & ? & [=] & _)]. }
  destruct (Z.ltb_spec (animationStep s) 0) as [Hneg|Hpos].
  { split; [discriminate|]. intros (? & ? & i & _ & _ & ? & _). lia. }
  destruct (sc_path sc) as [path|] eqn:Hpath; cycle 1.
  { split; [discriminate|]. intros (? & ? & ? & [= <-] & Hp & _). congruence. }
  rewrite andb_true_iff, Z.leb_le, Z.ltb_lt. split.
  - intros [Hge Hlt]. exists sc, path, (indexOf path id).
    repeat split; try done. apply array_get_Some. split; [done|].
    by apply indexOf_lookup.
  - intros (? & path' & i & [= <-] & Hp & Hi & Hget).
    assert (path' = path) as -> by congruence.
    apply array_get_Some in Hget as [_ Hget].
    apply indexOf_first in Hget. lia.
Qed.
End Queries.

Lemma current_node_is_unique_witness :
  Main.isNodeCurrent "A" statePlayingABC = true
  ∧ (Main.isNodeCurrent "B" statePlayingABC = true ↔ "B"%string = "A"%string).
Proof.
  split; [reflexivity|].
  apply (current_node_is_unique statePlayingABC "A"). reflexivity.
Defined.

(** ** Sessions *)

Section Session.
Context {num : Type} `{!JSNum num}.
Implicit Types (s : Main.State num).
Import Main.

Lemma handlePointer_keeps_player s ev s' :
  handlePointer s ev = Some s' →
  activeScenario s' = activeScenario s ∧ animationStep s' = animationStep s
  ∧ isAnimating s' = isAnimating s.
Proof.
  destruct ev as [e nodeId|e|e|]; cbn;
    unfold handleNodeDragStart, handleMouseDown, handleMouseMove,
      handleNodeDragMove, handleMouseUp, handleNodeDragEnd;
    intros Hs'; crush_cells; try done.
  all: destruct (obj_read (positions s) nodeId); crush_cells; done.
Qed.

(** The handlers of the position edit, of the pointer and of the zoom
    leave the player alone. *)
Lemma edit_and_pointer_keep_player s :
  let same s' :=
    activeScenario s' = activeScenario s ∧ animationStep s' = animationStep s
    ∧ isAnimating s' = isAnimating s in
  (∀ nodeId, same (startEditPosition nodeId s))
  ∧ same (cancelEditPosition s)
  ∧ (∀ fetch, same (saveEditPosition fetch s))
  ∧ (∀ ev s', handlePointer s ev = Some s' → same s')
  ∧ (∀ op, same (applyZoom s op)).
Proof.
  cbn zeta. split; [|split; [|split; [|split]]].
  - intros nodeId. unfold startEditPosition. crush_cells; done.
  - unfold cancelEditPosition. crush_cells; done.
  - intros fetch. unfold saveEditPosition. crush_cells; done.
  - apply handlePointer_keeps_player.
  - intros op. by destruct op.
Qed.

Lemma tick_stepInBounds s s' :
  stepInBounds s → tick s = Some s' → stepInBounds s'.
Proof.
  intros [Hlo Hhi]. unfold tick, intervalCallback.
  destruct (isAnimating s); [|intros [= <-]; by split].
  destruct (activeScenario s) as [sc|] eqn:Hsc;
    [|intros [= <-]; split; [done|]; intros ? ?; congruence].
  destruct (Z.leb_spec (path_length sc - 1) (animationStep s)) as [Hfin|Hadv].
  - intros [= <-]. split; [done|]. intros sc0 Hsc0. apply Hhi. cbn in Hsc0. congruence.
  - destruct (sc_path sc) as [path|]; simpl; [|discriminate].
    destruct (obj_read (positions s) _); intros [= <-]; unfold stepInBounds; cbn;
      (split; [lia|]); intros sc0 Hsc0; assert (sc0 = sc) as -> by congruence; lia.
Qed.

Lemma perform_stepInBounds s a s' :
  stepInBounds s → perform s a = Some s' → stepInBounds s'.
Proof.
  intros Hb.
  destruct (edit_and_pointer_keep_player s) as (Hstart & Hcancel & Hsave & Hptr & Hzoom).
  assert (∀ s1, activeScenario s1 = activeScenario s ∧ animationStep s1 = animationStep s
                ∧ isAnimating s1 = isAnimating s → stepInBounds s1) as Hsame.
  { intros s1 (Ha & Hs & _). destruct Hb as [Hlo Hhi]. unfold stepInBounds.
    rewrite Ha, Hs. done. }
  assert (∀ s1, animationStep s1 = -1 → stepInBounds s1) as Hreset.
  { intros s1 Hs1. unfold stepInBounds. rewrite Hs1. split; [lia|]. intros; lia. }
  destruct a as [nodeId| |fetch|ev|op| | | |sc| |]; cbn.
  - intros [= <-]. apply Hsame, Hstart.
  - intros [= <-]. apply Hsame, Hcancel.
  - intros [= <-]. apply Hsame, Hsave.
  - intros Hev. by apply Hsame, (Hptr ev).
  - intros [= <-]. apply Hsame, Hzoom.
  - destruct (activeScenario s) as [sc|] eqn:Hsc; intros [= <-]; [|done].
    destruct (startAnimation_fields sc s) as (Ha & Hs & _).
    unfold stepInBounds. rewrite Ha, Hs. split; [lia|]. intros; lia.
  - intros [= <-]. by apply Hreset.
  - intros [= <-]. by apply Hreset.
  - intros [= <-]. by apply Hreset.
  - intros [= <-]. by apply Hreset.
  - by apply tick_stepInBounds.
Qed.

Lemma handleEvent_stepInBounds s ev s' :
  stepInBounds s → handleEvent s ev = Some s' → stepInBounds s'.
Proof.
  intros Hb.
  destruct ev as [a|nodeId| |fetch key|fetch nodeId|posRes|nodeId|t]; cbn.
  - by apply perform_stepInBounds.
  - intros [= <-]. unfold nodeClick. by case_bool_decide.
  - intros [= <-]. done.
  - intros [= <-]. destruct fetch; [|done].
    destruct Hb as [Hlo _]. split; [done|]. cbn. discriminate.
  - intros [= <-]. by destruct fetch.
  - intros [= <-]. by destruct posRes.
  - intros [= <-]. done.
  - intros [= <-]. done.
Qed.

(** X5 - Whatever the user, the timer and the data handlers do from the
    initial state, the step is at least -1 and, while a scenario is active,
    at most the last index of its path (0 for a path without nodes); and
    the next timer callback does not throw. *)
Theorem session_keeps_step_in_bounds (evs : list (Event num)) s' :
  runEvents evs initialState = Some s' →
  stepInBounds s' ∧ is_Some (tick s').
Proof.
  assert (∀ s, stepInBounds s → runEvents evs s = Some s' → stepInBounds s') as Hgen.
  { induction evs as [|ev evs IH]; intros s Hs; cbn.
    - by intros [= <-].
    - destruct (handleEvent s ev) as [s1|] eqn:Hs1; cbn; [|discriminate].
      apply IH. by eapply handleEvent_stepInBounds. }
  intros Hrun.
  assert (stepInBounds s') as Hb.
  { apply (Hgen initialState); [|done]. split; cbn; [lia|]. discriminate. }
  split; [done|]. apply tick_total. by destruct Hb.
Qed.

(** X6 - A stopped ticker stays stopped: while [isAnimating] is off any
    number of timer callbacks leaves every cell as it is; "Pause", closing
    the scenario and choosing a scenario all turn it off. *)
Theorem stopped_ticker_stays_stopped s (n : nat) :
  (∀ s', isAnimating s' = false → ticks n s' = Some s')
  ∧ isAnimating (stopAnimation s) = false ∧ animationStep (stopAnimation s) = -1
  ∧ isAnimating (resetView s) = false ∧ activeScenario (resetView s) = None
  ∧ (∀ sc, isAnimating (scenarioClick sc s) = false).
Proof.
  repeat split. intros s' Hoff.
  induction n as [|n IH]; [done|]. cbn. by rewrite tick_idle.
Qed.
End Session.

Lemma session_keeps_step_in_bounds_witness :
  ∃ s', runEvents sampleSession Main.initialState = Some s'
        ∧ stepInBounds s' ∧ is_Some (Main.tick s').
Proof.
  eexists. split; [vm_compute; reflexivity|].
  apply (session_keeps_step_in_bounds sampleSession). vm_compute. reflexivity.
Defined.

Lemma handleEvent_scale_in_range (s s' : Main.State Q) (ev : Event Q) :
  scaleInRange (scale (Main.transform s)) →
  handleEvent s ev = Some s' →
  scaleInRange (scale (Main.transform s')).
Proof.
  intros Hs.
  destruct ev as [a|nodeId| |fetch key|fetch nodeId|posRes|nodeId|t]; cbn.
  - by apply perform_scale_in_range.
  - intros [= <-]. unfold Main.nodeClick. by case_bool_decide.
  - intros [= <-]. done.
  - intros [= <-]. by destruct fetch.
  - intros [= <-]. by destruct fetch.
  - intros [= <-]. by destruct posRes.
  - intros [= <-]. done.
  - intros [= <-]. done.
Qed.

(** X7 - In exact arithmetic the scale is within its range in every state
    a session reaches from the initial state, whatever mixes with the zoom
    operations. *)
Theorem session_keeps_scale_in_range (evs : list (Event Q)) (s' : Main.State Q) :
  runEvents evs Main.initialState = Some s' →
  scaleInRange (scale (Main.transform s')).
Proof.
  assert (∀ s, scaleInRange (scale (Main.transform s)) →
               runEvents evs s = Some s' →
               scaleInRange (scale (Main.transform s'))) as Hgen.
  { induction evs as [|ev evs IH]; intros s Hs; cbn.
    - by intros [= <-].
    - destruct (handleEvent s ev) as [s1|] eqn:Hs1; cbn; [|discriminate].
      apply IH. by eapply handleEvent_scale_in_range. }
  apply Hgen. unfold scaleInRange. cbn. lra.
Qed.

Lemma session_keeps_scale_in_range_witness :
  ∃ s', runEvents sampleZoomSession Main.initialState = Some s'
        ∧ scaleInRange (scale (Main.transform s')).
Proof.
  eexists. split; [vm_compute; reflexivity|].
  apply (session_keeps_scale_in_range sampleZoomSession). vm_compute. reflexivity.
Defined.

(** ** Pointer and position edit *)

Section Pointer.
Context {num : Type} `{!JSNum num}.
Implicit Types (s : Main.State num).
Import Main.

(** X8 - A pointer event moves no node but the one being edited: the
    positions of all other nodes are as before, without an edit the
    positions are untouched, and while the edited node is dragged the
    viewport does not pan. *)
Theorem pointer_moves_only_the_edited_node s (ev : PointerEvent num) s' :
  handlePointer s ev = Some s' →
  (∀ k, editingPositionNode s ≠ Some k → positions s' !! k = positions s !! k)
  ∧ (editingPositionNode s = None → positions s' = positions s)
  ∧ (is_Some (nodeDragStart s) → truthy_id (editingPositionNode s) = true →
     transform s' = transform s).
Proof.
  destruct ev as [e nodeId|e|e|]; cbn;
    unfold handleNodeDragStart, handleMouseDown, handleMouseMove,
      handleNodeDragMove, handleMouseUp, handleNodeDragEnd.
  - case_bool_decide as Hed.
    + cbn.
      destruct (obj_read (positions s) nodeId); cbn; [|discriminate].
      intros [= <-]. repeat split; try done.
    + destruct (nodeDragStart s); [intros [= <-]; by repeat split|].
      destruct (onBackground e); intros [= <-]; repeat split; try done;
        by intros [? [=]].
  - destruct (nodeDragStart s); [intros [= <-]; by repeat split|].
    destruct (onBackground e); intros [= <-]; repeat split; try done;
      by intros [? [=]].
  - intros [= <-].
    destruct (nodeDragStart s) as [ds|] eqn:Hds; cbn.
    + destruct (editingPositionNode s) as [id|] eqn:Hid; cbn.
      * destruct (truthy_string id) eqn:Hty; cbn.
        -- repeat split; try done.
           intros k Hk. apply lookup_insert_ne. congruence.
        -- destruct (isDragging s); repeat split; done.
      * destruct (isDragging s); repeat split; done.
    + destruct (isDragging s); repeat split; try done; by intros [? [=]].
  - intros [= <-]. destruct (nodeDragStart s); by repeat split.
Qed.

(** X9 - When the save call succeeds, [saveEditPosition] keeps the
    positions as dragged, ends the edit session and raises the success
    toast that names the node. *)
Theorem successful_save_keeps_the_drag s (id : string) (orig : Position num)
    (m : gmap string (Position num)) :
  id ≠ ""%string → editing id orig m s →
  let s' := saveEditPosition ApiOk s in
  positions s' = positions s ∧ sessionEnded s'
  ∧ toast s' = Some {| message := "Position for " +:+ dquote +:+ id +:+ dquote
                                    +:+ " saved";
                       type := success |}.
Proof.
  intros Hne (Hn & Ho & [pos Hpos] & Hm). unfold saveEditPosition.
  rewrite Hn, truthy_nonempty by done. cbn.
  rewrite (obj_read_own _ _ _ Hpos). by cbn.
Qed.
End Pointer.

Lemma pointer_moves_only_the_edited_node_witness :
  Main.positions (Main.handleMouseMove (pressAt 30 40) stateEditingA) !! "B"%string
  = Main.positions stateEditingA !! "B"%string.
Proof.
  destruct (pointer_moves_only_the_edited_node stateEditingA
              (Move (pressAt 30 40)) _ eq_refl) as (Hothers & _).
  apply Hothers. vm_compute. discriminate.
Defined.

Lemma successful_save_keeps_the_drag_witness :
  Main.positions (Main.saveEditPosition Main.ApiOk stateEditingA)
  = Main.positions stateEditingA.
Proof.
  destruct (successful_save_keeps_the_drag stateEditingA "A"
              {| pos_x := 400%float; pos_y := 300%float |}
              (<["A"%string := {| pos_x := 400%float; pos_y := 300%float |}]>
                 (Main.positions stateEditingA)))
    as (Hpositions & _).
  - discriminate.
  - repeat split; try (vm_compute; reflexivity).
    eexists. vm_compute. reflexivity.
  - exact Hpositions.
Defined.

(** X10 - Panning (exact arithmetic): after a press on the background and
    a move, the viewport is translated by the screen delta of the pointer,
    scale and node positions are unchanged; after the release further moves
    do nothing. *)
Theorem pan_follows_the_pointer (s : Main.State Q) (down move : MouseEvent Q) :
  Main.nodeDragStart s = None →
  onBackground down = true →
  let s1 := Main.handleMouseDown down s in
  let s2 := Main.handleMouseMove move s1 in
  let s3 := Main.handleMouseUp s2 in
  (t_x (Main.transform s2) == t_x (Main.transform s) + (clientX move - clientX down))%Q
  ∧ (t_y (Main.transform s2) == t_y (Main.transform s) + (clientY move - clientY down))%Q
  ∧ scale (Main.transform s2) = scale (Main.transform s)
  ∧ Main.positions s2 = Main.positions s
  ∧ Main.isDragging s3 = false
  ∧ ∀ later, Main.handleMouseMove later s3 = s3.
Proof.
  intros Hnd Hbg s1 s2 s3. subst s1 s2 s3.
  unfold Main.handleMouseDown, Main.handleMouseMove, Main.handleMouseUp.
  rewrite Hnd, Hbg. cbn. rewrite Hnd. cbn.
  repeat split; try ring.
  - by rewrite Hnd.
  - intros later. rewrite Hnd. cbn. by rewrite Hnd.
Qed.

Lemma pan_follows_the_pointer_witness :
  (t_x (Main.transform
          (Main.handleMouseMove panMove
             (Main.handleMouseDown panDown Main.initialState)))
   == t_x (Main.transform (Main.initialState (num:=Q))) + (30 - 10))%Q.
Proof.
  destruct (pan_follows_the_pointer Main.initialState panDown panMove
              eq_refl eq_refl) as (Hx & _).
  exact Hx.
Defined.

Lemma edit_round_trip_any_gesture_witness :
  ∃ s',
    runPointer gestureOnA (Main.startEditPosition "A" stateOfA) = Some s'
    ∧ Main.positions (Main.cancelEditPosition s') = Main.positions stateOfA
    ∧ sessionEnded (Main.cancelEditPosition s')
    ∧ ∀ msg,
        Main.positions (Main.saveEditPosition (Main.ApiError msg) s')
        = Main.positions stateOfA
        ∧ sessionEnded (Main.saveEditPosition (Main.ApiError msg) s').
Proof.
  apply (edit_round_trip_any_gesture gestureOnA stateOfA "A"
           {| pos_x := 400%float; pos_y := 300%float |}).
  - discriminate.
  - vm_compute. reflexivity.
Defined.

Lemma Main_coincident_edge_geometry_witness :
  ∃ el, Main.renderEdge nodesAB stateCoincident relAB = Some el
        ∧ Main.dirX el = 0%float ∧ Main.dirY el = 0%float
        ∧ existsb PrimFloat.is_nan (Main_coordinates el) = false.
Proof.
  apply (Main_coincident_edge_geometry nodesAB stateCoincident relAB 800 500).
  - reflexivity.
  - reflexivity.
  - vm_compute. reflexivity.
  - vm_compute. reflexivity.
Defined.

(** ** Filters *)

Lemma List_filter_sublist {A} (f : A → bool) (l : list A) :
  sublist (List.filter f l) l.
Proof.
  induction l as [|x l IH]; simpl; [constructor|].
  destruct (f x); by constructor.
Qed.

Lemma List_filter_all {A} (f : A → bool) (l : list A) :
  (∀ x, f x = true) → List.filter f l = l.
Proof.
  intros Hf. induction l as [|x l IH]; simpl; [done|]. by rewrite Hf, IH.
Qed.

(** X13 - The filters only remove: the visible nodes and relationships of
    both components are sublists of the loaded ones, in the same order, and
    with module "all" and an empty search every node is visible. *)
Theorem filters_only_remove (nodes : NodesObject) (relationships : list Relationship)
    (selectedModule searchTerm : string) (showRelationships : bool) :
  sublist (Main.filteredNodes nodes selectedModule searchTerm) (Object_values nodes)
  ∧ sublist (Template.filteredNodes nodes selectedModule searchTerm) (Object_values nodes)
  ∧ sublist (Main.filteredRelationships showRelationships
               (Main.filteredNodes nodes selectedModule searchTerm) relationships)
            relationships
  ∧ sublist (Template.filteredRelationships showRelationships
               (Template.filteredNodes nodes selectedModule searchTerm) relationships)
            relationships
  ∧ Main.filteredNodes nodes "all" "" = Object_values nodes
  ∧ Template.filteredNodes nodes "all" "" = Object_values nodes.
Proof.
  repeat split; try apply List_filter_sublist; try (by apply List_filter_all).
  all: unfold Main.filteredRelationships, Template.filteredRelationships;
    destruct showRelationships; simpl;
    [apply List_filter_sublist | apply sublist_nil_l].
Qed.

(** X14 - A relationship one end of which is no node is never visible, in
    either component and under every filter. *)
Theorem dangling_edge_is_never_visible (nodes : NodesObject)
    (relationships : list Relationship) (selectedModule searchTerm : string)
    (showRelationships : bool) (rel : Relationship) :
  (∀ n, n ∈ Object_values nodes → node_id n ≠ rel_from rel)
  ∨ (∀ n, n ∈ Object_values nodes → node_id n ≠ rel_to rel) →
  rel ∉ Main.filteredRelationships showRelationships
          (Main.filteredNodes nodes selectedModule searchTerm) relationships
  ∧ rel ∉ Template.filteredRelationships showRelationships
            (Template.filteredNodes nodes selectedModule searchTerm) relationships.
Proof.
  intros Hdangling.
  assert (∀ n, n ∈ Main.filteredNodes nodes selectedModule searchTerm →
               n ∈ Object_values nodes) as HM.
  { intros n Hn. eapply elem_of_sublist; [exact Hn | apply List_filter_sublist]. }
  assert (∀ n, n ∈ Template.filteredNodes nodes selectedModule searchTerm →
               n ∈ Object_values nodes) as HT.
  { intros n Hn. eapply elem_of_sublist; [exact Hn | apply List_filter_sublist]. }
  split.
  - intros (_ & _ & (n1 & E1 & H1) & (n2 & E2 & H2))%Main_visible_edge_iff.
    destruct Hdangling as [Hd|Hd]; [eapply (Hd n1) | eapply (Hd n2)]; eauto.
  - intros (_ & _ & (n1 & E1 & H1) & (n2 & E2 & H2))%Template_visible_edge_iff.
    destruct Hdangling as [Hd|Hd]; [eapply (Hd n1) | eapply (Hd n2)]; eauto.
Qed.

Lemma dangling_edge_is_never_visible_witness :
  relAZ ∉ Main.filteredRelationships true (Main.filteredNodes nodesAB "all" "")
            [relAB; relAZ].
Proof.
  apply (dangling_edge_is_never_visible nodesAB [relAB; relAZ] "all" "" true relAZ).
  right. intros n Hn. apply list_elem_of_In in Hn.
  destruct Hn as [<-|[<-|[]]]; discriminate.
Defined.

Lemma lower_ascii_idem (c : ascii) : lower_ascii (lower_ascii c) = lower_ascii c.
Proof.
  destruct c as [[] [] [] [] [] [] [] []]; reflexivity.
Qed.

Lemma toLowerCase_idem (t : string) : toLowerCase (toLowerCase t) = toLowerCase t.
Proof. induction t as [|c t IH]; simpl; [done|]. by rewrite lower_ascii_idem, IH. Qed.

Lemma toLowerCase_empty (t : string) : String.eqb (toLowerCase t) "" = String.eqb t "".
Proof. by destruct t. Qed.

(** X15 - The search ignores the case of the term: two terms with the same
    lower-case form select the same nodes in both components. *)
Theorem search_ignores_case (nodes : NodesObject) (selectedModule t1 t2 : string) :
  toLowerCase t1 = toLowerCase t2 →
  Main.filteredNodes nodes selectedModule t1 = Main.filteredNodes nodes selectedModule t2
  ∧ Template.filteredNodes nodes selectedModule t1
    = Template.filteredNodes nodes selectedModule t2.
Proof.
  intros Hlow.
  assert (String.eqb t1 "" = String.eqb t2 "") as Hempty
    by (by rewrite <- (toLowerCase_empty t1), <- (toLowerCase_empty t2), Hlow).
  unfold Main.filteredNodes, Template.filteredNodes.
  by rewrite Hlow, Hempty.
Qed.

Lemma search_ignores_case_witness :
  Main.filteredNodes nodesAB "all" "FIRST" = Main.filteredNodes nodesAB "all" "first".
Proof.
  destruct (search_ignores_case nodesAB "all" "FIRST" "first" eq_refl) as [HMain _].
  exact HMain.
Defined.

Lemma placeNode_cases (computed : gmap string (Position float))
    (nextX nextY : float) (key : string) :
  (is_Some (obj_read computed key)
   ∧ Template.placeNode (computed, nextX, nextY) key = (computed, nextX, nextY))
  ∨ (computed !! key = None ∧ inherited key = false
     ∧ (Template.placeNode (computed, nextX, nextY) key).1.1
       = <[key := {| pos_x := nextX; pos_y := nextY |}]> computed).
Proof.
  unfold Template.placeNode.
  destruct (obj_read computed key) as [p|] eqn:Hread; [left; eauto|].
  right. apply obj_read_None in Hread as [Hown Hinh].
  split; [done|]. split; [done|]. by destruct (_ <? _)%float.
Qed.

Lemma placeNode_fold_spec (keys : list string)
    (acc : gmap string (Position float) * float * float) :
  let result := (foldl Template.placeNode acc keys).1.1 in
  (∀ k p, acc.1.1 !! k = Some p → result !! k = Some p)
  ∧ (∀ k, k ∈ keys → inherited k = false → is_Some (result !! k))
  ∧ (∀ k, is_Some (result !! k) →
          (k ∈ keys ∧ inherited k = false) ∨ is_Some (acc.1.1 !! k)).
Proof.
  revert acc. induction keys as [|key keys IH]; intros acc; cbn zeta.
  - cbn. split; [done|]. split; [by intros k ?%elem_of_nil | by right].
  - cbn [foldl]. destruct (IH (Template.placeNode acc key)) as (Hkeep & Hall & Honly).
    destruct acc as [[computed nextX] nextY].
    assert (∀ k p, computed !! k = Some p →
                   (Template.placeNode (computed, nextX, nextY) key).1.1 !! k = Some p)
      as Hstep.
    { intros k p Hk.
      destruct (placeNode_cases computed nextX nextY key)
        as [[_ ->]|(Hown & _ & ->)]; [done|].
      rewrite lookup_insert_ne by congruence. done. }
    assert (inherited key = false →
            is_Some ((Template.placeNode (computed, nextX, nextY) key).1.1 !! key))
      as Hkey.
    { intros Hinh.
      destruct (placeNode_cases computed nextX nextY key)
        as [[[p Hp] ->]|(_ & _ & ->)].
      - cbn. unfold obj_read in Hp. rewrite Hinh in Hp.
        destruct (computed !! key); [eauto | discriminate].
      - rewrite lookup_insert_eq. eauto. }
    assert (∀ k, is_Some ((Template.placeNode (computed, nextX, nextY) key).1.1 !! k) →
                 (k = key ∧ inherited key = false) ∨ is_Some (computed !! k)) as Hback.
    { intros k.
      destruct (placeNode_cases computed nextX nextY key)
        as [[_ ->]|(_ & Hinh & ->)]; [auto|].
      destruct (decide (k = key)) as [->|Hne]; [auto|].
      rewrite lookup_insert_ne by done. auto. }
    cbn [fst]. split; [|split].
    + intros k p Hk. by apply Hkeep, Hstep.
    + intros k [->|Hk]%elem_of_cons Hinh; [|by apply Hall].
      destruct (Hkey Hinh) as [p Hp]. rewrite (Hkeep _ _ Hp). eauto.
    + intros k Hk. destruct (Honly k Hk) as [[Hin Hinh]|Hsome].
      * left. split; [by right | done].
      * destruct (Hback k Hsome) as [[-> Hinh]|?]; [left; split; [by left | done] | by right].
Qed.

(** Every key of [nodes] reads as a truthy value in [nodePositions]: its
    own position, or what [Object.prototype] provides. *)
Lemma nodePositions_read (nodes : NodesObject)
    (positions : gmap string (Position float)) (k : string) :
  k ∈ Object_keys nodes →
  is_Some (obj_read (Template.nodePositions nodes positions) k).
Proof.
  intros Hk. unfold obj_read.
  destruct (Template.nodePositions nodes positions !! k) eqn:Hown; [eauto|].
  destruct (inherited k) eqn:Hinh; [eauto|].
  destruct (placeNode_fold_spec (Object_keys nodes)
              (positions, pos_x (Template.DEFAULT_CENTER (num:=float)),
               pos_y (Template.DEFAULT_CENTER (num:=float))))
    as (_ & Hall & _).
  destruct (Hall k Hk Hinh) as [p Hp].
  unfold Template.nodePositions in Hown. rewrite Hown in Hp. discriminate.
Qed.


(** ** Edge layer of the template *)

(** X17 - When every node is stored under its id, the template draws every
    visible relationship: with the fallback positions no element of the
    edge layer is skipped. *)
Theorem Template_draws_every_visible_edge (nodes : NodesObject)
    (relationships : list Relationship) (positions : gmap string (Position float))
    (selectedModule searchTerm : string) (showRelationships : bool)
    (selectedNode : option string) :
  (∀ n, n ∈ Object_values nodes → node_id n ∈ Object_keys nodes) →
  Forall is_Some
    (Template.renderEdges nodes relationships positions selectedModule searchTerm
       showRelationships selectedNode).
Proof.
  intros Hkeys. unfold Template.renderEdges.
  apply Forall_lookup. intros i el Hel.
  rewrite list_lookup_imap in Hel.
  destruct (_ !! i) as [rel|] eqn:Hrel; [|done]. cbn in Hel.
  apply list_elem_of_lookup_2, Template_visible_edge_iff in Hrel
    as (_ & _ & (n1 & E1 & H1) & (n2 & E2 & H2)).
  assert (∀ n, n ∈ Template.filteredNodes nodes selectedModule searchTerm →
               is_Some (obj_read (Template.nodePositions nodes positions) (node_id n)))
    as Hpos.
  { intros n Hn. apply nodePositions_read, Hkeys.
    eapply elem_of_sublist; [exact Hn | apply List_filter_sublist]. }
  destruct (Hpos n1 H1) as [p1 Hp1]. destruct (Hpos n2 H2) as [p2 Hp2].
  rewrite <- E1 in Hp1. rewrite <- E2 in Hp2.
  unfold Template.renderEdge in Hel. rewrite Hp1, Hp2 in Hel. cbn in Hel.
  by simplify_eq.
Qed.

Lemma Template_draws_every_visible_edge_witness :
  Forall is_Some (Template.renderEdges nodesAB [relAB] ∅ "all" "" true None).
Proof.
  apply (Template_draws_every_visible_edge nodesAB [relAB] ∅ "all" "" true None).
  intros n Hn. apply list_elem_of_In in Hn. apply list_elem_of_In.
  destruct Hn as [<-|[<-|[]]]; [left | right; left]; reflexivity.
Defined.

(** ** Journey form and step annotation *)

Lemma buildDataFlow_steps (i : Z) (pathArr : list string) (df : DataFlow) :
  df ∈ Main.buildDataFlow i pathArr → i < df_step df.
Proof.
  revert i. induction pathArr as [|a [|b rest] IH]; intros i; cbn [Main.buildDataFlow].
  - by intros ?%elem_of_nil.
  - by intros ?%elem_of_nil.
  - intros [->|Hin]%elem_of_cons; [cbn; lia|]. apply IH in Hin. lia.
Qed.

Lemma buildDataFlow_length (i : Z) (pathArr : list string) :
  length (Main.buildDataFlow i pathArr) = pred (length pathArr).
Proof.
  revert i. induction pathArr as [|a [|b rest] IH]; intros i; try done.
  change (S (length (Main.buildDataFlow (i + 1) (b :: rest))) = S (length rest)).
  by rewrite IH.
Qed.

Lemma buildDataFlow_find (i : Z) (pathArr : list string) (k : nat) :
  List.find (λ df, df_step df =? i + Z.of_nat k + 1) (Main.buildDataFlow i pathArr)
  = match pathArr !! k, pathArr !! S k with
    | Some a, Some b =>
        Some {| df_step := i + Z.of_nat k + 1; df_from := a; df_to := b;
                df_action := "Flow from " +:+ underscoresToSpaces a
                               +:+ " to " +:+ underscoresToSpaces b |}
    | _, _ => None
    end.
Proof.
  revert i k. induction pathArr as [|a [|b rest] IH]; intros i k.
  - done.
  - destruct k as [|[|k]]; done.
  - cbn [Main.buildDataFlow List.find df_step].
    destruct k as [|k].
    + replace (i + Z.of_nat 0 + 1) with (i + 1) by lia.
      by rewrite Z.eqb_refl.
    + destruct (Z.eqb_spec (i + 1) (i + Z.of_nat (S k) + 1)) as [?|_]; [lia|].
      replace (i + Z.of_nat (S k) + 1) with (i + 1 + Z.of_nat k + 1) by lia.
      rewrite IH. done.
Qed.

Section DataFlow.
Context {num : Type} `{!JSNum num}.
Import Main.

(** X18 - For a journey whose data flow the form generated from the path,
    the annotation under the progress bar, when shown, is the one of the
    next step, goes from the current node along an active edge, and its
    text names the two nodes; it is absent exactly when no edge is
    active. *)
Theorem generated_annotation_names_the_active_edge (s : State num) (sc : Scenario)
    (pathArr : list string) :
  activeScenario s = Some sc →
  sc_path sc = Some pathArr →
  sc_dataFlow sc = buildDataFlow 0 pathArr →
  0 <= animationStep s →
  match currentDataFlow s with
  | Some df =>
      df_step df = animationStep s + 1
      ∧ isNodeCurrent (df_from df) s = true
      ∧ isEdgeActive (df_from df) (df_to df) s = true
      ∧ df_action df = "Flow from " +:+ underscoresToSpaces (df_from df)
                         +:+ " to " +:+ underscoresToSpaces (df_to df)
  | None => ∀ a b, isEdgeActive a b s = false
  end.
Proof.
  intros Hsc Hpath Hflow Hstep.
  unfold currentDataFlow, isNodeCurrent, isEdgeActive, path_length.
  rewrite Hsc, Hpath, Hflow.
  destruct (Z.ltb_spec (animationStep s) 0) as [?|_]; [lia|].
  destruct (Z.leb_spec 0 (animationStep s)) as [_|?]; [|lia].
  set (k := Z.to_nat (animationStep s)).
  assert (animationStep s = Z.of_nat k) as Hk by lia.
  pose proof (buildDataFlow_find 0 pathArr k) as Hfind.
  replace (0 + Z.of_nat k + 1) with (animationStep s + 1) in Hfind by lia.
  rewrite Hfind. clear Hfind.
  assert (array_get pathArr (animationStep s) = pathArr !! k) as Hcur.
  { unfold array_get. destruct (Z.ltb_spec (animationStep s) 0); [lia|done]. }
  assert (array_get pathArr (animationStep s + 1) = pathArr !! S k) as Hnext.
  { unfold array_get. destruct (Z.ltb_spec (animationStep s + 1) 0); [lia|].
    f_equal. lia. }
  cbn [mbind option_bind orb]. rewrite Hcur, Hnext.
  destruct (pathArr !! k) as [a|] eqn:Ha.
  - destruct (pathArr !! S k) as [b|] eqn:Hb.
    + cbn [df_step df_from df_to df_action opt_strict_eq andb].
      apply lookup_lt_Some in Hb.
      destruct (Z.leb_spec (Z.of_nat (length pathArr) - 1) (animationStep s)); [lia|].
      rewrite String.eqb_refl, !bool_decide_eq_true_2 by done.
      repeat split; lia.
    + intros a' b'. apply lookup_ge_None in Hb.
      destruct (Z.leb_spec (Z.of_nat (length pathArr) - 1) (animationStep s)); [done|lia].
  - intros a' b'. apply lookup_ge_None in Ha.
    destruct (Z.leb_spec (Z.of_nat (length pathArr) - 1) (animationStep s)); [done|lia].
Qed.
End DataFlow.

Lemma generated_annotation_names_the_active_edge_witness :
  match Main.currentDataFlow statePlayingFromForm with
  | Some df =>
      df_step df = Main.animationStep statePlayingFromForm + 1
      ∧ Main.isNodeCurrent (df_from df) statePlayingFromForm = true
      ∧ Main.isEdgeActive (df_from df) (df_to df) statePlayingFromForm = true
      ∧ df_action df = "Flow from " +:+ underscoresToSpaces (df_from df)
                         +:+ " to " +:+ underscoresToSpaces (df_to df)
  | None => ∀ a b, Main.isEdgeActive a b statePlayingFromForm = false
  end.
Proof.
  apply (generated_annotation_names_the_active_edge statePlayingFromForm
           scenarioFromForm ["A"; "B"; "C"]%string).
  - reflexivity.
  - reflexivity.
  - reflexivity.
  - vm_compute. discriminate.
Defined.

Lemma split_comma_cons (s : string) : ∃ p ps, split_comma s = p :: ps.
Proof.
  induction s as [|c s (p & ps & IH)]; cbn; [eauto|].
  destruct (Ascii.eqb c ","); [eauto|]. rewrite IH. eauto.
Qed.

Lemma split_comma_no_comma (s : string) :
  has_comma s = false → split_comma s = [s].
Proof.
  induction s as [|c s IH]; cbn; [done|].
  intros [Hc Hs]%orb_false_iff. by rewrite Hc, IH.
Qed.

Lemma split_comma_app (a rest : string) :
  has_comma a = false →
  split_comma (a +:+ String "," rest) = a :: split_comma rest.
Proof.
  induction a as [|c a IH]; [done|].
  cbn [has_comma]. intros [Hc Ha]%orb_false_iff.
  change (String c a +:+ String "," rest) with (String c (a +:+ String "," rest)).
  cbn [split_comma]. by rewrite Hc, IH.
Qed.

Lemma split_comma_pieces (s p : string) :
  p ∈ split_comma s → has_comma p = false.
Proof.
  revert p. induction s as [|c s IH]; cbn; intros p.
  - by intros ->%list_elem_of_singleton.
  - destruct (Ascii.eqb c ",") eqn:Hc.
    + intros [->|Hp]%elem_of_cons; [done|by apply IH].
    + destruct (split_comma_cons s) as (q & qs & Hq). rewrite Hq in *.
      intros [->|Hp]%elem_of_cons.
      * cbn. rewrite Hc. apply IH. by left.
      * apply IH. by right.
Qed.

Lemma trimStart_starts_clean (s : string) : starts_clean (trimStart s) = true.
Proof.
  induction s as [|c s IH]; cbn; [done|].
  destruct (is_space c) eqn:Hc; [done|]. cbn. by rewrite Hc.
Qed.

Lemma trimStart_clean (s : string) : starts_clean s = true → trimStart s = s.
Proof. destruct s as [|c s]; cbn; [done|]. by intros ->%negb_true_iff. Qed.

Lemma trimEnd_starts_clean (s : string) :
  starts_clean s = true → starts_clean (trimEnd s) = true.
Proof.
  destruct s as [|c s]; cbn; [done|]. intros Hc.
  apply negb_true_iff in Hc as Hc'. rewrite Hc'. cbn. done.
Qed.

Lemma trimEnd_idem (s : string) : trimEnd (trimEnd s) = trimEnd s.
Proof.
  induction s as [|c s IH]; cbn; [done|].
  destruct (is_space c && String.eqb (trimEnd s) "") eqn:Hc; [done|].
  cbn. by rewrite IH, Hc.
Qed.

Lemma trim_idem (s : string) : trim (trim s) = trim s.
Proof.
  unfold trim.
  rewrite (trimStart_clean (trimEnd (trimStart s)))
    by apply trimEnd_starts_clean, trimStart_starts_clean.
  apply trimEnd_idem.
Qed.

Lemma trimStart_has_comma (s : string) :
  has_comma s = false → has_comma (trimStart s) = false.
Proof.
  induction s as [|c s IH]; cbn; [done|].
  intros [Hc Hs]%orb_false_iff.
  destruct (is_space c); [by apply IH|]. cbn. by rewrite Hc, Hs.
Qed.

Lemma trimEnd_has_comma (s : string) :
  has_comma s = false → has_comma (trimEnd s) = false.
Proof.
  induction s as [|c s IH]; cbn; [done|].
  intros [Hc Hs]%orb_false_iff.
  destruct (is_space c && String.eqb (trimEnd s) ""); [done|].
  cbn. by rewrite Hc, IH.
Qed.

Lemma String_eqb_true (a b : string) : String.eqb a b = true ↔ a = b.
Proof. apply String.eqb_eq. Qed.

Lemma cleanEntry_spec (s : string) :
  cleanEntry s = true ↔ s ≠ "" ∧ trim s = s ∧ has_comma s = false.
Proof.
  unfold cleanEntry. rewrite !andb_true_iff, negb_true_iff, String.eqb_eq.
  rewrite truthy_string_true. tauto.
Qed.

Lemma join_split (a : string) (l : list string) :
  Forall (λ s, cleanEntry s = true) (a :: l) →
  map trim (split_comma (joinCommaSpace (a :: l))) = a :: l.
Proof.
  revert a. induction l as [|b l IH]; intros a Hall.
  - apply Forall_inv in Hall. apply cleanEntry_spec in Hall as (_ & Htrim & Hcomma).
    cbn. rewrite split_comma_no_comma by done. cbn. by rewrite Htrim.
  - apply Forall_cons in Hall as [Ha Hall].
    apply cleanEntry_spec in Ha as (_ & Htrim & Hcomma).
    specialize (IH b Hall).
    change (joinCommaSpace (a :: b :: l))
      with (a +:+ String "," (String " " (joinCommaSpace (b :: l)))).
    rewrite split_comma_app by done.
    cbn [split_comma map]. change (Ascii.eqb " " ",") with false. cbn match.
    destruct (split_comma_cons (joinCommaSpace (b :: l))) as (p & ps & Hp).
    rewrite Hp in *. cbn [map] in *.
    rewrite Htrim. f_equal. exact IH.
Qed.

Lemma filter_truthy_clean (l : list string) :
  Forall (λ s, cleanEntry s = true) l → List.filter truthy_string l = l.
Proof.
  induction 1 as [|s l Hs _ IH]; cbn; [done|].
  apply andb_true_iff in Hs as [[-> _]%andb_true_iff _]. by rewrite IH.
Qed.

Lemma parse_join (l : list string) :
  Forall (λ s, cleanEntry s = true) l → parseCommaList (joinCommaSpace l) = l.
Proof.
  intros Hall. destruct l as [|a l]; [done|].
  unfold parseCommaList.
  assert (truthy_string (joinCommaSpace (a :: l)) = true) as ->.
  { apply Forall_inv in Hall. apply cleanEntry_spec in Hall as (Hne & _).
    destruct a; [done|]. by destruct l. }
  rewrite join_split by done. by apply filter_truthy_clean.
Qed.

Lemma parse_clean (x : string) :
  Forall (λ s, cleanEntry s = true) (parseCommaList x).
Proof.
  unfold parseCommaList. destruct (truthy_string x); [|constructor].
  apply Forall_forall. intros s Hs.
  apply list_elem_of_In, filter_In in Hs as [Hin Htruthy].
  apply list_elem_of_In, list_elem_of_fmap in Hin as (p & -> & Hp).
  apply split_comma_pieces in Hp.
  unfold cleanEntry. rewrite Htruthy, trim_idem, String.eqb_refl. cbn.
  apply negb_true_iff. unfold trim.
  by apply trimEnd_has_comma, trimStart_has_comma.
Qed.

(** X19 - The parser of the comma-separated fields normalises: every entry
    it returns is not empty, has no comma and no white space at its ends,
    and joining its result with ", " and parsing again gives the same
    list. *)
Theorem comma_list_parser_normalises (x : string) :
  Forall (λ s, cleanEntry s = true) (parseCommaList x)
  ∧ parseCommaList (joinCommaSpace (parseCommaList x)) = parseCommaList x.
Proof. split; [apply parse_clean | apply parse_join, parse_clean]. Qed.

(** X20 - Opening a journey with clean path entries in the form and saving
    it untouched sends the same key, name, colour and path, with the stored
    data flow, or the generated one when none is stored. *)
Theorem saved_journey_reopens_unchanged (j : Scenario) (name key : string)
    (path : list string) :
  truthy_string (trim key) = true →
  truthy_string (trim name) = true →
  sc_path j = Some path →
  Forall (λ s, cleanEntry s = true) path →
  Main.journeyHandleSave (Main.journeyForm (Some (j, name)) key)
  = inr (key,
         {| Main.payload_name := name;
            Main.payload_color := sc_color j;
            Main.payload_path := path;
            Main.payload_dataFlow :=
              match sc_dataFlow j with
              | _ :: _ => sc_dataFlow j
              | [] => Main.buildDataFlow 0 path
              end |}).
Proof.
  intros Hkey Hname Hpath Hclean.
  unfold Main.journeyHandleSave, Main.journeyForm.
  cbn [Main.form_journey_key Main.form_name Main.form_color Main.form_path
       Main.form_dataFlow].
  rewrite Hkey, Hname, Hpath. cbn [negb orb]. by rewrite parse_join.
Qed.

Lemma saved_journey_reopens_unchanged_witness :
  Main.journeyHandleSave (Main.journeyForm (Some (scenarioABC, "Journey"%string)) "abc")
  = inr ("abc"%string,
         {| Main.payload_name := "Journey";
            Main.payload_color := sc_color scenarioABC;
            Main.payload_path := ["A"; "B"; "C"]%string;
            Main.payload_dataFlow := sc_dataFlow scenarioABC |}).
Proof.
  apply (saved_journey_reopens_unchanged scenarioABC "Journey" "abc"
           ["A"; "B"; "C"]%string).
  - reflexivity.
  - reflexivity.
  - reflexivity.
  - repeat constructor.
Defined.

(** ** Loading the nodes *)

Lemma obj_get_obj_replace (o : NodesObject) (k k' : string) (n : Node) :
  is_Some (obj_get o k) →
  obj_get (Main.obj_replace o k n) k'
  = if String.eqb k k' then Some n else obj_get o k'.
Proof.
  induction o as [|[k0 n0] o IH]; cbn; [by intros [? ?]|].
  destruct (String.eqb_spec k0 k) as [->|Hne]; cbn.
  - intros _. by destruct (String.eqb k k').
  - intros Hk. rewrite IH by done.
    destruct (String.eqb_spec k0 k') as [->|?]; [|done].
    by destruct (String.eqb_spec k k').
Qed.

Lemma obj_get_obj_add (o : NodesObject) (k k' : string) (n : Node) :
  obj_get o k = None →
  obj_get (Main.obj_add o k n) k'
  = if String.eqb k k' then Some n else obj_get o k'.
Proof.
  induction o as [|[k0 n0] o IH]; cbn; [done|].
  destruct (String.eqb_spec k0 k) as [->|Hne]; [discriminate|].
  intros Hk. destruct (Main.enumerated_before k k0); cbn.
  - destruct (String.eqb_spec k k') as [->|?]; [done|]. done.
  - rewrite IH by done.
    destruct (String.eqb_spec k0 k') as [->|?]; [|done].
    by destruct (String.eqb_spec k k').
Qed.

Lemma obj_get_obj_set (o : NodesObject) (k k' : string) (n : Node) :
  obj_get (Main.obj_set o k n) k' = if String.eqb k k' then Some n else obj_get o k'.
Proof.
  unfold Main.obj_set. destruct (obj_get o k) eqn:Hk.
  - apply obj_get_obj_replace. rewrite Hk. eauto.
  - by apply obj_get_obj_add.
Qed.

Lemma obj_get_keys (o : NodesObject) (k : string) :
  is_Some (obj_get o k) ↔ k ∈ Object_keys o.
Proof.
  unfold Object_keys. induction o as [|[k0 n0] o IH]; cbn.
  - split; [by intros [? ?] | by intros ?%elem_of_nil].
  - rewrite elem_of_cons, <- IH.
    destruct (String.eqb_spec k0 k) as [->|Hne]; [split; eauto|].
    split; [auto | intros [?|?]; congruence].
Qed.

Lemma obj_replace_entries (o : NodesObject) (k : string) (n : Node)
    (e : string * Node) :
  e ∈ Main.obj_replace o k n → e = (k, n) ∨ e ∈ o.
Proof.
  induction o as [|[k0 n0] o IH]; cbn; [by intros ?%elem_of_nil|].
  destruct (String.eqb k0 k).
  - intros [->|?]%elem_of_cons; [by left | right; by right].
  - intros [->|[->|?]%IH]%elem_of_cons; [right; by left | by left | right; by right].
Qed.

Lemma obj_add_entries (o : NodesObject) (k : string) (n : Node)
    (e : string * Node) :
  e ∈ Main.obj_add o k n ↔ e = (k, n) ∨ e ∈ o.
Proof.
  induction o as [|[k0 n0] o IH]; cbn.
  - rewrite list_elem_of_singleton, elem_of_nil. tauto.
  - destruct (Main.enumerated_before k k0).
    + rewrite !elem_of_cons. tauto.
    + rewrite !elem_of_cons, IH. tauto.
Qed.

Lemma obj_set_entries (o : NodesObject) (k : string) (n : Node) (e : string * Node) :
  e ∈ Main.obj_set o k n → e = (k, n) ∨ e ∈ o.
Proof.
  unfold Main.obj_set. destruct (obj_get o k).
  - apply obj_replace_entries.
  - apply obj_add_entries.
Qed.

Lemma obj_replace_keys (o : NodesObject) (k : string) (n : Node) :
  Object_keys (Main.obj_replace o k n) = Object_keys o.
Proof.
  unfold Object_keys. induction o as [|[k0 n0] o IH]; cbn; [done|].
  destruct (String.eqb_spec k0 k) as [->|Hne]; cbn; [done|]. by rewrite IH.
Qed.

Lemma obj_add_keys (o : NodesObject) (k k' : string) (n : Node) :
  k' ∈ Object_keys (Main.obj_add o k n) ↔ k' = k ∨ k' ∈ Object_keys o.
Proof.
  unfold Object_keys. induction o as [|[k0 n0] o IH]; cbn.
  - rewrite list_elem_of_singleton, elem_of_nil. tauto.
  - destruct (Main.enumerated_before k k0); cbn.
    + rewrite !elem_of_cons. tauto.
    + rewrite !elem_of_cons, IH. tauto.
Qed.

Lemma obj_add_NoDup (o : NodesObject) (k : string) (n : Node) :
  k ∉ Object_keys o → NoDup (Object_keys o) →
  NoDup (Object_keys (Main.obj_add o k n)).
Proof.
  unfold Object_keys. induction o as [|[k0 n0] o IH]; cbn.
  - intros _ _. apply NoDup_singleton.
  - intros Hk [Hnotin Hnd]%NoDup_cons.
    apply not_elem_of_cons in Hk as [Hne Hk].
    destruct (Main.enumerated_before k k0); cbn.
    + apply NoDup_cons. split; [|by apply NoDup_cons].
      rewrite elem_of_cons. tauto.
    + apply NoDup_cons. split; [|by apply IH].
      intros [?|?]%obj_add_keys; done.
Qed.

Lemma obj_set_keys (o : NodesObject) (k k' : string) (n : Node) :
  k' ∈ Object_keys (Main.obj_set o k n) ↔ k' = k ∨ k' ∈ Object_keys o.
Proof.
  unfold Main.obj_set. destruct (obj_get o k) eqn:Hk.
  - rewrite obj_replace_keys. split; [auto|]. intros [->|?]; [|done].
    apply obj_get_keys. rewrite Hk. eauto.
  - apply obj_add_keys.
Qed.

Lemma obj_set_NoDup (o : NodesObject) (k : string) (n : Node) :
  NoDup (Object_keys o) → NoDup (Object_keys (Main.obj_set o k n)).
Proof.
  unfold Main.obj_set. destruct (obj_get o k) eqn:Hk.
  - by rewrite obj_replace_keys.
  - apply obj_add_NoDup. rewrite <- obj_get_keys, Hk. by intros [? ?].
Qed.

Lemma loadNodes_fold_entries (l : list (option Node)) (acc : NodesObject) :
  (NoDup (Object_keys acc) → NoDup (Object_keys (foldl Main.loadStep acc l)))
  ∧ (∀ k n, (k, n) ∈ foldl Main.loadStep acc l →
            (k, n) ∈ acc
            ∨ (node_id n = k ∧ k ≠ ""%string ∧ k ≠ "__proto__"%string
               ∧ Some n ∈ l)).
Proof.
  revert acc. induction l as [|x l IH]; intros acc.
  - cbn. split; [done|auto].
  - cbn [foldl]. destruct (IH (Main.loadStep acc x)) as (Hnd & Hin).
    split.
    + intros Hacc. apply Hnd. destruct x as [n|]; cbn; [|done].
      destruct (truthy_string (node_id n)); [|done].
      destruct (String.eqb _ "__proto__"); [done | by apply obj_set_NoDup].
    + intros k n [Hacc|(? & ? & ? & ?)]%Hin.
      * destruct x as [n0|]; cbn in Hacc; [|by left].
        destruct (truthy_string (node_id n0)) eqn:Ht; [|by left].
        destruct (String.eqb_spec (node_id n0) "__proto__") as [|Hproto];
          [by left|].
        apply obj_set_entries in Hacc as [[= -> ->]|?]; [|by left].
        right. split; [done|]. split; [by apply truthy_string_true|].
        split; [done | by left].
      * right. split; [done|]. split; [done|]. split; [done | by right].
Qed.

Lemma loadNodes_fold_get (l : list (option Node)) (acc : NodesObject) (k : string) :
  k ≠ ""%string → k ≠ "__proto__"%string →
  obj_get (foldl Main.loadStep acc l) k
  = match lastWithId l k with
    | Some n => Some n
    | None => obj_get acc k
    end.
Proof.
  intros Hk Hproto. revert acc. induction l as [|x l IH]; intros acc; [done|].
  cbn [foldl lastWithId]. rewrite IH.
  destruct (lastWithId l k); [done|].
  destruct x as [n|]; cbn; [|done].
  destruct (truthy_string (node_id n)) eqn:Ht.
  - destruct (String.eqb_spec (node_id n) "__proto__") as [Hp|_].
    + destruct (String.eqb_spec (node_id n) k); [congruence | done].
    + rewrite obj_get_obj_set. by destruct (String.eqb (node_id n) k).
  - destruct (String.eqb_spec (node_id n) k) as [Heq|_]; [|done].
    rewrite <- Heq in Hk. apply truthy_string_true in Hk. congruence.
Qed.

(** X21 - The node map [loadData] builds has no key twice and holds only
    nodes of the list, each under its own id, which is neither empty nor
    [__proto__]; for every such id it holds the last element of the list
    with that id.  It has no own property [__proto__]: a node with that id
    becomes the prototype of the map instead. *)
Theorem loaded_nodes_are_keyed_by_id (nodesList : list (option Node)) :
  NoDup (Object_keys (Main.loadNodes nodesList))
  ∧ (∀ k n, (k, n) ∈ Main.loadNodes nodesList →
            node_id n = k ∧ k ≠ ""%string ∧ k ≠ "__proto__"%string
            ∧ Some n ∈ nodesList)
  ∧ (∀ k, k ≠ ""%string → k ≠ "__proto__"%string →
          obj_get (Main.loadNodes nodesList) k = lastWithId nodesList k)
  ∧ obj_get (Main.loadNodes nodesList) "__proto__" = None.
Proof.
  unfold Main.loadNodes.
  destruct (loadNodes_fold_entries nodesList []) as (Hnd & Hin).
  split; [apply Hnd; constructor|]. split; [|split].
  - intros k n [?%elem_of_nil|?]%Hin; done.
  - intros k Hk Hproto. rewrite loadNodes_fold_get by done.
    by destruct (lastWithId nodesList k).
  - destruct (obj_get _ _) as [n|] eqn:Hget; [|done].
    assert ("__proto__"%string ∈ Object_keys (foldl Main.loadStep [] nodesList))
      as Hkey by (apply obj_get_keys; rewrite Hget; eauto).
    apply list_elem_of_fmap in Hkey as ([k n'] & Heq & Hentry).
    cbn in Heq. subst k.
    apply Hin in Hentry as [?%elem_of_nil|(_ & _ & Hne & _)]; done.
Qed.

(** [fetchNodes] as a fold over the list. *)
Lemma fetchNodesMap_fold (nodesList : list (option Node)) :
  Api.fetchNodesMap nodesList
  = foldl (λ o x,
             match x with
             | Some n =>
                 if truthy_string (node_id n) then Main.obj_set o (node_id n) n
                 else o
             | None => o
             end)
      [] nodesList.
Proof.
  unfold Api.fetchNodesMap, Api.Object_fromEntries.
  generalize ([] : NodesObject).
  induction nodesList as [|x l IH]; intros acc; [done|].
  cbn [List.filter foldl].
  destruct x as [n|]; cbn [fmap option_fmap option_map truthy_id].
  - unfold truthy_id at 1. cbn [fmap option_fmap option_map].
    destruct (truthy_string (node_id n)) eqn:Ht;
      cbn [omap foldl fst snd fmap option_fmap option_map]; apply IH.
  - apply IH.
Qed.

Lemma fetch_fold_get (l : list (option Node)) (acc : NodesObject) (k : string) :
  k ≠ ""%string →
  obj_get
    (foldl (λ o x,
              match x with
              | Some n =>
                  if truthy_string (node_id n) then Main.obj_set o (node_id n) n
                  else o
              | None => o
              end)
       acc l) k
  = match lastWithId l k with
    | Some n => Some n
    | None => obj_get acc k
    end.
Proof.
  intros Hk. revert acc. induction l as [|x l IH]; intros acc; [done|].
  cbn [foldl lastWithId]. rewrite IH.
  destruct (lastWithId l k); [done|].
  destruct x as [n|]; [|done].
  destruct (truthy_string (node_id n)) eqn:Ht.
  - rewrite obj_get_obj_set. by destruct (String.eqb (node_id n) k).
  - destruct (String.eqb_spec (node_id n) k) as [Heq|_]; [|done].
    rewrite <- Heq in Hk. apply truthy_string_true in Hk. congruence.
Qed.

(** X22 - [fetchNodes] of api.ts and [loadData] of main.jsx build the same
    map from a list in which no node has the id [__proto__], and from any
    list maps that hold the same node under every id other than
    [__proto__] and the empty one.  They differ on a node whose id is
    [__proto__]: [Object.fromEntries] defines the own property, the
    assignment in [loadData] does not. *)
Theorem both_loaders_build_the_same_map (nodesList : list (option Node)) :
  (Forall (λ x, node_id <$> x ≠ Some "__proto__"%string) nodesList →
   Api.fetchNodesMap nodesList = Main.loadNodes nodesList)
  ∧ (∀ k, k ≠ ""%string → k ≠ "__proto__"%string →
          obj_get (Api.fetchNodesMap nodesList) k
          = obj_get (Main.loadNodes nodesList) k)
  ∧ obj_get (Api.fetchNodesMap nodesList) "__proto__"
    = lastWithId nodesList "__proto__"
  ∧ obj_get (Main.loadNodes nodesList) "__proto__" = None.
Proof.
  rewrite fetchNodesMap_fold. unfold Main.loadNodes. split; [|split; [|split]].
  - generalize ([] : NodesObject).
    induction nodesList as [|x l IH]; intros acc Hall; [done|].
    apply Forall_cons in Hall as [Hx Hall]. cbn [foldl].
    rewrite IH by done. f_equal.
    destruct x as [n|]; cbn; [|done].
    destruct (truthy_string (node_id n)); [|done].
    destruct (String.eqb_spec (node_id n) "__proto__") as [Heq|_]; [|done].
    cbn in Hx. congruence.
  - intros k Hk Hproto.
    by rewrite fetch_fold_get, loadNodes_fold_get.
  - rewrite fetch_fold_get by done. by destruct (lastWithId _ _).
  - destruct (loadNodes_fold_entries nodesList []) as (_ & Hin).
    destruct (obj_get _ _) as [n|] eqn:Hget; [|done].
    assert ("__proto__"%string ∈ Object_keys (foldl Main.loadStep [] nodesList))
      as Hkey by (apply obj_get_keys; rewrite Hget; eauto).
    apply list_elem_of_fmap in Hkey as ([k n'] & Heq & Hentry).
    cbn in Heq. subst k.
    apply Hin in Hentry as [?%elem_of_nil|(_ & _ & Hne & _)]; done.
Qed.

(** A list with a node whose id is [__proto__]: only [fetchNodes] keeps
    it. *)
Lemma both_loaders_build_the_same_map_witness :
  Api.fetchNodesMap [Some nodeA; Some nodeB] = Main.loadNodes [Some nodeA; Some nodeB]
  ∧ obj_get (Api.fetchNodesMap [Some nodeA; Some nodeProto]) "__proto__"
    = Some nodeProto
  ∧ obj_get (Main.loadNodes [Some nodeA; Some nodeProto]) "__proto__" = None.
Proof.
  split.
  - apply (both_loaders_build_the_same_map [Some nodeA; Some nodeB]).
    repeat constructor; discriminate.
  - split; reflexivity.
Defined.

(** ** Editing the template's graph *)

Lemma obj_get_obj_delete (o : NodesObject) (k k' : string) :
  obj_get (Template.obj_delete o k) k'
  = if String.eqb k k' then None else obj_get o k'.
Proof.
  induction o as [|[k0 n0] o IH]; cbn.
  - by destruct (String.eqb k k').
  - destruct (String.eqb_spec k0 k) as [->|Hne]; cbn.
    + rewrite IH. destruct (String.eqb_spec k k') as [->|?]; [done|].
      destruct (String.eqb_spec k k'); done.
    + rewrite IH. destruct (String.eqb_spec k0 k') as [->|?]; [|done].
      destruct (String.eqb_spec k k') as [->|?]; done.
Qed.

Section Editing.
Context {num : Type} `{!JSNum num}.
Import Template.

Lemma remaining_relationships (id : string) (rels : list StoredRelationship)
    (r : StoredRelationship) :
  r ∈ List.filter
        (λ r, negb (String.eqb (rel_from (rel_data r)) id)
              && negb (String.eqb (rel_to (rel_data r)) id))
        rels
  ↔ r ∈ rels ∧ rel_from (rel_data r) ≠ id ∧ rel_to (rel_data r) ≠ id.
Proof.
  rewrite list_elem_of_In, filter_In, <- list_elem_of_In.
  rewrite andb_true_iff, !negb_true_iff, !String.eqb_neq. tauto.
Qed.

(** X23 - Deleting a node of the template removes the node, its position
    and every relationship that touches it, clears the selection, and
    leaves every other node, position and relationship as it is. *)
Theorem delete_node_cascade (id : string) (g : Graph num) :
  id ≠ ""%string →
  let g' := handleDeleteNode (Some id) g in
  obj_get (nodes g') id = None
  ∧ positions g' !! id = None
  ∧ selectedNode g' = None
  ∧ (∀ r, r ∈ relationships g' ↔
          r ∈ relationships g
          ∧ rel_from (rel_data r) ≠ id ∧ rel_to (rel_data r) ≠ id)
  ∧ (∀ k, k ≠ id → obj_get (nodes g') k = obj_get (nodes g) k
                    ∧ positions g' !! k = positions g !! k).
Proof.
  intros Hid%truthy_string_true. cbn zeta. unfold handleDeleteNode. rewrite Hid.
  cbn [nodes positions selectedNode relationships].
  split; [by rewrite obj_get_obj_delete, String.eqb_refl|].
  split; [by rewrite lookup_delete_eq|]. split; [done|]. split.
  - intros r. apply remaining_relationships.
  - intros k Hk. rewrite obj_get_obj_delete, lookup_delete_ne by done.
    by destruct (String.eqb_spec id k).
Qed.

(** X24 - A graph without dangling relationships stays so under every
    edit of the template, provided a saved relationship joins two nodes of
    the graph. *)
Theorem edits_keep_the_graph_free_of_dangling_edges (e : GraphEdit num) (g : Graph num) :
  danglingFree g →
  match e with
  | EditSaveRelationship _ data _ =>
      is_Some (obj_get (nodes g) (payload_from data))
      ∧ is_Some (obj_get (nodes g) (payload_to data))
  | _ => True
  end →
  danglingFree (applyEdit e g).
Proof.
  intros Hg He. destruct e as [create data position|nodeId|now data relId|confirmed relId];
    cbn [applyEdit].
  - intros r Hr. cbn in Hr. destruct (Hg r Hr) as [H1 H2].
    cbn [handleSaveNode nodes]. rewrite !obj_get_obj_set.
    split; destruct (String.eqb _ _); eauto.
  - destruct nodeId as [id|]; [|done]. cbn [handleDeleteNode].
    destruct (truthy_string id) eqn:Hid; [|done].
    apply truthy_string_true in Hid.
    intros r Hr. cbn [relationships] in Hr.
    apply remaining_relationships in Hr as (Hr & Hfrom & Hto).
    cbn [nodes]. rewrite !obj_get_obj_delete.
    destruct (Hg r Hr) as [H1 H2].
    destruct (String.eqb_spec id (rel_from (rel_data r))); [done|].
    destruct (String.eqb_spec id (rel_to (rel_data r))); done.
  - destruct He as [Hfrom Hto]. intros r Hr. cbn [handleSaveRelationship nodes relationships] in *.
    destruct relId as [id|].
    + apply list_elem_of_fmap in Hr as (r0 & -> & Hr0).
      case_bool_decide; [by cbn | by apply Hg].
    + apply elem_of_app in Hr as [Hr| ->%list_elem_of_singleton]; [by apply Hg | by cbn].
  - unfold handleDeleteRelationship. destruct confirmed; [|done].
    intros r Hr. cbn [nodes relationships] in *.
    apply list_elem_of_In, filter_In in Hr as [Hr%list_elem_of_In _]. by apply Hg.
Qed.

Lemma member_round_trip (v : option string) :
  or_stored (when_truthy (or_empty v)) v = v.
Proof. by destruct v as [[|c t]|]. Qed.

Lemma member_blank (v : option string) :
  truthy_id v = false → truthy_string (or_empty v) = false.
Proof. by destruct v. Qed.

Lemma member_kept (v : option string) :
  absent_or_truthy v = true → when_truthy (or_empty v) = v.
Proof. destruct v as [t|]; cbn; [|done]. unfold when_truthy. by intros ->. Qed.

Lemma member_truthy (v : option string) :
  absent_or_truthy v = true → truthy_string (or_empty v) = truthy_id v.
Proof. by destruct v. Qed.

Lemma forallb_cleanEntry (l : list string) :
  forallb cleanEntry l = true → Forall (λ s, cleanEntry s = true) l.
Proof.
  induction l as [|x l IH]; cbn; [constructor|].
  intros [Hx Hl]%andb_true_iff. constructor; auto.
Qed.

Lemma joinCondition_round_trip (r : StoredRelationship) :
  stableJoinCondition (rel_joinCondition r) = true →
  or_stored (payload_joinCondition (buildPayload (relationshipForm (Some r))))
    (rel_joinCondition r)
  = rel_joinCondition r.
Proof.
  unfold buildPayload, relationshipForm.
  cbn [payload_joinCondition form_source form_logic form_tables].
  destruct (rel_joinCondition r) as [[source logic tables others]|]; [|done].
  cbn [stableJoinCondition mbind option_bind jc_source jc_logic jc_tables jc_others].
  intros [Hblank|Hnormal]%orb_true_iff.
  - apply andb_true_iff in Hblank as [[Hs Hl]%andb_true_iff Ht].
    apply negb_true_iff in Hs, Hl.
    rewrite (member_blank _ Hs), (member_blank _ Hl).
    destruct tables as [[t|l]|]; cbn in Ht |- *.
    + apply negb_true_iff in Ht. by rewrite Ht.
    + apply negb_true_iff in Ht. by rewrite Ht.
    + done.
  - apply andb_true_iff in Hnormal as [[[Ho Hs]%andb_true_iff Hl]%andb_true_iff Ht].
    apply negb_true_iff in Ho. subst others.
    rewrite (member_kept _ Hs), (member_kept _ Hl),
      (member_truthy _ Hs), (member_truthy _ Hl).
    destruct tables as [[t|[|a l]]|]; try discriminate.
    + apply forallb_cleanEntry in Ht.
      assert (truthy_string (joinCommaSpace (a :: l)) = true) as Htruthy.
      { apply Forall_inv in Ht. apply cleanEntry_spec in Ht as (Hne & _).
        destruct a; [done|]. by destruct l. }
      rewrite Htruthy, join_split, filter_truthy_clean by done.
      by rewrite !orb_true_r.
    + cbn [truthy_string String.eqb negb].
      destruct (truthy_id source || truthy_id logic || false) eqn:Hany; [done|].
      apply orb_false_iff in Hany as [[Hs' Hl']%orb_false_iff _].
      destruct source as [[|c t]|], logic as [[|c' t']|]; try done.
Qed.

Lemma dataLineage_round_trip (r : StoredRelationship) :
  stableDataLineage (rel_dataLineage r) = true →
  or_stored (payload_dataLineage (buildPayload (relationshipForm (Some r))))
    (rel_dataLineage r)
  = rel_dataLineage r.
Proof.
  unfold buildPayload, relationshipForm.
  cbn [payload_dataLineage form_fromKey form_toKey].
  destruct (rel_dataLineage r) as [[fromKey toKey others]|]; [|done].
  cbn [stableDataLineage mbind option_bind dl_fromKey dl_toKey dl_others].
  intros [Hblank|Hnormal]%orb_true_iff.
  - apply andb_true_iff in Hblank as [Hf Ht]. apply negb_true_iff in Hf, Ht.
    by rewrite (member_blank _ Hf), (member_blank _ Ht).
  - apply andb_true_iff in Hnormal as [[Ho Hf]%andb_true_iff Ht].
    apply negb_true_iff in Ho. subst others.
    rewrite (member_kept _ Hf), (member_kept _ Ht),
      (member_truthy _ Hf), (member_truthy _ Ht).
    destruct (truthy_id fromKey || truthy_id toKey) eqn:Hany; [done|].
    apply orb_false_iff in Hany as [Hf' Ht'].
    destruct fromKey as [[|c t]|], toKey as [[|c' t']|]; try done.
Qed.

Lemma merge_own_payload (r : StoredRelationship) :
  stableJoinCondition (rel_joinCondition r) = true →
  stableDataLineage (rel_dataLineage r) = true →
  mergePayload r (buildPayload (relationshipForm (Some r))) = r.
Proof.
  intros Hjc Hdl. unfold mergePayload.
  rewrite joinCondition_round_trip, dataLineage_round_trip by done.
  destruct r as [id [from to label type] description meaning jc dl].
  cbn. by rewrite !member_round_trip.
Qed.

(** X25 - Opening a relationship in the form and saving it untouched
    leaves the graph as it is, when no other relationship has its id and
    its [joinCondition] and [dataLineage], if it has any, are ones the
    form gives back: with the three, respectively two, fields empty (the
    stored object then stays), or with no other members, every member
    present not empty, and [tables] a list of clean entries that is not
    empty.  Otherwise the save rewrites them. *)
Theorem unedited_relationship_saves_unchanged (now id : Z) (r : StoredRelationship)
    (g : Graph num) :
  rel_id r = Some id →
  (∀ r', r' ∈ relationships g → rel_id r' = Some id → r' = r) →
  stableJoinCondition (rel_joinCondition r) = true →
  stableDataLineage (rel_dataLineage r) = true →
  handleSaveRelationship now (buildPayload (relationshipForm (Some r))) (rel_id r) g = g.
Proof.
  intros Hid Huniq Hjc Hdl. unfold handleSaveRelationship. rewrite Hid.
  destruct g as [ns rels ps sel]. cbn [nodes relationships positions selectedNode] in *.
  f_equal. rewrite <- (list_fmap_id rels) at 2.
  apply list_fmap_ext. intros i r' Hr'. cbn.
  case_bool_decide as Hr; [|done].
  rewrite (Huniq r') by (done || by eapply list_elem_of_lookup_2).
  by apply merge_own_payload.
Qed.

(** X26 - Saving an edited relationship keeps the length and order of the
    list and rewrites the relationships with that id only: from, to and
    label are the form's, and the type is the form's unless the field is
    empty, in which case the stored type stays. *)
Theorem edited_relationship_keeps_type_when_cleared (now id : Z)
    (form : RelationshipForm) (g : Graph num) (i : nat) (r : StoredRelationship) :
  relationships g !! i = Some r →
  let g' := handleSaveRelationship now (buildPayload form) (Some id) g in
  length (relationships g') = length (relationships g)
  ∧ ∃ r', relationships g' !! i = Some r'
          ∧ if bool_decide (rel_id r = Some id)
            then rel_id r' = Some id
                 ∧ rel_data r'
                   = {| rel_from := form_from form; rel_to := form_to form;
                        rel_label := form_label form;
                        rel_type := if String.eqb (form_type form) ""
                                    then rel_type (rel_data r)
                                    else Some (form_type form) |}
            else r' = r.
Proof.
  intros Hr. cbn zeta. cbn [handleSaveRelationship relationships].
  split; [by rewrite length_map|].
  change (map ?f ?l) with (f <$> l). rewrite list_lookup_fmap, Hr. cbn.
  eexists. split; [reflexivity|].
  case_bool_decide as Hid; [|done].
  unfold mergePayload, buildPayload, when_truthy. cbn. split; [done|].
  by destruct (form_type form).
Qed.

(** X27 - An import with relationships gives every relationship an id, its
    own when it has one and its index otherwise, and keeps the data and the
    order. *)
Theorem import_gives_every_relationship_an_id (data : ImportData num) (g : Graph num)
    (rels : list StoredRelationship) :
  import_relationships data = Some rels →
  let g' := handleImport data g in
  Forall (λ r, is_Some (rel_id r)) (relationships g')
  ∧ rel_data <$> relationships g' = rel_data <$> rels
  ∧ (∀ i r, rels !! i = Some r →
            (rel_id <$> relationships g' !! i)
            = Some (Some (default (Z.of_nat i) (rel_id r)))).
Proof.
  intros Hrels. cbn zeta. unfold handleImport. rewrite Hrels.
  cbn [relationships]. split; [|split].
  - apply Forall_lookup. intros i r Hr. rewrite list_lookup_imap in Hr.
    destruct (rels !! i) as [r0|]; [|done]. cbn in Hr. simplify_eq. cbn.
    eauto.
  - apply list_eq. intros i. rewrite !list_lookup_fmap, list_lookup_imap.
    by destruct (rels !! i).
  - intros i r Hr. rewrite list_lookup_imap, Hr. cbn. by destruct (rel_id r).
Qed.
End Editing.

Lemma delete_node_cascade_witness :
  obj_get (Template.nodes (Template.handleDeleteNode (Some "A"%string) graphAB)) "A" = None
  ∧ Template.relationships (Template.handleDeleteNode (Some "A"%string) graphAB) = [].
Proof.
  destruct (delete_node_cascade "A" graphAB) as (Hnode & _); [discriminate|].
  split; [exact Hnode | reflexivity].
Defined.

Lemma graphAB_danglingFree : danglingFree graphAB.
Proof.
  intros r Hr. apply list_elem_of_In in Hr. destruct Hr as [<-|[]].
  split; eexists; reflexivity.
Defined.

Lemma edits_keep_the_graph_free_of_dangling_edges_witness :
  danglingFree graphAB
  ∧ danglingFree (applyEdit (EditDeleteNode (Some "B"%string)) graphAB).
Proof.
  split; [exact graphAB_danglingFree|].
  apply (edits_keep_the_graph_free_of_dangling_edges
           (EditDeleteNode (Some "B"%string)) graphAB).
  - exact graphAB_danglingFree.
  - exact I.
Defined.

Lemma unedited_relationship_saves_unchanged_witness :
  Template.handleSaveRelationship 1700000000000
    (Template.buildPayload (Template.relationshipForm (Some storedAB)))
    (Template.rel_id storedAB) graphAB
  = graphAB.
Proof.
  apply (unedited_relationship_saves_unchanged 1700000000000 1 storedAB graphAB).
  - reflexivity.
  - intros r' Hr' _. apply list_elem_of_In in Hr'. destruct Hr' as [<-|[]].
    reflexivity.
  - reflexivity.
  - reflexivity.
Defined.

(** A join condition with an empty [logic] and an empty list of tables is
    not given back: the untouched save leaves [source] only. *)
Example untouched_save_rebuilds_joinCondition :
  stableJoinCondition (Template.rel_joinCondition storedWithEmptyMembers) = false
  ∧ Template.rel_joinCondition
      (Template.mergePayload storedWithEmptyMembers
         (Template.buildPayload (Template.relationshipForm (Some storedWithEmptyMembers))))
    = Some {| Template.jc_source := Some "S"%string; Template.jc_logic := None;
              Template.jc_tables := None; Template.jc_others := false |}.
Proof. split; reflexivity. Qed.

Lemma edited_relationship_keeps_type_when_cleared_witness :
  ∃ r', Template.relationships
          (Template.handleSaveRelationship 1700000000000
             (Template.buildPayload formWithoutType) (Some 1) graphAB) !! 0%nat
        = Some r'
        ∧ Template.rel_id r' = Some 1
        ∧ Template.rel_data r'
          = {| rel_from := "B"; rel_to := "A"; rel_label := "USES";
               rel_type := Some "DERIVES"%string |}.
Proof.
  destruct (edited_relationship_keeps_type_when_cleared 1700000000000 1
              formWithoutType graphAB 0 storedAB eq_refl) as [_ (r' & Hrel & Hr')].
  exists r'. split; [exact Hrel | exact Hr'].
Defined.

Lemma import_gives_every_relationship_an_id_witness :
  Forall (λ r, is_Some (Template.rel_id r))
    (Template.relationships (Template.handleImport importOfOne graphAB)).
Proof.
  destruct (import_gives_every_relationship_an_id importOfOne graphAB
              [idlessAB] eq_refl)
    as [Hids _].
  exact Hids.
Defined.

(** ** Zoom of the template and emphasis *)

Lemma applyTemplateZoom_in_range (t : Transform Q) (op : TemplateZoomOp Q) :
  templateScaleInRange (scale t) → templateScaleInRange (scale (applyTemplateZoom t op)).
Proof.
  unfold templateScaleInRange. intros [Hlo Hhi].
  destruct op as [rect e| | |]; cbn [applyTemplateZoom].
  - unfold Template.handleWheel. destruct (ctrlKey e || metaKey e); cbn; [|lra].
    pose proof (clamp_in_range 0.2 2
                  (scale t * (if Q_gt (deltaY e) 0 then 0.9 else 1.1))
                  ltac:(lra)) as [? ?]. lra.
  - cbn. destruct (Q_min_case 2 (scale t * 1.2)) as [[-> ?]|[-> ?]]; lra.
  - cbn. destruct (Q_max_case 0.2 (scale t / 1.2)) as [[-> ?]|[-> ?]]; [|lra].
    split; [lra|]. apply Qle_shift_div_r; lra.
  - cbn. lra.
Qed.

(** X28 - In exact arithmetic the scale of the template stays in
    [[0.2, 2]] under every sequence of wheel events and zoom buttons from
    the initial view. *)
Theorem Template_scale_stays_in_range (ops : list (TemplateZoomOp Q)) :
  templateScaleInRange
    (scale (foldl applyTemplateZoom Template.initialTransform ops)).
Proof.
  assert (templateScaleInRange (scale (Template.initialTransform (num:=Q)))) as H0
    by (unfold templateScaleInRange; cbn; lra).
  revert H0. generalize (Template.initialTransform (num:=Q)).
  induction ops as [|op ops IH]; intros t Ht; cbn [foldl]; [exact Ht|].
  by apply IH, applyTemplateZoom_in_range.
Qed.

(** X29 - While a scenario is active the selection does not show: edges and
    node styles are the same whatever node is selected, hovered or
    connected. *)
Theorem scenario_emphasis_ignores_selection (nodes : NodesObject)
    (s : Main.State float) (sel : option string) :
  is_Some (Main.activeScenario s) →
  (∀ rel, Main.renderEdge nodes (Main.setSelectedNode sel s) rel
          = Main.renderEdge nodes s rel)
  ∧ (∀ node isSelected isHovered isConnected isSelected' isHovered' isConnected',
       Main.nodeStyle (Main.setSelectedNode sel s) node isSelected isHovered isConnected
       = Main.nodeStyle s node isSelected' isHovered' isConnected').
Proof.
  intros [sc Hsc]. split.
  - intros rel. unfold Main.renderEdge. cbn [Main.setSelectedNode Main.positions
      Main.activeScenario Main.selectedNode]. rewrite Hsc.
    reflexivity.
  - intros. unfold Main.nodeStyle. cbn. rewrite Hsc. reflexivity.
Qed.

Lemma scenario_emphasis_ignores_selection_witness :
  Main.renderEdge nodesAB (Main.setSelectedNode (Some "A"%string) statePlayingABC) relAB
  = Main.renderEdge nodesAB statePlayingABC relAB.
Proof.
  destruct (scenario_emphasis_ignores_selection nodesAB statePlayingABC
              (Some "A"%string)) as [Hedges _].
  - eexists. reflexivity.
  - apply Hedges.
Defined.
